(** * Bulletproofs range proofs (go-ethereum/zkrangeproof/bulletproofs.go)

    A shallow embedding of the range-proof engine and of its inner-product
    argument, with the properties of its specification settled against it.

    Go values are modelled as follows.
    - [*big.Int] is a [Z]; a [*big.Int] that may be [nil] is an [option Z].
    - [*p256] is a pointer into a store of curve points: the methods of
      [p256] write their result into the receiver, so two names for one
      pointer see each other's updates.
    - a slice is a list; [make] of a negative length, an index out of range
      and a nil dereference are run-time panics.
    - [error] is an optional message.
    - the random source is a tape of integers read in order. *)

From Stdlib Require Import ZArith Lia List String Ascii Zcong.
From Stdlib Require Import Zmod.Zmod.
From stdpp Require Import base option list strings pretty.
From AAC_tactics Require Import AAC.

Local Open Scope Z_scope.

(** ** The external interface *)

(** The curve group behind the type [p256] and the constant [CURVE] live in a
    file of the package that is not part of this development; they are taken
    as an interface.  [pt_Multiply] is the group operation (the package
    writes the group multiplicatively), [pt_ScalarMult] exponentiation,
    [pt_ScalarBaseMult] exponentiation of the base point, [pt_String] the
    textual encoding of a point and [pt_MapToGroup] the hash-to-curve map. *)
Class Curve := {
  point : Type;
  CURVE_N : Z;
  pt_Multiply : point -> point -> point;
  pt_ScalarMult : point -> Z -> point;
  pt_ScalarBaseMult : Z -> point;
  pt_Neg : point -> point;
  pt_Infinity : point;
  pt_IsZero : point -> bool;
  pt_String : point -> string;
  pt_MapToGroup : string -> point
}.

(** The group laws, assumed only where a property needs them. *)
Record CurveLaws (C : Curve) : Prop := {
  law_assoc : forall a b c : point,
      pt_Multiply a (pt_Multiply b c) = pt_Multiply (pt_Multiply a b) c;
  law_unit_l : forall a : point, pt_Multiply pt_Infinity a = a;
  law_unit_r : forall a : point, pt_Multiply a pt_Infinity = a;
  law_neg_l : forall a : point, pt_Multiply (pt_Neg a) a = pt_Infinity;
  law_neg_r : forall a : point, pt_Multiply a (pt_Neg a) = pt_Infinity;
  law_IsZero : forall a : point, pt_IsZero a = true <-> a = pt_Infinity
}.

(** The laws of exponents in a commutative group whose order divides
    [CURVE_N], with [pt_ScalarBaseMult] the powers of one base point; they
    are assumed only where a property needs them. *)
Record ExponentLaws (C : Curve) : Prop := {
  law_comm : forall a b : point, pt_Multiply a b = pt_Multiply b a;
  law_exp_add : forall (a : point) (k l : Z),
      pt_ScalarMult a (k + l)
      = pt_Multiply (pt_ScalarMult a k) (pt_ScalarMult a l);
  law_exp_mul : forall (a : point) (k l : Z),
      pt_ScalarMult (pt_ScalarMult a k) l = pt_ScalarMult a (k * l);
  law_exp_dist : forall (a b : point) (k : Z),
      pt_ScalarMult (pt_Multiply a b) k
      = pt_Multiply (pt_ScalarMult a k) (pt_ScalarMult b k);
  law_exp_mod : forall (a : point) (k : Z),
      pt_ScalarMult a (k mod CURVE_N) = pt_ScalarMult a k;
  law_exp_1 : forall a : point, pt_ScalarMult a 1 = a;
  law_base : forall k : Z,
      pt_ScalarBaseMult k = pt_ScalarMult (pt_ScalarBaseMult 1) k
}.

(** The hash function of [crypto/sha256] and the reader of [crypto/rand]. *)
Class Env := {
  sha256_Sum : list Byte.byte -> list Byte.byte;
  rand_Reader : nat -> Z
}.

Definition error := option string.

Section Bulletproofs.

Context {C : Curve} {E : Env}.

(** ** Constants *)

Definition ORDER : Z := CURVE_N.
Definition SEEDH : string := "BulletproofsDoesNotNeedTrustedSetupH".
Definition SEEDU : string := "BulletproofsDoesNotNeedTrustedSetupU".

(** ** Big-integer helpers *)

(** Modelled from the spec: the helpers [Add], [Sub], [Multiply], [Mod],
    [ModInverse] and [GetBigInt] of the package's utility file are missing;
    they are the integer operations of their names, each returning a fresh
    integer.  [Mod] is the Euclidean remainder, in [0, m) for a positive
    modulus ("all scalar arithmetic is reduced modulo q"). *)
Definition Add (x y : Z) : Z := x + y.
Definition Sub (x y : Z) : Z := x - y.
Definition Multiply (x y : Z) : Z := x * y.
Definition Mod (x m : Z) : Z := x mod m.

(** Modelled from the spec: [ModInverse] is the modular inverse ("x⁻¹ =
    modular inverse"); an integer that has no inverse gives [nil]. *)
Definition ModInverse (g n : Z) : option Z :=
  if Z.gcd g n =? 1 then Some (Z.invmod g n) else None.

(** ** Byte strings *)

Definition be_fold (acc : Z) (b : Byte.byte) : Z :=
  acc * 256 + Z.of_N (Byte.to_N b).

(** The bytes read as one unsigned integer, most significant byte first. *)
Definition be_to_Z (bs : list Byte.byte) : Z := fold_left be_fold bs 0.

(** Modelled from the spec: [byteconversion.FromByteArray] is missing.  The
    spec has the digest "interpreted big-endian as an unsigned integer then
    reduced mod q", and [HashBP] and [HashIP] below do nothing to the digest
    but pass it to this function; it never fails. *)
Definition FromByteArray (bs : list Byte.byte) : Z * error :=
  (be_to_Z bs mod ORDER, None).

(** ** The store of curve points *)

Definition ptr := option nat.

Record state := mkState { heap : list point; rand_pos : nat }.

Inductive outcome (A : Type) : Type :=
| Ret (a : A) (s : state)
| Panic
| Diverge.
Arguments Ret {A} a s.
Arguments Panic {A}.
Arguments Diverge {A}.

Definition M (A : Type) : Type := state -> outcome A.

Definition ret {A} (a : A) : M A := fun s => Ret a s.

Definition bind {A B} (m : M A) (k : A -> M B) : M B :=
  fun s => match m s with
           | Ret a s' => k a s'
           | Panic => Panic
           | Diverge => Diverge
           end.

Definition panic {A} : M A := fun _ => Panic.
Definition diverge {A} : M A := fun _ => Diverge.

Notation "x <- m ;; k" := (bind m (fun x => k))
  (at level 20, m at level 99, k at level 200, only parsing).
Notation "' pat <- m ;; k" := (bind m (fun x => match x with pat => k end))
  (at level 20, pat pattern, m at level 99, k at level 200, only parsing).

(** A value that must not be [nil] where it is used. *)
Definition need {A} (o : option A) : M A :=
  match o with Some a => ret a | None => panic end.

Definition load (p : ptr) : M point :=
  fun s => match p with
           | Some l => match heap s !! l with
                       | Some v => Ret v s
                       | None => Panic
                       end
           | None => Panic
           end.

(** [new(p256)] followed by a method that fills it. *)
Definition alloc (v : point) : M ptr :=
  fun s => Ret (Some (length (heap s)))
               (mkState (heap s ++ [v]) (rand_pos s)).

Definition write (p : ptr) (v : point) : M unit :=
  fun s => match p with
           | Some l => if decide (l < length (heap s))%nat
                       then Ret tt (mkState (<[l:=v]> (heap s)) (rand_pos s))
                       else Panic
           | None => Panic
           end.

(** [rand.Int(rand.Reader, max)]: the next integer of the tape, in [0, max);
    it panics when [max <= 0].  The reader itself is taken not to fail. *)
Definition rand_Int (max : Z) : M Z :=
  fun s => if max <=? 0 then Panic
           else Ret (rand_Reader (rand_pos s) mod max)
                    (mkState (heap s) (S (rand_pos s))).

(** [make([]T, n)] panics on a negative length. *)
Definition make (n : Z) : M unit :=
  if n <? 0 then panic else ret tt.

(** [for i < n { ... ; i = i + 1 }] with [k] iterations left. *)
Fixpoint for_loop {St} (k : nat) (i : nat) (body : nat -> St -> M St)
    (acc : St) : M St :=
  match k with
  | O => ret acc
  | S k' => acc' <- body i acc ;; for_loop k' (S i) body acc'
  end.

(** ** The methods of [p256] *)

Definition p256_ScalarMult_new (a : ptr) (k : Z) : M ptr :=
  v <- load a ;; alloc (pt_ScalarMult v k).

Definition p256_ScalarBaseMult_new (k : Z) : M ptr :=
  alloc (pt_ScalarBaseMult k).

Definition p256_SetInfinity_new : M ptr := alloc pt_Infinity.

Definition p256_Multiply_new (a b : ptr) : M ptr :=
  va <- load a ;; vb <- load b ;; alloc (pt_Multiply va vb).

(** [p.Multiply(a, b)]: the product is written into the receiver. *)
Definition p256_Multiply (p a b : ptr) : M ptr :=
  va <- load a ;; vb <- load b ;; _ <- write p (pt_Multiply va vb) ;; ret p.

(** [p.Neg(a)]: the inverse is written into the receiver, which is returned. *)
Definition p256_Neg (p a : ptr) : M ptr :=
  va <- load a ;; _ <- write p (pt_Neg va) ;; ret p.

Definition p256_IsZero (p : ptr) : M bool :=
  v <- load p ;; ret (pt_IsZero v).

Definition p256_String (p : ptr) : M string :=
  v <- load p ;; ret (pt_String v).

(** [p] is a valid pointer of [s] and [v] is the point behind it. *)
Definition points_to (s : state) (p : ptr) (v : point) : Prop :=
  exists l, p = Some l /\ heap s !! l = Some v.

(** [s'] still has every point of [s], unchanged. *)
Definition preserved (s s' : state) : Prop :=
  (length (heap s) <= length (heap s'))%nat /\
  forall l, (l < length (heap s))%nat -> heap s' !! l = heap s !! l.

(** A pointer that is nil or valid: Go has no dangling pointers. *)
Definition wf_ptr (s : state) (p : ptr) : Prop :=
  match p with Some l => (l < length (heap s))%nat | None => True end.

(** A pointer behind which [s] has some point. *)
Definition valid (s : state) (p : ptr) : Prop := exists v, points_to s p v.

(** A pointer that [s] has not allocated yet. *)
Definition fresh (s : state) (p : ptr) : Prop :=
  exists l, p = Some l /\ (length (heap s) <= l)%nat.

(** The run of [m] from [s] returns, with a result and a state in [Q]. *)
Definition wp {A} (m : M A) (s : state) (Q : A -> state -> Prop) : Prop :=
  match m s with
  | Ret a s' => Q a s'
  | Panic | Diverge => False
  end.

(** ** Slices *)

(** [a[:k]] and [a[k:]], for slices whose capacity is their length. *)
Definition slice_to {A} (a : list A) (k : Z) : option (list A) :=
  if (0 <=? k) && (k <=? Z.of_nat (length a))
  then Some (take (Z.to_nat k) a) else None.

Definition slice_from {A} (a : list A) (k : Z) : option (list A) :=
  if (0 <=? k) && (k <=? Z.of_nat (length a))
  then Some (drop (Z.to_nat k) a) else None.

(** ** Vectors of scalars *)

Definition err_size : string :=
  "Size of first argument is different from size of second argument.".

Definition VectorCopy (a : Z) (n : Z) : option (list Z * error) :=
  if n <? 0 then None else Some (replicate (Z.to_nat n) a, None).

Definition VectorConvertToBig (a : list Z) (n : Z) : option (list Z * error) :=
  if n <? 0 then None
  else if Z.of_nat (length a) <? n then None
  else Some (take (Z.to_nat n) a, None).

Definition VectorAdd (a b : list Z) : list Z * error :=
  if decide (length a = length b)
  then (zip_with (fun x y => Mod (Add x y) ORDER) a b, None)
  else ([], Some err_size).

Definition VectorSub (a b : list Z) : list Z * error :=
  if decide (length a = length b)
  then (zip_with (fun x y => Mod (Sub x y) ORDER) a b, None)
  else ([], Some err_size).

Definition VectorScalarMul (a : list Z) (b : Z) : list Z * error :=
  (map (fun x => Mod (Multiply x b) ORDER) a, None).

Definition VectorMul (a b : list Z) : list Z * error :=
  if decide (length a = length b)
  then (zip_with (fun x y => Mod (Multiply x y) ORDER) a b, None)
  else ([], Some err_size).

Definition ScalarProduct_step (result : Z) (ab : Z * Z) : Z :=
  Mod (Add result (Multiply (fst ab) (snd ab))) ORDER.

Definition ScalarProduct (a b : list Z) : option Z * error :=
  if decide (length a = length b)
  then (Some (fold_left ScalarProduct_step (zip a b) 0), None)
  else (None, Some err_size).

Fixpoint PowerOf_loop (k : nat) (current x : Z) : list Z :=
  match k with
  | O => []
  | S k' => current :: PowerOf_loop k' (Mod (Multiply current x) ORDER) x
  end.

Definition PowerOf (x : Z) (n : Z) : option (list Z * error) :=
  if n <? 0 then None else Some (PowerOf_loop (Z.to_nat n) 1 x, None).

Fixpoint ComputeAR_loop (x : list Z) : option (list Z) :=
  match x with
  | [] => Some []
  | xi :: x' =>
      if xi =? 0 then cons (-1) <$> ComputeAR_loop x'
      else if xi =? 1 then cons 0 <$> ComputeAR_loop x'
      else None
  end.

Definition ComputeAR (x : list Z) : list Z * error :=
  match ComputeAR_loop x with
  | Some result => (result, None)
  | None => ([], Some "input contains non-binary element"%string)
  end.

Fixpoint Decompose_loop (k : nat) (x u : Z) : list Z :=
  match k with
  | O => []
  | S k' => x mod u :: Decompose_loop k' (x / u) u
  end.

(** Modelled from the spec: [Decompose] is missing.  It is the "little-endian
    bit-decomposition of v into length n" (in base [u]), and the error
    OutOfRange, "v falls outside [0, 2ⁿ)", is "raised by bit-decomposition". *)
Definition Decompose (x : Z) (u l : Z) : option (list Z * error) :=
  if l <? 0 then None
  else if (0 <=? x) && (x <? u ^ l)
       then Some (Decompose_loop (Z.to_nat l) x u, None)
       else Some ([], Some "OutOfRange"%string).

(** ** Vectors of points *)

Definition VectorECAdd (a b : list ptr) : M (list ptr * error) :=
  if decide (length a = length b)
  then
    result <- for_loop (length a) 0 (fun i result =>
                ai <- need (a !! i) ;;
                bi <- need (b !! i) ;;
                r <- p256_Multiply_new ai bi ;;
                ret (result ++ [r])) [] ;;
    ret (result, None)
  else ret ([], Some err_size).

Definition VectorExp (a : list ptr) (b : list Z) : M (ptr * error) :=
  if decide (length a = length b)
  then
    result <- p256_SetInfinity_new ;;
    _ <- for_loop (length a) 0 (fun i _ =>
           ai <- need (a !! i) ;;
           bi <- need (b !! i) ;;
           t <- p256_ScalarMult_new ai bi ;;
           _ <- p256_Multiply result result t ;;
           ret tt) tt ;;
    ret (result, None)
  else ret (None, Some err_size).

Definition VectorScalarExp (a : list ptr) (b : Z) : M (list ptr * error) :=
  result <- for_loop (length a) 0 (fun i result =>
              ai <- need (a !! i) ;;
              r <- p256_ScalarMult_new ai b ;;
              ret (result ++ [r])) [] ;;
  ret (result, None).

(** ** Hashing to scalars *)

Definition HashBP (A S : ptr) : M (option Z * option Z * error) :=
  sA <- p256_String A ;;
  sS <- p256_String S ;;
  let output1 :=
    sha256_Sum (list_byte_of_string sA ++ list_byte_of_string sS) in
  let '(result1, err1) := FromByteArray output1 in
  let output2 :=
    sha256_Sum (list_byte_of_string sS ++ list_byte_of_string sA) in
  let '(result2, err2) := FromByteArray output2 in
  match err1, err2 with
  | Some e1, _ => ret (None, None, Some e1)
  | None, Some e2 => ret (None, None, Some e2)
  | None, None => ret (Some result1, Some result2, None)
  end.

Definition HashIP (g h : list ptr) (P : ptr) (c : Z) (n : Z)
  : M (Z * error) :=
  sP <- p256_String P ;;
  digest <- for_loop (Z.to_nat n) 0 (fun i digest =>
              gi <- need (g !! i) ;;
              sg <- p256_String gi ;;
              hi <- need (h !! i) ;;
              sh <- p256_String hi ;;
              ret (digest ++ list_byte_of_string sg ++ list_byte_of_string sh))
              (list_byte_of_string sP) ;;
  let output := sha256_Sum (digest ++ list_byte_of_string (pretty c)) in
  ret (FromByteArray output).

(** The scalar that the specification derives from two points:
    SHA-256(encode(P) || encode(Q)) read big-endian and reduced mod q. *)
Definition encode (v : point) : list Byte.byte :=
  list_byte_of_string (pt_String v).

Definition hash_scalar (P Q : point) : Z :=
  be_to_Z (sha256_Sum (encode P ++ encode Q)) mod ORDER.

(** ** Commitments *)

(** Modelled from the spec: [CommitG1] is missing; it is the Pedersen
    commitment "V = G^v · H^γ" on the base point, with no error. *)
Definition CommitG1 (x r : Z) (h : ptr) : M (ptr * error) :=
  Cm <- p256_ScalarBaseMult_new x ;;
  Hr <- p256_ScalarMult_new h r ;;
  _ <- p256_Multiply Cm Cm Hr ;;
  ret (Cm, None).

(** Modelled from the spec: [MapToGroup] is missing; it derives a point "by
    hash-to-curve" from a seed, with no error. *)
Definition MapToGroup (seed : string) : M (ptr * error) :=
  p <- alloc (pt_MapToGroup seed) ;; ret (p, None).

Definition CommitVector (aL aR : list Z) (alpha : Z) (G H : ptr)
    (g h : list ptr) (n : Z) : M (ptr * error) :=
  R <- p256_ScalarMult_new H alpha ;;
  _ <- for_loop (Z.to_nat n) 0 (fun i _ =>
         gi <- need (g !! i) ;;
         aLi <- need (aL !! i) ;;
         gaL <- p256_ScalarMult_new gi aLi ;;
         hi <- need (h !! i) ;;
         aRi <- need (aR !! i) ;;
         haR <- p256_ScalarMult_new hi aRi ;;
         _ <- p256_Multiply R R gaL ;;
         _ <- p256_Multiply R R haR ;;
         ret tt) tt ;;
  ret (R, None).

Definition CommitVectorBig (aL aR : list Z) (alpha : Z) (G H : ptr)
    (g h : list ptr) (n : Z) : M (ptr * error) :=
  R <- p256_ScalarMult_new H alpha ;;
  _ <- for_loop (Z.to_nat n) 0 (fun i _ =>
         gi <- need (g !! i) ;;
         aLi <- need (aL !! i) ;;
         t <- p256_ScalarMult_new gi aLi ;;
         _ <- p256_Multiply R R t ;;
         hi <- need (h !! i) ;;
         aRi <- need (aR !! i) ;;
         t' <- p256_ScalarMult_new hi aRi ;;
         _ <- p256_Multiply R R t' ;;
         ret tt) tt ;;
  ret (R, None).

Definition CommitInnerProduct (g h : list ptr) (a b : list Z)
  : M (ptr * error) :=
  '(ga, _) <- VectorExp g a ;;
  '(hb, _) <- VectorExp h b ;;
  result <- p256_Multiply_new ga hb ;;
  ret (result, None).

(** ** The vectors of the specification

    The inner product over the integers, the vector 1ⁿ and the vector of
    powers xⁿ = (1, x, x², …), against which [Delta] is compared. *)

Fixpoint inner_product (a b : list Z) : Z :=
  match a, b with
  | x :: a', y :: b' => x * y + inner_product a' b'
  | _, _ => 0
  end.

Definition ones (n : nat) : list Z := replicate n 1.

Fixpoint powers_from (c x : Z) (n : nat) : list Z :=
  match n with
  | O => []
  | S n' => c :: powers_from (c * x) x n'
  end.

Definition powers (x : Z) (n : nat) : list Z := powers_from 1 x n.

(** Π aᵢ^bᵢ, multiplied up from the identity as [VectorExp] does. *)
Definition prod_exp_step (acc : point) (vk : point * Z) : point :=
  pt_Multiply acc (pt_ScalarMult (fst vk) (snd vk)).

Definition prod_exp (vs : list point) (ks : list Z) : point :=
  fold_left prod_exp_step (zip vs ks) pt_Infinity.

(** The values of one round of the inner product argument on vectors of
    length [2 * k]: the points L and R, the challenge, and the folding of
    two halves with a pair of exponents. *)
Definition round_L (a b : list Z) (gv hv : list point) (uv : point)
    (k : nat) : point :=
  pt_Multiply
    (pt_Multiply (prod_exp (drop k gv) (take k a))
                 (prod_exp (take k hv) (drop k b)))
    (pt_ScalarMult uv (inner_product (take k a) (drop k b) mod ORDER)).

Definition round_R (a b : list Z) (gv hv : list point) (uv : point)
    (k : nat) : point :=
  pt_Multiply
    (pt_Multiply (prod_exp (take k gv) (drop k a))
                 (prod_exp (drop k hv) (take k b)))
    (pt_ScalarMult uv (inner_product (drop k a) (take k b) mod ORDER)).

Definition round_x (a b : list Z) (gv hv : list point) (uv : point)
    (k : nat) : Z :=
  hash_scalar (round_L a b gv hv uv k) (round_R a b gv hv uv k).

Definition fold_points (vs : list point) (k : nat) (e_lo e_hi : Z)
  : list point :=
  zip_with pt_Multiply (map (fun v => pt_ScalarMult v e_lo) (take k vs))
                       (map (fun v => pt_ScalarMult v e_hi) (drop k vs)).

Definition fold_scalars (a : list Z) (k : nat) (e_lo e_hi : Z) : list Z :=
  zip_with (fun u v => (u + v) mod ORDER)
           (map (fun u => (u * e_lo) mod ORDER) (take k a))
           (map (fun u => (u * e_hi) mod ORDER) (drop k a)).

Definition fold_P (Lv Rv Pv : point) (x x2inv : Z) : point :=
  pt_Multiply (pt_Multiply (pt_ScalarMult Lv ((x * x) mod ORDER)) Pv)
              (pt_ScalarMult Rv x2inv).

(** Every challenge that the hash yields has an inverse modulo the group
    order. *)
Definition hash_invertible : Prop :=
  forall bs, Z.gcd (be_to_Z (sha256_Sum bs) mod ORDER) ORDER = 1.

(** Identity (65): G^t'·H^taux = V^(z²)·G^delta·T1^x·T2^(x²), on the points
    behind the pointers of the proof, with the squares reduced mod q. *)
Definition identity65_lhs (Hv : point) (tprime taux : Z) : point :=
  pt_Multiply (pt_ScalarBaseMult tprime) (pt_ScalarMult Hv taux).

Definition identity65_rhs (Vv T1v T2v : point) (delta z x : Z) : point :=
  pt_Multiply
    (pt_Multiply
       (pt_Multiply (pt_ScalarMult Vv ((z * z) mod ORDER))
                    (pt_ScalarBaseMult delta))
       (pt_ScalarMult T1v x))
    (pt_ScalarMult T2v ((x * x) mod ORDER)).

(** Congruence modulo the group order. *)
Definition cong (u v : Z) : Prop := u mod ORDER = v mod ORDER.

(** δ(y, z) = (z − z²)·⟨1ⁿ, yⁿ⟩ − z³·⟨1ⁿ, 2ⁿ⟩ (mod q) *)
Definition delta_spec (n : nat) (y z : Z) : Z :=
  ((z - z ^ 2) * inner_product (ones n) (powers y n)
   - z ^ 3 * inner_product (ones n) (powers 2 n)) mod ORDER.

(** ** Parameters and proofs *)

(** Base struct for the Inner Product Argument. *)
Record bip := mkBip {
  bip_n : Z;
  bip_c : Z;
  bip_u : ptr;
  bip_H : ptr;
  bip_g : list ptr;
  bip_h : list ptr;
  bip_P : ptr
}.

(** Struct that contains the Inner Product Proof. *)
Record proofBip := mkProofBip {
  pip_Ls : list ptr;
  pip_Rs : list ptr;
  pip_u : ptr;
  pip_P : ptr;
  pip_g : ptr;
  pip_h : ptr;
  pip_a : option Z;
  pip_b : option Z;
  pip_n : Z
}.

(** Bulletproofs parameters. *)
Record bp := mkBp {
  bp_n : Z;
  bp_G : ptr;
  bp_H : ptr;
  bp_g : list ptr;
  bp_h : list ptr;
  bp_zkip : bip
}.

(** Bulletproofs proof. *)
Record proofBP := mkProofBP {
  pbp_V : ptr;
  pbp_A : ptr;
  pbp_S : ptr;
  pbp_T1 : ptr;
  pbp_T2 : ptr;
  pbp_taux : Z;
  pbp_mu : Z;
  pbp_tprime : Z;
  pbp_proofip : proofBip
}.

(** The zero values of the two structs that the code declares and returns
    without filling. *)
Definition bip_zero : bip := mkBip 0 0 None None [] [] None.
Definition proofBip_zero : proofBip :=
  mkProofBip [] [] None None None None None None 0.

Definition set_pip_n (proof : proofBip) (n : Z) : proofBip :=
  mkProofBip (pip_Ls proof) (pip_Rs proof) (pip_u proof) (pip_P proof)
             (pip_g proof) (pip_h proof) (pip_a proof) (pip_b proof) n.

Definition set_bip_P (zkip : bip) (P : ptr) : bip :=
  mkBip (bip_n zkip) (bip_c zkip) (bip_u zkip) (bip_H zkip) (bip_g zkip)
        (bip_h zkip) P.

Definition set_bip_h_c (zkip : bip) (h : list ptr) (c : Z) : bip :=
  mkBip (bip_n zkip) c (bip_u zkip) (bip_H zkip) (bip_g zkip) h (bip_P zkip).

Definition set_bp_zkip (zkrp : bp) (zkip : bip) : bp :=
  mkBp (bp_n zkrp) (bp_G zkrp) (bp_H zkrp) (bp_g zkrp) (bp_h zkrp) zkip.

(** ** The range proof: Delta and Setup *)

(** delta(y,z) = (z-z^2) . < 1^n, y^n > - z^3 . < 1^n, 2^n > *)
Definition bp_Delta (zkrp : bp) (y z : Z) : option (Z * error) :=
  let z2 := Multiply z z in
  let z2 := Mod z2 ORDER in
  let z3 := Multiply z2 z in
  let z3 := Mod z3 ORDER in
  '(v1, _) ← VectorCopy 1 (bp_n zkrp);
  '(vy, _) ← PowerOf y (bp_n zkrp);
  let '(sp1y, _) := ScalarProduct v1 vy in
  '(p2n, _) ← PowerOf 2 (bp_n zkrp);
  let '(sp12, _) := ScalarProduct v1 p2n in
  let result := Sub z z2 in
  sp1y ← sp1y;
  let result := Multiply result sp1y in
  sp12 ← sp12;
  let result := Sub result (Multiply z3 sp12) in
  let result := Mod result ORDER in
  Some (result, None).

(** [int64(math.Log2(float64(b)))].  The conversion to [int64] drops the
    fraction of the logarithm, which leaves the position of the highest
    set bit of [b]; this holds as long as the rounding of the float
    arithmetic does not reach the next integer (every [b] below 2^32 at
    least).  For [b <= 0] the logarithm is infinite or not a number, its
    conversion is the least [int64] on the usual targets, and the [make]
    that follows panics. *)
Definition Log2_int64 (b : Z) : option Z :=
  if b <? 1 then None else Some (Z.log2 b).

(** Setup of the inner product argument; the struct it returns is never
    filled. *)
Definition bip_Setup (zkip : bip) (H : ptr) (g h : list ptr) (c : Z)
  : M (bip * (bip * error)) :=
  _ <- make (bip_n zkip) ;;
  _ <- make (bip_n zkip) ;;
  '(u, _) <- MapToGroup SEEDU ;;
  ret (mkBip (bip_n zkip) c u H g h (bip_P zkip), (bip_zero, None)).

Definition bp_Setup (zkrp : bp) (a b : Z) : M bp :=
  G <- p256_ScalarBaseMult_new 1 ;;
  '(H, _) <- MapToGroup SEEDH ;;
  n <- need (Log2_int64 b) ;;
  _ <- make n ;;
  _ <- make n ;;
  '(g, h) <- for_loop (Z.to_nat n) 0 (fun i '(g, h) =>
               eg <- rand_Int ORDER ;;
               eh <- rand_Int ORDER ;;
               gi <- p256_ScalarBaseMult_new eg ;;
               hi <- p256_ScalarMult_new H eh ;;
               ret (g ++ [gi], h ++ [hi])) ([], []) ;;
  '(zkip, _) <- bip_Setup (bp_zkip zkrp) H g h 0 ;;
  ret (mkBp n G H g h zkip).

(** ** The inner product argument *)

(** What one round of the recursion hands to the next. *)
Record BIP_round_result := mkRound {
  rd_aprime : list Z;
  rd_bprime : list Z;
  rd_gprime : list ptr;
  rd_hprime : list ptr;
  rd_Pprime : ptr;
  rd_L : ptr;
  rd_R : ptr
}.

(** The recursive branch of [BIP] up to the recursive call.  A challenge
    without an inverse leaves [xinv] and [x2inv] nil, and the scalar
    multiplication by [x2inv] panics at the latest. *)
Definition BIP_round (a b : list Z) (g h : list ptr) (u P : ptr) (n : Z)
  : M BIP_round_result :=
  let nprime := Z.quot n 2 in
  a_lo <- need (slice_to a nprime) ;;
  b_hi <- need (slice_from b nprime) ;;
  let '(cL, _) := ScalarProduct a_lo b_hi in
  a_hi <- need (slice_from a nprime) ;;
  b_lo <- need (slice_to b nprime) ;;
  let '(cR, _) := ScalarProduct a_hi b_lo in
  g_hi <- need (slice_from g nprime) ;;
  '(L, _) <- VectorExp g_hi a_lo ;;
  h_lo <- need (slice_to h nprime) ;;
  '(Lh, _) <- VectorExp h_lo b_hi ;;
  _ <- p256_Multiply L L Lh ;;
  cL <- need cL ;;
  ucL <- p256_ScalarMult_new u cL ;;
  _ <- p256_Multiply L L ucL ;;
  g_lo <- need (slice_to g nprime) ;;
  '(R, _) <- VectorExp g_lo a_hi ;;
  h_hi <- need (slice_from h nprime) ;;
  '(Rh, _) <- VectorExp h_hi b_lo ;;
  _ <- p256_Multiply R R Rh ;;
  cR <- need cR ;;
  ucR <- p256_ScalarMult_new u cR ;;
  _ <- p256_Multiply R R ucR ;;
  '(x, _, _) <- HashBP L R ;;
  x <- need x ;;
  xinv <- need (ModInverse x ORDER) ;;
  '(gprime, _) <- VectorScalarExp g_lo xinv ;;
  '(gprime2, _) <- VectorScalarExp g_hi x ;;
  '(gprime, _) <- VectorECAdd gprime gprime2 ;;
  '(hprime, _) <- VectorScalarExp h_lo x ;;
  '(hprime2, _) <- VectorScalarExp h_hi xinv ;;
  '(hprime, _) <- VectorECAdd hprime hprime2 ;;
  let x2 := Mod (Multiply x x) ORDER in
  x2inv <- need (ModInverse x2 ORDER) ;;
  Pprime <- p256_ScalarMult_new L x2 ;;
  _ <- p256_Multiply Pprime Pprime P ;;
  Rx <- p256_ScalarMult_new R x2inv ;;
  _ <- p256_Multiply Pprime Pprime Rx ;;
  let '(aprime, _) := VectorScalarMul a_lo x in
  let '(aprime2, _) := VectorScalarMul a_hi xinv in
  let '(aprime, _) := VectorAdd aprime aprime2 in
  let '(bprime, _) := VectorScalarMul b_lo xinv in
  let '(bprime2, _) := VectorScalarMul b_hi x in
  let '(bprime, _) := VectorAdd bprime bprime2 in
  ret (mkRound aprime bprime gprime hprime Pprime L R).

(** BIP is the main recursive function that will be used to compute the
    inner product argument.  The recursion of the code is not bounded for
    [n <= 0]; [fuel] bounds its depth here. *)
Fixpoint BIP_fuel (fuel : nat) (a b : list Z) (g h : list ptr) (u P : ptr)
    (n : Z) (Ls Rs : list ptr) : M (proofBip * error) :=
  match fuel with
  | O => diverge
  | S fuel' =>
      proof <-
        (if n =? 1 then
           a0 <- need (a !! 0%nat) ;;
           b0 <- need (b !! 0%nat) ;;
           g0 <- need (g !! 0%nat) ;;
           h0 <- need (h !! 0%nat) ;;
           ret (mkProofBip Ls Rs u P g0 h0 (Some a0) (Some b0) 0)
         else
           rd <- BIP_round a b g h u P n ;;
           '(proof, _) <- BIP_fuel fuel' (rd_aprime rd) (rd_bprime rd)
                            (rd_gprime rd) (rd_hprime rd) u (rd_Pprime rd)
                            (Z.quot n 2) (Ls ++ [rd_L rd]) (Rs ++ [rd_R rd]) ;;
           ret proof) ;;
      ret (set_pip_n proof n, None)
  end.

(** The depth of the recursion from [n >= 1] down to 1. *)
Definition BIP_depth (n : Z) : nat := S (Z.to_nat (Z.log2 n)).

Definition BIP (a b : list Z) (g h : list ptr) (u P : ptr) (n : Z)
    (Ls Rs : list ptr) : M (proofBip * error) :=
  BIP_fuel (BIP_depth n) a b g h u P n Ls Rs.

Definition err_ip_size : string :=
  "Size of first array argument must be equal to the second".

(** Prove is responsible for the generation of the Inner Product Proof. *)
Definition bip_Prove (zkip : bip) (a b : list Z) (P : ptr)
  : M (bip * (proofBip * error)) :=
  '(x, _) <- HashIP (bip_g zkip) (bip_h zkip) P (bip_c zkip) (bip_n zkip) ;;
  ux <- p256_ScalarMult_new (bip_u zkip) x ;;
  uxc <- p256_ScalarMult_new ux (bip_c zkip) ;;
  _ <- p256_Multiply P P uxc ;;
  let n := Z.of_nat (length a) in
  let m := Z.of_nat (length b) in
  if negb (n =? m) then
    ret (zkip, (proofBip_zero, Some err_ip_size))
  else
    let zkip := set_bip_P zkip P in
    '(proof, err) <- BIP a b (bip_g zkip) (bip_h zkip) ux (bip_P zkip) n [] [] ;;
    ret (zkip, (proof, err)).

(** One turn of the verifier's loop: the state is the folded generators, the
    halved length and the commitment, which stays the stored point. *)
Definition bip_Verify_step (proof : proofBip) (Pprime : ptr) (i : nat)
    (st : list ptr * list ptr * Z) : M (list ptr * list ptr * Z) :=
  let '(gprime, hprime, nprime) := st in
  let nprime := Z.quot nprime 2 in
  Li <- need (pip_Ls proof !! i) ;;
  Ri <- need (pip_Rs proof !! i) ;;
  '(x, _, _) <- HashBP Li Ri ;;
  x <- need x ;;
  xinv <- need (ModInverse x ORDER) ;;
  g_lo <- need (slice_to gprime nprime) ;;
  '(ngprime, _) <- VectorScalarExp g_lo xinv ;;
  g_hi <- need (slice_from gprime nprime) ;;
  '(ngprime2, _) <- VectorScalarExp g_hi x ;;
  '(gprime, _) <- VectorECAdd ngprime ngprime2 ;;
  h_lo <- need (slice_to hprime nprime) ;;
  '(nhprime, _) <- VectorScalarExp h_lo x ;;
  h_hi <- need (slice_from hprime nprime) ;;
  '(nhprime2, _) <- VectorScalarExp h_hi xinv ;;
  '(hprime, _) <- VectorECAdd nhprime nhprime2 ;;
  let x2 := Mod (Multiply x x) ORDER in
  x2inv <- need (ModInverse x2 ORDER) ;;
  Lx <- p256_ScalarMult_new Li x2 ;;
  _ <- p256_Multiply Pprime Pprime Lx ;;
  Rx <- p256_ScalarMult_new Ri x2inv ;;
  _ <- p256_Multiply Pprime Pprime Rx ;;
  ret (gprime, hprime, nprime).

(** Verify is responsible for the verification of the Inner Product Proof.
    [Pprime] is a second name for the pointer [zkip.P]. *)
Definition bip_Verify (zkip : bip) (proof : proofBip) : M (bool * error) :=
  let logn := length (pip_Ls proof) in
  let Pprime := bip_P zkip in
  '(gprime, hprime, _) <-
    for_loop logn 0 (bip_Verify_step proof Pprime)
             (bip_g zkip, bip_h zkip, pip_n proof) ;;
  a <- need (pip_a proof) ;;
  b <- need (pip_b proof) ;;
  let ab := Multiply a b in
  let ab := Mod ab ORDER in
  g0 <- need (gprime !! 0%nat) ;;
  rhs <- p256_ScalarMult_new g0 a ;;
  h0 <- need (hprime !! 0%nat) ;;
  hb <- p256_ScalarMult_new h0 b ;;
  _ <- p256_Multiply rhs rhs hb ;;
  uab <- p256_ScalarMult_new (pip_u proof) ab ;;
  _ <- p256_Multiply rhs rhs uab ;;
  nP <- p256_Neg Pprime Pprime ;;
  _ <- p256_Multiply nP nP rhs ;;
  c <- p256_IsZero nP ;;
  ret (c, None).

(** ** The range proof: Prove and Verify *)

(** The switched generators h' of Prove and Verify: [hprime[0] = h[0]],
    then [hprime[i] = h[i]^expy] with [expy] running through the powers of
    the inverse of [y].  A nil inverse panics where it is first used. *)
Definition switch_generators (h : list ptr) (n : Z) (yinv : option Z)
  : M (list ptr) :=
  _ <- make n ;;
  _ <- (if n =? 0 then panic else ret tt) ;;
  h0 <- need (h !! 0%nat) ;;
  '(hprime, _) <- for_loop (Z.to_nat (n - 1)) 1 (fun i '(hprime, expy) =>
                    hi <- need (h !! i) ;;
                    e <- need expy ;;
                    hpi <- p256_ScalarMult_new hi e ;;
                    yi <- need yinv ;;
                    ret (hprime ++ [hpi], Some (Multiply e yi)))
                    ([h0], yinv) ;;
  ret hprime.

(** Prove computes the ZK proof. *)
Definition bp_Prove (zkrp : bp) (secret : Z) : M (bp * (proofBP * error)) :=
  let n := bp_n zkrp in
  (* First phase *)
  gamma <- rand_Int ORDER ;;
  '(V, _) <- CommitG1 secret gamma (bp_H zkrp) ;;
  '(aL, _) <- need (Decompose secret 2 n) ;;
  let '(aR, _) := ComputeAR aL in
  alpha <- rand_Int ORDER ;;
  '(A, _) <- CommitVector aL aR alpha (bp_G zkrp) (bp_H zkrp)
               (bp_g zkrp) (bp_h zkrp) n ;;
  rho <- rand_Int ORDER ;;
  _ <- make n ;;
  _ <- make n ;;
  '(sL, sR) <- for_loop (Z.to_nat n) 0 (fun i '(sL, sR) =>
                 sLi <- rand_Int ORDER ;;
                 sRi <- rand_Int ORDER ;;
                 ret (sL ++ [sLi], sR ++ [sRi])) ([], []) ;;
  '(S', _) <- CommitVectorBig sL sR rho (bp_G zkrp) (bp_H zkrp)
               (bp_g zkrp) (bp_h zkrp) n ;;
  '(y, z, _) <- HashBP A S' ;;
  (* Second phase *)
  tau1 <- rand_Int ORDER ;;
  tau2 <- rand_Int ORDER ;;
  z <- need z ;;
  '(vz, _) <- need (VectorCopy z n) ;;
  y <- need y ;;
  '(vy, _) <- need (PowerOf y n) ;;
  '(naL, _) <- need (VectorConvertToBig aL n) ;;
  let '(aLmvz, _) := VectorSub naL vz in
  let '(ynsR, _) := VectorMul vy sR in
  let '(sp1, _) := ScalarProduct aLmvz ynsR in
  '(naR, _) <- need (VectorConvertToBig aR n) ;;
  let '(aRzn, _) := VectorAdd naR vz in
  let '(ynaRzn, _) := VectorMul vy aRzn in
  '(p2n, _) <- need (PowerOf 2 n) ;;
  let zsquared := Multiply z z in
  let '(z22n, _) := VectorScalarMul p2n zsquared in
  let '(ynaRzn, _) := VectorAdd ynaRzn z22n in
  let '(sp2, _) := ScalarProduct sL ynaRzn in
  sp1 <- need sp1 ;;
  sp2 <- need sp2 ;;
  let t1 := Add sp1 sp2 in
  let t1 := Mod t1 ORDER in
  let '(t2, _) := ScalarProduct sL ynsR in
  t2 <- need t2 ;;
  let t2 := Mod t2 ORDER in
  '(T1, _) <- CommitG1 t1 tau1 (bp_H zkrp) ;;
  '(T2, _) <- CommitG1 t2 tau2 (bp_H zkrp) ;;
  '(x, _, _) <- HashBP T1 T2 ;;
  (* Third phase *)
  x <- need x ;;
  let '(sLx, _) := VectorScalarMul sL x in
  let '(bl, _) := VectorAdd aLmvz sLx in
  let '(sRx, _) := VectorScalarMul sR x in
  let '(aRzn, _) := VectorAdd aRzn sRx in
  let '(ynaRzn, _) := VectorMul vy aRzn in
  let '(br, _) := VectorAdd ynaRzn z22n in
  let '(tprime, _) := ScalarProduct bl br in
  let taux := Multiply tau2 (Multiply x x) in
  let taux := Add taux (Multiply tau1 x) in
  let taux := Add taux (Multiply (Multiply z z) gamma) in
  let taux := Mod taux ORDER in
  let mu := Multiply rho x in
  let mu := Add mu alpha in
  let mu := Mod mu ORDER in
  let yinv := ModInverse y ORDER in
  hprime <- switch_generators (bp_h zkrp) n yinv ;;
  (* Update Inner Product Proof Setup; a nil tprime panics in the scalar
     multiplication by zkip.c at the start of the inner product proof *)
  tprime <- need tprime ;;
  let zkip := set_bip_h_c (bp_zkip zkrp) hprime tprime in
  '(commit, _) <- CommitInnerProduct (bp_g zkrp) hprime bl br ;;
  '(zkip, (proofip, _)) <- bip_Prove zkip bl br commit ;;
  ret (set_bp_zkip zkrp zkip,
       (mkProofBP V A S' T1 T2 taux mu tprime proofip, None)).

(** Verify returns true if and only if the proof is valid. *)
Definition bp_Verify (zkrp : bp) (proof : proofBP) : M (bool * error) :=
  let n := bp_n zkrp in
  '(y, z, _) <- HashBP (pbp_A proof) (pbp_S proof) ;;
  '(x, _, _) <- HashBP (pbp_T1 proof) (pbp_T2 proof) ;;
  y <- need y ;;
  let yinv := ModInverse y ORDER in
  hprime <- switch_generators (bp_h zkrp) n yinv ;;
  (* Condition (65) *)
  '(lhs, _) <- CommitG1 (pbp_tprime proof) (pbp_taux proof) (bp_H zkrp) ;;
  z <- need z ;;
  let z2 := Multiply z z in
  let z2 := Mod z2 ORDER in
  x <- need x ;;
  let x2 := Multiply x x in
  let x2 := Mod x2 ORDER in
  rhs <- p256_ScalarMult_new (pbp_V proof) z2 ;;
  '(delta, _) <- need (bp_Delta zkrp y z) ;;
  gdelta <- p256_ScalarBaseMult_new delta ;;
  _ <- p256_Multiply rhs rhs gdelta ;;
  T1x <- p256_ScalarMult_new (pbp_T1 proof) x ;;
  T2x2 <- p256_ScalarMult_new (pbp_T2 proof) x2 ;;
  _ <- p256_Multiply rhs rhs T1x ;;
  _ <- p256_Multiply rhs rhs T2x2 ;;
  _ <- p256_Neg lhs lhs ;;
  _ <- p256_Multiply rhs rhs lhs ;;
  c65 <- p256_IsZero rhs ;;
  (* Verify Inner Product Proof *)
  '(ok, _) <- bip_Verify (bp_zkip zkrp) (pbp_proofip proof) ;;
  let result := c65 && ok in
  ret (result, None).

(** ** Values against which the helpers are compared *)

(** What [CommitVector] and [CommitVectorBig] multiply up: from H^alpha, the
    factors g[i]^aL[i] and h[i]^aR[i] of every index in turn. *)
Definition commit_step (acc : point) (t : point * Z * (point * Z)) : point :=
  pt_Multiply (pt_Multiply acc (pt_ScalarMult t.1.1 t.1.2))
              (pt_ScalarMult t.2.1 t.2.2).

Definition commit_value (Hv : point) (alpha : Z) (gv hv : list point)
    (aL aR : list Z) (n : nat) : point :=
  fold_left commit_step (take n (zip (zip gv aL) (zip hv aR)))
            (pt_ScalarMult Hv alpha).

(** A run of [m] that returns has read [k] integers of the random tape. *)
Definition reads {A} (k : nat) (m : M A) : Prop :=
  forall s r s', m s = Ret r s' -> rand_pos s' = (rand_pos s + k)%nat.

(** The points behind the switched generators: h[0] as it is, and h[i] to
    the i-th power of the inverse of y, the power taken over the integers. *)
Definition switch_values (hv : list point) (yinv : Z) : list point :=
  imap (fun i v => match i with
                   | O => v
                   | S _ => pt_ScalarMult v (yinv ^ Z.of_nat i)
                   end) hv.

(** A store in which no point but the one behind [P] has changed. *)
Definition frame (P : ptr) (s s' : state) : Prop :=
  forall q v, points_to s q v -> q <> P -> points_to s' q v.

(** The inner product argument on values, for vectors of length 2^d: the
    points (L, R) of every round, in order, and the two scalars that are
    left when the vectors have length one. *)
Fixpoint ipa_rounds (d : nat) (a b : list Z) (gv hv : list point)
    (uv : point) : list (point * point) :=
  match d with
  | O => []
  | S d' =>
      let k := (2 ^ d')%nat in
      let Lv := round_L a b gv hv uv k in
      let Rv := round_R a b gv hv uv k in
      let x := hash_scalar Lv Rv in
      let xinv := Z.invmod x ORDER in
      (Lv, Rv) :: ipa_rounds d' (fold_scalars a k x xinv)
                    (fold_scalars b k xinv x) (fold_points gv k xinv x)
                    (fold_points hv k x xinv) uv
  end.

Fixpoint ipa_scalars (d : nat) (a b : list Z) (gv hv : list point)
    (uv : point) : list Z * list Z :=
  match d with
  | O => (a, b)
  | S d' =>
      let k := (2 ^ d')%nat in
      let Lv := round_L a b gv hv uv k in
      let Rv := round_R a b gv hv uv k in
      let x := hash_scalar Lv Rv in
      let xinv := Z.invmod x ORDER in
      ipa_scalars d' (fold_scalars a k x xinv) (fold_scalars b k xinv x)
                  (fold_points gv k xinv x) (fold_points hv k x xinv) uv
  end.

(** One turn of the verifier's loop on values: the generators folded with
    the challenge of (L, R), and the commitment multiplied by L^(x²) and
    R^(x⁻²). *)
Definition ver_step (st : list point * list point * point)
    (LR : point * point) : list point * list point * point :=
  let '(gv, hv, Pv) := st in
  let k := (length gv / 2)%nat in
  let x := hash_scalar (fst LR) (snd LR) in
  let xinv := Z.invmod x ORDER in
  let x2 := (x * x) mod ORDER in
  let x2inv := Z.invmod x2 ORDER in
  (fold_points gv k xinv x, fold_points hv k x xinv,
   pt_Multiply (pt_Multiply Pv (pt_ScalarMult (fst LR) x2))
               (pt_ScalarMult (snd LR) x2inv)).

(** The right-hand side of the verifier's last check, g^a·h^b·u^(a·b). *)
Definition ver_rhs (g0 h0 uv : point) (a0 b0 : Z) : point :=
  pt_Multiply (pt_Multiply (pt_ScalarMult g0 a0) (pt_ScalarMult h0 b0))
              (pt_ScalarMult uv ((a0 * b0) mod ORDER)).

End Bulletproofs.

Arguments Ret {C A} a s.
Arguments Panic {C A}.
Arguments Diverge {C A}.

Notation "x <- m ;; k" := (bind m (fun x => k))
  (at level 20, m at level 99, k at level 200, only parsing).
Notation "' pat <- m ;; k" := (bind m (fun x => match x with pat => k end))
  (at level 20, pat pattern, m at level 99, k at level 200, only parsing).

(** ** A stand-in for the external interface

    The properties below hold for every curve and environment; concrete runs
    are evaluated on a small group of prime order, the integers modulo 101
    under addition, with a digest whose last byte is the only one that is not
    zero and never gives a multiple of 101. *)

Definition toy_N : Z := 101.

Definition toy_String (a : Zmod toy_N) : string :=
  ("(" ++ pretty (Zmod.unsigned a) ++ ",0)")%string.

Definition byte_of_Z (z : Z) : Byte.byte :=
  match Byte.of_N (Z.to_N z) with Some b => b | None => Byte.x00 end.

Definition toy_mix (acc : Z) (b : Byte.byte) : Z :=
  (acc * 31 + Z.of_N (Byte.to_N b) + 7) mod 100.

Definition toy_sha256 (bs : list Byte.byte) : list Byte.byte :=
  replicate 31 Byte.x00 ++ [byte_of_Z (1 + fold_left toy_mix bs 0)].

#[local] Instance toy_curve : Curve := {|
  point := Zmod toy_N;
  CURVE_N := toy_N;
  pt_Multiply := Zmod.add;
  pt_ScalarMult := fun a k => Zmod.mul a (Zmod.of_Z toy_N k);
  pt_ScalarBaseMult := fun k => Zmod.of_Z toy_N k;
  pt_Neg := Zmod.opp;
  pt_Infinity := Zmod.zero;
  pt_IsZero := fun a => Zmod.eqb a Zmod.zero;
  pt_String := toy_String;
  pt_MapToGroup := fun seed =>
    Zmod.of_Z toy_N (be_to_Z (toy_sha256 (list_byte_of_string seed)))
|}.

#[local] Instance toy_env : Env := {|
  sha256_Sum := toy_sha256;
  rand_Reader := fun i => (Z.of_nat i + 17) * 37 + 5
|}.

(** A fresh program state and a parameter struct before [Setup]. *)
Definition toy_s0 : state := mkState [] 0.
Definition bp_zero : bp := mkBp 0 None None [] [] bip_zero.

(** The parameters of bit-width 2 and the store in which they live. *)
Definition toy_zkrp : bp :=
  mkBp 2 (Some 0%nat) (Some 1%nat) [Some 2%nat; Some 4%nat]
       [Some 3%nat; Some 5%nat]
       (mkBip 0 0 (Some 6%nat) (Some 1%nat) [Some 2%nat; Some 4%nat]
              [Some 3%nat; Some 5%nat] None).

Definition toy_s1 : state :=
  mkState (map (Zmod.of_Z toy_N) [1; 52; 28; 47; 1; 57; 65]) 4.

(** The parameters, the proof and the store after [Prove] of the secret 3. *)
Definition toy_proved : bp * proofBP * state :=
  Eval vm_compute in
    match bp_Prove toy_zkrp 3 toy_s1 with
    | Ret (zkrp, (proof, _)) s => (zkrp, proof, s)
    | _ => (toy_zkrp, mkProofBP None None None None None 0 0 0 proofBip_zero,
            toy_s1)
    end.

Definition toy_zkrp2 : bp := fst (fst toy_proved).
Definition toy_proof : proofBP := snd (fst toy_proved).
Definition toy_s2 : state := snd toy_proved.

(** The store after a first [Verify] of that proof. *)
Definition toy_s3 : state :=
  Eval vm_compute in
    match bp_Verify toy_zkrp2 toy_proof toy_s2 with
    | Ret _ s => s
    | _ => toy_s2
    end.

(** The store after a second [Verify] of that proof. *)
Definition toy_s4 : state :=
  Eval vm_compute in
    match bp_Verify toy_zkrp2 toy_proof toy_s3 with
    | Ret _ s => s
    | _ => toy_s3
    end.

(** The parameters that [Setup] makes for the upper bound 3. *)
Definition toy_setup3 : bp * state :=
  Eval vm_compute in
    match bp_Setup bp_zero 0 3 toy_s0 with
    | Ret zkrp s => (zkrp, s)
    | _ => (bp_zero, toy_s0)
    end.

(** Parameters of bit-width 3, from [Setup] for the upper bound 8, with a
    commitment to two vectors of length 3. *)
Definition toy_setup8 : bp * ptr * state :=
  Eval vm_compute in
    match (zkrp <- bp_Setup bp_zero 0 8 ;;
           '(commit, _) <- CommitInnerProduct (bp_g zkrp) (bp_h zkrp)
                             [3; 4; 5] [5; 6; 7] ;;
           ret (zkrp, commit)) toy_s0 with
    | Ret r s => (r, s)
    | _ => (bp_zero, None, toy_s0)
    end.

(** Inner product parameters with the claim c = 5 and a stored point. *)
Definition toy_zkip5 : bip :=
  mkBip 0 5 (Some 6%nat) (Some 1%nat) [Some 2%nat; Some 4%nat]
        [Some 3%nat; Some 5%nat] (Some 1%nat).

(** The store after the inner product [Prove] on vectors of lengths 2 and 1,
    with the caller's point at location 0. *)
Definition toy_s5 : state :=
  Eval vm_compute in
    match bip_Prove toy_zkip5 [3; 4] [5] (Some 0%nat) toy_s1 with
    | Ret _ s => s
    | _ => toy_s1
    end.

(** The store after the inner product [Verify] of the proof inside
    [toy_proof], run directly on the store that [Prove] left. *)
Definition toy_s6 : state :=
  Eval vm_compute in
    match bip_Verify (bp_zkip toy_zkrp2) (pbp_proofip toy_proof) toy_s2 with
    | Ret _ s => s
    | _ => toy_s2
    end.

(** The store after [CommitInnerProduct] of the vectors [3; 4] and [5; 6]
    on the generators of [toy_zkrp] (the commitment is at location 13),
    inner product parameters whose [c] is the inner product 39 of the two
    vectors, and the proof and the store that [Prove] leaves for them. *)
Definition toy_s7 : state :=
  mkState (map (Zmod.of_Z toy_N)
               [1; 52; 28; 47; 1; 57; 65; 88; 84; 4; 72; 33; 39; 59]) 4.

Definition toy_zkip39 : bip :=
  mkBip 0 39 (Some 6%nat) (Some 1%nat) [Some 2%nat; Some 4%nat]
        [Some 3%nat; Some 5%nat] None.

Definition toy_ipproof : proofBip :=
  mkProofBip [Some 16%nat] [Some 21%nat] (Some 14%nat) (Some 32%nat)
             (Some 28%nat) (Some 31%nat) (Some 75) (Some 36) 2.

Definition toy_s8 : state :=
  mkState (map (Zmod.of_Z toy_N)
               [1; 52; 28; 47; 1; 57; 65; 88; 84; 4; 72; 33; 39; 38; 15; 80;
                50; 3; 80; 80; 68; 91; 11; 83; 83; 98; 54; 8; 62; 73; 45; 17;
                9; 3]) 4.




(** * Properties *)

Section Scalars.

Context {C : Curve}.

Lemma powers_from_lookup (n i : nat) (c x : Z) :
  (i < n)%nat -> powers_from c x n !! i = Some (c * x ^ Z.of_nat i).
Proof.
  revert i c. induction n as [|n IH]; intros i c Hi; [lia|].
  destruct i as [|i]; simpl.
  - f_equal. lia.
  - rewrite IH by lia. f_equal.
    replace (Z.of_nat (S i)) with (Z.succ (Z.of_nat i)) by lia.
    rewrite Z.pow_succ_r by lia. ring.
Qed.

Lemma powers_lookup (n i : nat) (x : Z) :
  (i < n)%nat -> powers x n !! i = Some (x ^ Z.of_nat i).
Proof.
  intros Hi. unfold powers. rewrite powers_from_lookup by done.
  f_equal. ring.
Qed.

Lemma PowerOf_loop_length (k : nat) (c x : Z) :
  length (PowerOf_loop k c x) = k.
Proof. revert c. induction k; intros c; simpl; [done | by rewrite IHk]. Qed.

Lemma powers_from_length (k : nat) (c x : Z) : length (powers_from c x k) = k.
Proof. revert c. induction k; intros c; simpl; [done | by rewrite IHk]. Qed.

Lemma PowerOf_loop_cong (k : nat) (c c' x : Z) :
  cong c c' -> Forall2 cong (PowerOf_loop k c x) (powers_from c' x k).
Proof.
  revert c c'. induction k as [|k IH]; intros c c' Hc; simpl; constructor.
  - exact Hc.
  - apply IH. unfold cong, Mod, Multiply in *.
    rewrite Zmod_mod.
    by rewrite <- (Zmult_mod_idemp_l c), <- (Zmult_mod_idemp_l c'), Hc.
Qed.

Lemma inner_product_cong (a b b' : list Z) :
  Forall2 cong b b' -> cong (inner_product a b) (inner_product a b').
Proof.
  intros Hb. revert a. induction Hb as [|y y' b b' Hy _ IH]; intros a.
  - by destruct a.
  - destruct a as [|x a]; [done|]. simpl. unfold cong in *.
    rewrite Zplus_mod, (Zplus_mod (x * y')), (IH a).
    by rewrite <- (Zmult_mod_idemp_r y), <- (Zmult_mod_idemp_r y'), Hy.
Qed.

Lemma ScalarProduct_fold_cong (a b : list Z) (r : Z) :
  cong (fold_left ScalarProduct_step (zip a b) r) (r + inner_product a b).
Proof.
  revert b r. induction a as [|x a IH]; intros b r.
  - simpl. unfold cong. f_equal. lia.
  - destruct b as [|y b]; simpl.
    + unfold cong. f_equal. lia.
    + unfold cong in *. rewrite IH.
      unfold ScalarProduct_step, Mod, Add, Multiply. simpl.
      rewrite Zplus_mod_idemp_l. f_equal. lia.
Qed.

Lemma ScalarProduct_fold_range (l : list (Z * Z)) (r : Z) :
  0 < ORDER -> 0 <= r < ORDER ->
  0 <= fold_left ScalarProduct_step l r < ORDER.
Proof.
  intros Hq. revert r. induction l as [|xy l IH]; intros r Hr; [done|].
  simpl. apply IH. unfold ScalarProduct_step, Mod.
  by apply Z.mod_pos_bound.
Qed.

(** On vectors of one length [ScalarProduct] is the inner product, reduced. *)
Lemma ScalarProduct_inner (a b : list Z) :
  0 < ORDER -> length a = length b ->
  ScalarProduct a b = (Some (inner_product a b mod ORDER), None).
Proof.
  intros Hq Hlen. unfold ScalarProduct.
  destruct (decide (length a = length b)); [|done].
  do 2 f_equal.
  rewrite <- (Z.mod_small (fold_left _ _ _) ORDER)
    by (apply ScalarProduct_fold_range; lia).
  apply (ScalarProduct_fold_cong a b 0).
Qed.

Lemma ScalarProduct_mismatch (a b : list Z) :
  length a <> length b -> ScalarProduct a b = (None, Some err_size).
Proof.
  intros Hlen. unfold ScalarProduct.
  by destruct (decide (length a = length b)).
Qed.

Lemma cong_mod (u : Z) : cong (u mod ORDER) u.
Proof. unfold cong. apply Zmod_mod. Qed.

Lemma cong_refl (u : Z) : cong u u.
Proof. done. Qed.

Lemma cong_trans (u v w : Z) : cong u v -> cong v w -> cong u w.
Proof. unfold cong. congruence. Qed.

Lemma cong_sub (u u' v v' : Z) : cong u u' -> cong v v' -> cong (u - v) (u' - v').
Proof. unfold cong. intros Hu Hv. by rewrite Zminus_mod, Hu, Hv, <- Zminus_mod. Qed.

Lemma cong_mul (u u' v v' : Z) : cong u u' -> cong v v' -> cong (u * v) (u' * v').
Proof. unfold cong. intros Hu Hv. by rewrite Zmult_mod, Hu, Hv, <- Zmult_mod. Qed.

End Scalars.

Section DeltaProperties.

Context {C : Curve}.

(** C8.  For every pair of scalars y, z and every bit-width n >= 0, [Delta]
    returns (z − z²)·⟨1ⁿ, yⁿ⟩ − z³·⟨1ⁿ, 2ⁿ⟩ reduced modulo the group order,
    with a nil error; the result lies in [0, q). *)
Theorem bp_Delta_formula (zkrp : bp) (y z : Z) :
  0 < ORDER -> 0 <= bp_n zkrp ->
  bp_Delta zkrp y z = Some (delta_spec (Z.to_nat (bp_n zkrp)) y z, None)
  /\ 0 <= delta_spec (Z.to_nat (bp_n zkrp)) y z < ORDER.
Proof.
  intros Hq Hn. split; [|by apply Z.mod_pos_bound].
  unfold bp_Delta, VectorCopy, PowerOf.
  destruct (bp_n zkrp <? 0) eqn:Hneg; [lia|]. simpl.
  set (n := Z.to_nat (bp_n zkrp)).
  rewrite !ScalarProduct_inner
    by (done || by rewrite length_replicate, PowerOf_loop_length).
  simpl. do 2 f_equal. unfold delta_spec, Sub, Multiply, Mod.
  fold (ones n). apply cong_sub; apply cong_mul.
  - apply cong_sub; [done|]. eapply cong_trans; [apply cong_mod|].
    unfold cong. f_equal. lia.
  - eapply cong_trans; [apply cong_mod|].
    apply inner_product_cong, PowerOf_loop_cong. done.
  - eapply cong_trans; [apply cong_mod|].
    replace (z ^ 3) with (z ^ 2 * z) by lia.
    apply cong_mul; [|done]. eapply cong_trans; [apply cong_mod|].
    unfold cong. f_equal. lia.
  - eapply cong_trans; [apply cong_mod|].
    apply inner_product_cong, PowerOf_loop_cong. done.
Qed.

End DeltaProperties.

Section VectorProperties.

Context {C : Curve}.

Lemma zip_with_sub_add (a b : list Z) :
  length a = length b ->
  zip_with (fun x y => Mod (Sub x y) ORDER)
           (zip_with (fun x y => Mod (Add x y) ORDER) a b) b
  = map (fun x => x mod ORDER) a.
Proof.
  revert b. induction a as [|x a IH]; intros [|y b] Hlen; try done.
  simpl. f_equal; [|apply IH; simpl in Hlen; lia].
  unfold Mod, Sub, Add. rewrite Zminus_mod_idemp_l. f_equal. lia.
Qed.

Lemma zip_with_reduced (f : Z -> Z -> Z) (a b : list Z) :
  0 < ORDER ->
  Forall (fun x => 0 <= x < ORDER) (zip_with (fun x y => Mod (f x y) ORDER) a b).
Proof.
  intros Hq. revert b. induction a as [|x a IH]; intros [|y b]; simpl;
    constructor; [by apply Z.mod_pos_bound | apply IH].
Qed.

(** [VectorSub] undoes [VectorAdd]: on vectors of one length, adding [b] and
    subtracting it again gives back [a], reduced modulo the group order; the
    sum has the length of [a] and its entries lie in [0, q). *)
Theorem VectorSub_undoes_VectorAdd (a b : list Z) :
  0 < ORDER -> length a = length b ->
  exists c, VectorAdd a b = (c, None) /\ length c = length a /\
            Forall (fun x => 0 <= x < ORDER) c /\
            VectorSub c b = (map (fun x => x mod ORDER) a, None).
Proof.
  intros Hq Hlen. unfold VectorAdd.
  destruct (decide (length a = length b)); [|done].
  eexists. split; [done|].
  assert (length (zip_with (fun x y => Mod (Add x y) ORDER) a b) = length a)
    as Hlc by (rewrite length_zip_with; lia).
  split; [done|]. split; [by apply zip_with_reduced|].
  unfold VectorSub. rewrite Hlc.
  destruct (decide (length a = length b)); [|done].
  by rewrite zip_with_sub_add.
Qed.

Lemma inner_product_comm (a b : list Z) :
  inner_product a b = inner_product b a.
Proof.
  revert b. induction a as [|x a IH]; intros [|y b]; simpl; try done.
  rewrite IH. lia.
Qed.

(** [ScalarProduct] is the inner product modulo the group order: on vectors
    of one length it returns ⟨a, b⟩ mod q, a scalar in [0, q), and the same
    scalar for ⟨b, a⟩. *)
Theorem ScalarProduct_inner_product (a b : list Z) :
  0 < ORDER -> length a = length b ->
  ScalarProduct a b = (Some (inner_product a b mod ORDER), None) /\
  ScalarProduct b a = ScalarProduct a b /\
  0 <= inner_product a b mod ORDER < ORDER.
Proof.
  intros Hq Hlen. rewrite !ScalarProduct_inner by done.
  split; [done|]. split; [by rewrite inner_product_comm|].
  by apply Z.mod_pos_bound.
Qed.

Lemma inner_product_scale (a b : list Z) (k : Z) :
  cong (inner_product (map (fun x => Mod (Multiply x k) ORDER) a) b)
       (k * inner_product a b).
Proof.
  revert b. induction a as [|x a IH]; intros [|y b]; simpl;
    try (unfold cong; f_equal; lia).
  unfold cong in *. rewrite Zplus_mod, IH. unfold Mod, Multiply.
  rewrite Zmult_mod_idemp_l, <- Zplus_mod. f_equal. lia.
Qed.

Lemma inner_product_add (a a' b : list Z) :
  length a = length a' ->
  cong (inner_product (zip_with (fun x y => Mod (Add x y) ORDER) a a') b)
       (inner_product a b + inner_product a' b).
Proof.
  revert a' b. induction a as [|x a IH]; intros [|x' a'] [|y b] Hlen; simpl;
    try done.
  unfold cong in *. rewrite Zplus_mod, IH by (simpl in Hlen; lia).
  unfold Mod, Add. rewrite Zmult_mod_idemp_l, <- Zplus_mod. f_equal. lia.
Qed.

(** [ScalarProduct] is linear in its first argument over [VectorScalarMul]
    and [VectorAdd]: ⟨k·a, b⟩ = k·⟨a, b⟩ and ⟨a + a', b⟩ = ⟨a, b⟩ + ⟨a', b⟩,
    modulo the group order. *)
Theorem ScalarProduct_linear (a a' b : list Z) (k : Z) :
  0 < ORDER -> length a = length b -> length a' = length b ->
  ScalarProduct (fst (VectorScalarMul a k)) b
  = (Some ((k * inner_product a b) mod ORDER), None) /\
  ScalarProduct (fst (VectorAdd a a')) b
  = (Some ((inner_product a b + inner_product a' b) mod ORDER), None).
Proof.
  intros Hq Hla Hla'. split.
  - unfold VectorScalarMul. simpl.
    rewrite ScalarProduct_inner by (done || by rewrite length_map).
    do 2 f_equal. apply inner_product_scale.
  - unfold VectorAdd. destruct (decide (length a = length a')); [|lia]. simpl.
    rewrite ScalarProduct_inner by (done || (rewrite length_zip_with; lia)).
    do 2 f_equal. by apply inner_product_add.
Qed.

Lemma zip_with_mul_add (a b c : list Z) :
  length b = length c ->
  zip_with (fun x y => Mod (Multiply x y) ORDER) a
           (zip_with (fun x y => Mod (Add x y) ORDER) b c)
  = zip_with (fun x y => Mod (Add x y) ORDER)
      (zip_with (fun x y => Mod (Multiply x y) ORDER) a b)
      (zip_with (fun x y => Mod (Multiply x y) ORDER) a c).
Proof.
  revert b c. induction a as [|x a IH]; intros [|y b] [|z c] Hlen; try done.
  simpl. f_equal; [|apply IH; simpl in Hlen; lia].
  unfold Mod, Multiply, Add.
  rewrite Zmult_mod_idemp_r, <- Zplus_mod. f_equal. lia.
Qed.

(** [VectorMul] distributes over [VectorAdd], entry by entry and as reduced
    vectors; it is commutative. *)
Theorem VectorMul_distributes (a b c : list Z) :
  length a = length b -> length b = length c ->
  VectorMul a (fst (VectorAdd b c))
  = VectorAdd (fst (VectorMul a b)) (fst (VectorMul a c)) /\
  VectorMul a b = VectorMul b a.
Proof.
  intros Hab Hbc. split.
  - unfold VectorAdd at 1. destruct (decide (length b = length c)); [|done].
    unfold VectorMul. simpl. rewrite length_zip_with.
    destruct (decide (length a = length b)); [|done].
    destruct (decide (length a = length c)); [|lia].
    destruct (decide (length a = length b `min` length c)%nat); [|lia].
    simpl. unfold VectorAdd. rewrite !length_zip_with.
    destruct (decide _); [|lia].
    by rewrite zip_with_mul_add.
  - unfold VectorMul.
    destruct (decide (length a = length b)); [|done].
    destruct (decide (length b = length a)); [|done].
    f_equal. clear. revert b. induction a as [|x a IH]; intros [|y b]; try done.
    simpl. f_equal; [|apply IH]. unfold Multiply. f_equal. lia.
Qed.

Lemma PowerOf_loop_lookup (k i : nat) (c x : Z) :
  (i < k)%nat ->
  PowerOf_loop k c x !! i
  = Some (match i with O => c | S _ => (c * x ^ Z.of_nat i) mod ORDER end).
Proof.
  revert i c. induction k as [|k IH]; intros i c Hi; [lia|].
  destruct i as [|i]; [done|]. simpl PowerOf_loop.
  change ((c :: ?l) !! S i) with (l !! i). rewrite IH by lia. f_equal.
  unfold Mod, Multiply. destruct i as [|i].
  - f_equal. lia.
  - rewrite Zmult_mod_idemp_l. f_equal.
    replace (Z.of_nat (S (S i))) with (Z.succ (Z.of_nat (S i))) by lia.
    rewrite Z.pow_succ_r by lia. ring.
Qed.

(** [PowerOf] returns the vector (1, x, x², …, x^(n−1)) of length n, every
    power reduced modulo the group order, and no error; a negative n is a
    run-time panic. *)
Theorem PowerOf_powers (x n : Z) :
  1 < ORDER ->
  (0 <= n ->
     exists v, PowerOf x n = Some (v, None) /\ length v = Z.to_nat n /\
       forall i : nat, (i < Z.to_nat n)%nat ->
                       v !! i = Some (x ^ Z.of_nat i mod ORDER))
  /\ (n < 0 -> PowerOf x n = None).
Proof.
  intros Hq. unfold PowerOf. split.
  - intros Hn. destruct (n <? 0) eqn:?; [lia|]. eexists. split; [done|].
    split; [apply PowerOf_loop_length|].
    intros i Hi. rewrite PowerOf_loop_lookup by done.
    destruct i as [|i]; f_equal.
    + simpl. by rewrite Z.mod_small by lia.
    + f_equal. lia.
  - intros Hn. by destruct (n <? 0) eqn:?; [|lia].
Qed.

Lemma ComputeAR_loop_binary (x : list Z) :
  Forall (fun v => v = 0 \/ v = 1) x ->
  ComputeAR_loop x = Some (map (fun v => v - 1) x).
Proof.
  induction 1 as [|v x [-> | ->] _ IH]; simpl; [done|..]; by rewrite IH.
Qed.

Lemma ComputeAR_loop_not_binary (x : list Z) :
  ~ Forall (fun v => v = 0 \/ v = 1) x -> ComputeAR_loop x = None.
Proof.
  induction x as [|v x IH]; intros Hn; simpl.
  - destruct Hn. constructor.
  - destruct (v =? 0) eqn:H0.
    + rewrite IH; [done|]. intros H. apply Hn. constructor; [lia|done].
    + destruct (v =? 1) eqn:H1; [|done].
      rewrite IH; [done|]. intros H. apply Hn. constructor; [lia|done].
Qed.

(** [ComputeAR] maps a vector of bits aL to aR = aL − 1ⁿ, of the same
    length, so that aL[i]·aR[i] = 0 at every index; on a vector with an
    entry other than 0 and 1 it returns a nil result and the error. *)
Theorem ComputeAR_bits (x : list Z) :
  (Forall (fun v => v = 0 \/ v = 1) x ->
     ComputeAR x = (map (fun v => v - 1) x, None) /\
     length (fst (ComputeAR x)) = length x /\
     Forall (fun v => v = 0) (zip_with Z.mul x (fst (ComputeAR x))))
  /\ (~ Forall (fun v => v = 0 \/ v = 1) x ->
        ComputeAR x
        = ([], Some "input contains non-binary element"%string)).
Proof.
  unfold ComputeAR. split.
  - intros Hbin. rewrite (ComputeAR_loop_binary _ Hbin). simpl.
    split; [done|]. split; [by rewrite length_map|].
    induction Hbin as [|v x [-> | ->] _ IH]; simpl; constructor; done.
  - intros Hn. by rewrite (ComputeAR_loop_not_binary _ Hn).
Qed.

End VectorProperties.

Section Framework.

Context {C : Curve} {E : Env}.

Lemma bind_Ret {A B} (m : M A) (k : A -> M B) s a s1 :
  m s = Ret a s1 -> bind m k s = k a s1.
Proof. intros H. unfold bind. by rewrite H. Qed.

Lemma bind_Ret_inv {A B} (m : M A) (k : A -> M B) s b s' :
  bind m k s = Ret b s' -> exists a s1, m s = Ret a s1 /\ k a s1 = Ret b s'.
Proof. unfold bind. destruct (m s) as [a s1| |]; [eauto|done|done]. Qed.

Lemma ret_Ret_inv {A} (a b : A) s s' : ret a s = Ret b s' -> a = b /\ s = s'.
Proof. unfold ret. by intros [= -> ->]. Qed.

Lemma need_Ret_inv {A} (o : option A) a s s' :
  need o s = Ret a s' -> o = Some a /\ s' = s.
Proof. destruct o; simpl; [|done]. unfold ret. by intros [= -> ->]. Qed.

Lemma load_Ret_inv p v s s' :
  load p s = Ret v s' -> points_to s p v /\ s' = s.
Proof.
  unfold load, points_to. destruct p as [l|]; [|done].
  destruct (heap s !! l) eqn:Hl; [|done]. intros [= -> ->]. eauto.
Qed.

Lemma load_run p v s : points_to s p v -> load p s = Ret v s.
Proof. intros (l & -> & Hl). unfold load. by rewrite Hl. Qed.


Lemma points_to_wf s p v : points_to s p v -> wf_ptr s p.
Proof. intros (l & -> & Hl). simpl. by eapply lookup_lt_Some. Qed.

Lemma preserved_refl s : preserved s s.
Proof. by split. Qed.

Lemma preserved_trans s1 s2 s3 :
  preserved s1 s2 -> preserved s2 s3 -> preserved s1 s3.
Proof.
  intros [Hl1 H1] [Hl2 H2]. split; [lia|].
  intros l Hl. rewrite H2 by lia. by apply H1.
Qed.

Lemma points_to_preserved s s' p v :
  preserved s s' -> points_to s p v -> points_to s' p v.
Proof.
  intros [_ H] (l & -> & Hl). exists l. split; [done|].
  rewrite H; [done|]. by eapply lookup_lt_Some.
Qed.


Lemma p256_String_run p v s :
  points_to s p v -> p256_String p s = Ret (pt_String v) s.
Proof. intros Hp. unfold p256_String. by rewrite (bind_Ret _ _ _ _ _ (load_run _ _ _ Hp)). Qed.

Lemma HashBP_run A S s vA vS :
  points_to s A vA -> points_to s S vS ->
  HashBP A S s
  = Ret (Some (hash_scalar vA vS), Some (hash_scalar vS vA), None) s.
Proof.
  intros HA HS. unfold HashBP.
  rewrite (bind_Ret _ _ _ _ _ (p256_String_run _ _ _ HA)).
  by rewrite (bind_Ret _ _ _ _ _ (p256_String_run _ _ _ HS)).
Qed.

Lemma HashBP_Ret_inv A S s r s' :
  HashBP A S s = Ret r s' ->
  exists vA vS, points_to s A vA /\ points_to s S vS /\ s' = s /\
    r = (Some (hash_scalar vA vS), Some (hash_scalar vS vA), None).
Proof.
  unfold HashBP, p256_String. intros H.
  apply bind_Ret_inv in H as (sA & s1 & H1 & H).
  apply bind_Ret_inv in H1 as (vA & s1' & HA & H1).
  apply load_Ret_inv in HA as [HA ->]. apply ret_Ret_inv in H1 as [<- <-].
  apply bind_Ret_inv in H as (sS & s2 & H2 & H).
  apply bind_Ret_inv in H2 as (vS & s2' & HS & H2).
  apply load_Ret_inv in HS as [HS ->]. apply ret_Ret_inv in H2 as [<- <-].
  simpl in H. apply ret_Ret_inv in H as [<- <-]. by exists vA, vS.
Qed.

(** *** Runs that return *)

Lemma wp_run {A} (m : M A) s Q :
  wp m s Q -> exists a s', m s = Ret a s' /\ Q a s'.
Proof. unfold wp. destruct (m s) as [a s'| |]; [eauto|done|done]. Qed.

Lemma run_wp {A} (m : M A) s a s' (Q : A -> state -> Prop) :
  m s = Ret a s' -> Q a s' -> wp m s Q.
Proof. unfold wp. by intros ->. Qed.

Lemma wp_mono {A} (m : M A) s (Q Q' : A -> state -> Prop) :
  wp m s Q -> (forall a s', Q a s' -> Q' a s') -> wp m s Q'.
Proof. unfold wp. destruct (m s); [eauto|done|done]. Qed.

Lemma wp_ret {A} (a : A) s (Q : A -> state -> Prop) : Q a s -> wp (ret a) s Q.
Proof. done. Qed.

Lemma wp_bind {A B} (m : M A) (k : A -> M B) s Q :
  wp m s (fun a s1 => wp (k a) s1 Q) -> wp (bind m k) s Q.
Proof. unfold wp, bind. by destruct (m s). Qed.

Lemma wp_need {A} (o : option A) a s (Q : A -> state -> Prop) :
  o = Some a -> Q a s -> wp (need o) s Q.
Proof. by intros ->. Qed.

Lemma wp_make n s (Q : unit -> state -> Prop) :
  0 <= n -> Q tt s -> wp (make n) s Q.
Proof. intros Hn HQ. unfold make. by destruct (n <? 0) eqn:?; [lia|]. Qed.

Lemma wp_rand_Int max s (Q : Z -> state -> Prop) :
  0 < max ->
  (forall r s', 0 <= r < max -> heap s' = heap s -> Q r s') ->
  wp (rand_Int max) s Q.
Proof.
  intros Hmax HQ. unfold wp, rand_Int. destruct (max <=? 0) eqn:?; [lia|].
  apply HQ; [by apply Z.mod_pos_bound | done].
Qed.

(** A loop whose body keeps an invariant returns, in the invariant. *)
Lemma wp_for_loop {St} (Inv : nat -> St -> state -> Prop) k i body acc s :
  Inv i acc s ->
  (forall j acc s, (i <= j < i + k)%nat -> Inv j acc s ->
                   wp (body j acc) s (Inv (S j))) ->
  wp (for_loop k i body acc) s (Inv (i + k)%nat).
Proof.
  revert i acc s. induction k as [|k IH]; intros i acc s Hinv Hbody; simpl.
  - apply wp_ret. by rewrite Nat.add_0_r.
  - apply wp_bind. eapply wp_mono; [apply Hbody; [lia|done]|].
    intros acc' s' Hinv'. simpl.
    replace (i + S k)%nat with (S i + k)%nat by lia.
    apply IH; [done|]. intros j acc'' s'' Hj. apply Hbody. lia.
Qed.

(** *** Pointers across allocations and writes *)

Lemma fresh_neq s q p v : points_to s q v -> fresh s p -> q <> p.
Proof.
  intros (l & -> & Hl) (l' & -> & Hl') [= ->].
  apply lookup_lt_Some in Hl. lia.
Qed.

Lemma fresh_preserved s0 s p : preserved s0 s -> fresh s p -> fresh s0 p.
Proof. intros [Hlen _] (l & -> & Hl). exists l. split; [done|lia]. Qed.

Ltac preserved_search n :=
  first
    [ apply preserved_refl
    | eassumption
    | lazymatch n with
      | S ?m =>
          match goal with
          | H : preserved ?a ?b |- preserved ?a ?c =>
              apply (preserved_trans a b c H); preserved_search m
          end
      end ].

Ltac preserved_chain := solve [ preserved_search 8%nat ].

Lemma Forall2_points_to_preserved s s' ps vs :
  preserved s s' -> Forall2 (points_to s) ps vs -> Forall2 (points_to s') ps vs.
Proof.
  intros Hpr H. eapply Forall2_impl; [exact H|].
  intros p v. by apply points_to_preserved.
Qed.

Lemma wp_alloc v s (Q : ptr -> state -> Prop) :
  (forall p s', preserved s s' -> fresh s p -> points_to s' p v ->
                length (heap s') = S (length (heap s)) -> Q p s') ->
  wp (alloc v) s Q.
Proof.
  intros HQ. unfold wp, alloc. apply HQ; simpl.
  - split; simpl; [rewrite length_app; lia|].
    intros l Hl. by rewrite lookup_app_l.
  - by eexists.
  - eexists. split; [done|]. simpl. by rewrite list_lookup_middle.
  - rewrite length_app. simpl. lia.
Qed.

Lemma wp_load p v s (Q : point -> state -> Prop) :
  points_to s p v -> Q v s -> wp (load p) s Q.
Proof. intros Hp HQ. unfold wp. by rewrite (load_run _ _ _ Hp). Qed.

Lemma wp_write p v w s (Q : unit -> state -> Prop) :
  points_to s p w ->
  (forall s', points_to s' p v ->
              (forall q u, points_to s q u -> q <> p -> points_to s' q u) ->
              (forall s0, preserved s0 s -> fresh s0 p -> preserved s0 s') ->
              length (heap s') = length (heap s) -> Q tt s') ->
  wp (write p v) s Q.
Proof.
  intros (l & -> & Hl) HQ. unfold wp, write. simpl.
  pose proof (lookup_lt_Some _ _ _ Hl) as Hlt.
  destruct (decide (l < length (heap s))%nat); [|done].
  apply HQ; simpl.
  - exists l. split; [done|]. simpl. by apply list_lookup_insert_eq.
  - intros q u (l' & -> & Hl') Hne. exists l'. split; [done|]. simpl.
    rewrite list_lookup_insert_ne; [done|congruence].
  - intros s0 [Hlen H0] (l' & [= <-] & Hl'). split; simpl.
    + rewrite length_insert. lia.
    + intros j Hj. rewrite list_lookup_insert_ne by lia. by apply H0.
  - by rewrite length_insert.
Qed.

Lemma wp_p256_ScalarMult_new a k va s (Q : ptr -> state -> Prop) :
  points_to s a va ->
  (forall p s', preserved s s' -> fresh s p ->
                points_to s' p (pt_ScalarMult va k) ->
                length (heap s') = S (length (heap s)) -> Q p s') ->
  wp (p256_ScalarMult_new a k) s Q.
Proof.
  intros Ha HQ. unfold p256_ScalarMult_new.
  apply wp_bind. eapply wp_load; [done|]. by apply wp_alloc.
Qed.

Lemma wp_p256_ScalarBaseMult_new k s (Q : ptr -> state -> Prop) :
  (forall p s', preserved s s' -> fresh s p ->
                points_to s' p (pt_ScalarBaseMult k) ->
                length (heap s') = S (length (heap s)) -> Q p s') ->
  wp (p256_ScalarBaseMult_new k) s Q.
Proof. apply wp_alloc. Qed.

Lemma wp_p256_Multiply_new a b va vb s (Q : ptr -> state -> Prop) :
  points_to s a va -> points_to s b vb ->
  (forall p s', preserved s s' -> fresh s p ->
                points_to s' p (pt_Multiply va vb) ->
                length (heap s') = S (length (heap s)) -> Q p s') ->
  wp (p256_Multiply_new a b) s Q.
Proof.
  intros Ha Hb HQ. unfold p256_Multiply_new.
  apply wp_bind. eapply wp_load; [done|].
  apply wp_bind. eapply wp_load; [done|]. by apply wp_alloc.
Qed.

Lemma wp_p256_Multiply p a b vp va vb s (Q : ptr -> state -> Prop) :
  points_to s p vp -> points_to s a va -> points_to s b vb ->
  (forall s', points_to s' p (pt_Multiply va vb) ->
              (forall q u, points_to s q u -> q <> p -> points_to s' q u) ->
              (forall s0, preserved s0 s -> fresh s0 p -> preserved s0 s') ->
              length (heap s') = length (heap s) -> Q p s') ->
  wp (p256_Multiply p a b) s Q.
Proof.
  intros Hp Ha Hb HQ. unfold p256_Multiply.
  apply wp_bind. eapply wp_load; [done|].
  apply wp_bind. eapply wp_load; [done|].
  apply wp_bind. eapply wp_write; [done|].
  intros s' H1 H2 H3 H4. apply wp_ret. by apply HQ.
Qed.

Lemma wp_MapToGroup seed s (Q : ptr * error -> state -> Prop) :
  (forall p s', preserved s s' -> fresh s p ->
                points_to s' p (pt_MapToGroup seed) ->
                length (heap s') = S (length (heap s)) -> Q (p, None) s') ->
  wp (MapToGroup seed) s Q.
Proof.
  intros HQ. unfold MapToGroup. apply wp_bind, wp_alloc.
  intros p s' H1 H2 H3 H4. apply wp_ret. by apply HQ.
Qed.

(** *** Vectors of points *)

Lemma wp_VectorScalarExp a k vs s (Q : list ptr * error -> state -> Prop) :
  Forall2 (points_to s) a vs ->
  (forall r s', preserved s s' -> Forall (fresh s) r ->
                Forall2 (points_to s') r (map (fun v => pt_ScalarMult v k) vs) ->
                Q (r, None) s') ->
  wp (VectorScalarExp a k) s Q.
Proof.
  intros Ha HQ. unfold VectorScalarExp. apply wp_bind.
  pose proof (Forall2_length _ _ _ Ha) as Hlen.
  eapply wp_mono.
  { apply (wp_for_loop (fun j r s' =>
      preserved s s' /\ Forall (fresh s) r /\
      Forall2 (points_to s') r
              (map (fun v => pt_ScalarMult v k) (take j vs)))).
    { split; [apply preserved_refl|]. split; constructor. }
    intros j r s1 Hj (Hs1 & Hfr & Hr).
    destruct (lookup_lt_is_Some_2 a j ltac:(lia)) as [ai Hai].
    destruct (Forall2_lookup_l _ _ _ _ _ Ha Hai) as (vj & Hvj & Hpt).
    apply wp_bind. eapply wp_need; [done|].
    apply wp_bind. eapply wp_p256_ScalarMult_new.
    { eapply points_to_preserved; [exact Hs1|exact Hpt]. }
    intros p s2 Hs2 Hp Hpv _. apply wp_ret.
    split; [preserved_chain|]. split.
    - apply Forall_app. split; [done|]. constructor; [|done].
      by eapply fresh_preserved.
    - rewrite (take_S_r _ _ _ Hvj), map_app. apply Forall2_app.
      + by eapply Forall2_points_to_preserved.
      + by constructor. }
  intros r s' (Hs' & Hfr & Hr). apply wp_ret. apply HQ; [done..|].
  simpl in Hr. by rewrite Hlen, firstn_all in Hr.
Qed.

Lemma wp_VectorECAdd a b va vb s (Q : list ptr * error -> state -> Prop) :
  Forall2 (points_to s) a va -> Forall2 (points_to s) b vb ->
  length a = length b ->
  (forall r s', preserved s s' -> Forall (fresh s) r ->
                Forall2 (points_to s') r (zip_with pt_Multiply va vb) ->
                Q (r, None) s') ->
  wp (VectorECAdd a b) s Q.
Proof.
  intros Ha Hb Hab HQ. unfold VectorECAdd.
  destruct (decide (length a = length b)); [|done]. apply wp_bind.
  pose proof (Forall2_length _ _ _ Ha) as Hlena.
  pose proof (Forall2_length _ _ _ Hb) as Hlenb.
  eapply wp_mono.
  { apply (wp_for_loop (fun j r s' =>
      preserved s s' /\ Forall (fresh s) r /\
      Forall2 (points_to s') r (take j (zip_with pt_Multiply va vb)))).
    { split; [apply preserved_refl|]. split; constructor. }
    intros j r s1 Hj (Hs1 & Hfr & Hr).
    destruct (lookup_lt_is_Some_2 a j ltac:(lia)) as [ai Hai].
    destruct (lookup_lt_is_Some_2 b j ltac:(lia)) as [bi Hbi].
    destruct (Forall2_lookup_l _ _ _ _ _ Ha Hai) as (vaj & Hvaj & Hpa).
    destruct (Forall2_lookup_l _ _ _ _ _ Hb Hbi) as (vbj & Hvbj & Hpb).
    apply wp_bind. eapply wp_need; [done|].
    apply wp_bind. eapply wp_need; [done|].
    apply wp_bind. eapply wp_p256_Multiply_new.
    { eapply points_to_preserved; [exact Hs1|exact Hpa]. }
    { eapply points_to_preserved; [exact Hs1|exact Hpb]. }
    intros p s2 Hs2 Hp Hpv _. apply wp_ret.
    split; [preserved_chain|]. split.
    - apply Forall_app. split; [done|]. constructor; [|done].
      by eapply fresh_preserved.
    - erewrite take_S_r; last first.
      { rewrite lookup_zip_with, Hvaj. simpl. by rewrite Hvbj. }
      apply Forall2_app.
      + by eapply Forall2_points_to_preserved.
      + by constructor. }
  intros r s' (Hs' & Hfr & Hr). apply wp_ret. apply HQ; [done..|].
  simpl in Hr. rewrite firstn_all2 in Hr; [done|].
  rewrite length_zip_with. lia.
Qed.

Lemma wp_VectorExp a b va s (Q : ptr * error -> state -> Prop) :
  Forall2 (points_to s) a va -> length a = length b ->
  (forall p s', preserved s s' -> fresh s p ->
                points_to s' p (prod_exp va b) -> Q (p, None) s') ->
  wp (VectorExp a b) s Q.
Proof.
  intros Ha Hab HQ. unfold VectorExp.
  destruct (decide (length a = length b)); [|done].
  pose proof (Forall2_length _ _ _ Ha) as Hlena.
  apply wp_bind. unfold p256_SetInfinity_new. apply wp_alloc.
  intros p s0 Hs0 Hp Hpv _. apply wp_bind.
  eapply wp_mono.
  { apply (wp_for_loop (fun j (_ : unit) s' =>
      preserved s s' /\
      points_to s' p (fold_left prod_exp_step (take j (zip va b)) pt_Infinity))).
    { by split. }
    intros j [] s1 Hj (Hs1 & Hacc).
    destruct (lookup_lt_is_Some_2 a j ltac:(lia)) as [ai Hai].
    destruct (lookup_lt_is_Some_2 b j ltac:(lia)) as [bi Hbi].
    destruct (Forall2_lookup_l _ _ _ _ _ Ha Hai) as (vj & Hvj & Hpt).
    apply wp_bind. eapply wp_need; [done|].
    apply wp_bind. eapply wp_need; [done|].
    apply wp_bind. eapply wp_p256_ScalarMult_new.
    { eapply points_to_preserved; [exact Hs1|exact Hpt]. }
    intros t s2 Hs2 Ht Htv _.
    apply wp_bind. eapply wp_p256_Multiply.
    { eapply points_to_preserved; [exact Hs2|exact Hacc]. }
    { eapply points_to_preserved; [exact Hs2|exact Hacc]. }
    { exact Htv. }
    intros s3 Hpv3 _ Hsnap _. apply wp_ret. split.
    - apply Hsnap; [preserved_chain|done].
    - erewrite take_S_r; last first.
      { rewrite lookup_zip_with, Hvj. simpl. by rewrite Hbi. }
      by rewrite fold_left_app. }
  intros [] s' (Hs' & Hacc). apply wp_ret. apply HQ; [done..|].
  simpl in Hacc. rewrite firstn_all2 in Hacc; [done|].
  rewrite length_zip_with. lia.
Qed.

(** *** One round of the inner product argument *)

Lemma slice_to_run {A} (a : list A) (k : nat) :
  (k <= length a)%nat -> slice_to a (Z.of_nat k) = Some (take k a).
Proof.
  intros Hk. unfold slice_to.
  destruct (0 <=? Z.of_nat k) eqn:?; [|lia].
  destruct (Z.of_nat k <=? Z.of_nat (length a)) eqn:?; [|lia].
  simpl. by rewrite Nat2Z.id.
Qed.

Lemma slice_from_run {A} (a : list A) (k : nat) :
  (k <= length a)%nat -> slice_from a (Z.of_nat k) = Some (drop k a).
Proof.
  intros Hk. unfold slice_from.
  destruct (0 <=? Z.of_nat k) eqn:?; [|lia].
  destruct (Z.of_nat k <=? Z.of_nat (length a)) eqn:?; [|lia].
  simpl. by rewrite Nat2Z.id.
Qed.

Lemma wp_HashBP A S vA vS s (Q : option Z * option Z * error -> state -> Prop) :
  points_to s A vA -> points_to s S vS ->
  Q (Some (hash_scalar vA vS), Some (hash_scalar vS vA), None) s ->
  wp (HashBP A S) s Q.
Proof. intros HA HS HQ. eapply run_wp; [by apply HashBP_run|done]. Qed.

Lemma wp_BIP_round a b g h u P (k : nat) gv hv uv Pv xinv x2inv s
    (Q : BIP_round_result -> state -> Prop) :
  let Lv := round_L a b gv hv uv k in
  let Rv := round_R a b gv hv uv k in
  let x := round_x a b gv hv uv k in
  0 < ORDER ->
  length a = (2 * k)%nat -> length b = (2 * k)%nat ->
  length g = (2 * k)%nat -> length h = (2 * k)%nat ->
  Forall2 (points_to s) g gv -> Forall2 (points_to s) h hv ->
  points_to s u uv -> points_to s P Pv ->
  ModInverse x ORDER = Some xinv ->
  ModInverse (Mod (Multiply x x) ORDER) ORDER = Some x2inv ->
  (forall rd s',
      preserved s s' ->
      rd_aprime rd = fold_scalars a k x xinv ->
      rd_bprime rd = fold_scalars b k xinv x ->
      Forall2 (points_to s') (rd_gprime rd) (fold_points gv k xinv x) ->
      Forall2 (points_to s') (rd_hprime rd) (fold_points hv k x xinv) ->
      points_to s' (rd_Pprime rd) (fold_P Lv Rv Pv x x2inv) ->
      points_to s' (rd_L rd) Lv -> points_to s' (rd_R rd) Rv ->
      Q rd s') ->
  wp (BIP_round a b g h u P (2 * Z.of_nat k)) s Q.
Proof.
  intros Lv Rv x Hq Hla Hlb Hlg Hlh Hg Hh Hu HP Hxinv Hx2inv HQ.
  pose proof (Forall2_length _ _ _ Hg) as Hlgv.
  pose proof (Forall2_length _ _ _ Hh) as Hlhv.
  unfold BIP_round.
  replace (Z.quot (2 * Z.of_nat k) 2) with (Z.of_nat k)
    by (rewrite Z.mul_comm, Z.quot_mul; lia).
  rewrite !slice_to_run, !slice_from_run by lia.
  do 2 (apply wp_bind; eapply wp_need; [done|]; cbv beta).
  rewrite ScalarProduct_inner
    by (done || (rewrite length_take, length_drop; lia)).
  cbv beta iota.
  do 2 (apply wp_bind; eapply wp_need; [done|]; cbv beta).
  rewrite ScalarProduct_inner
    by (done || (rewrite length_take, length_drop; lia)).
  cbv beta iota.
  apply wp_bind; eapply wp_need; [done|]; cbv beta.
  (* L *)
  apply wp_bind. eapply wp_VectorExp;
    [by apply Forall2_drop | rewrite length_take, length_drop; lia|].
  intros L s1 Hs1 HLf HL1.
  apply wp_bind; eapply wp_need; [done|].
  apply wp_bind. eapply wp_VectorExp;
    [ eapply Forall2_points_to_preserved; [exact Hs1|by apply Forall2_take]
    | rewrite length_take, length_drop; lia|].
  intros Lh s2 Hs2 _ HLh2.
  apply wp_bind. eapply wp_p256_Multiply;
    [eapply points_to_preserved; [exact Hs2|exact HL1]
    |eapply points_to_preserved; [exact Hs2|exact HL1]
    |exact HLh2|].
  intros s3 HL3 _ Hsnap3 _.
  assert (preserved s s3) as Hs3 by (apply Hsnap3; [preserved_chain|done]).
  apply wp_bind; eapply wp_need; [done|].
  apply wp_bind. eapply wp_p256_ScalarMult_new;
    [eapply points_to_preserved; [exact Hs3|exact Hu]|].
  intros ucL s4 Hs4 _ HucL _.
  apply wp_bind. eapply wp_p256_Multiply;
    [eapply points_to_preserved; [exact Hs4|exact HL3]
    |eapply points_to_preserved; [exact Hs4|exact HL3]
    |exact HucL|].
  intros s5 HL5 _ Hsnap5 _. fold (round_L a b gv hv uv k) in HL5. fold Lv in HL5.
  assert (preserved s s5) as Hs5 by (apply Hsnap5; [preserved_chain|done]).
  (* R *)
  apply wp_bind; eapply wp_need; [done|].
  apply wp_bind. eapply wp_VectorExp;
    [ eapply Forall2_points_to_preserved; [exact Hs5|by apply Forall2_take]
    | rewrite length_take, length_drop; lia|].
  intros R s6 Hs6 HRf HR6.
  apply wp_bind; eapply wp_need; [done|].
  apply wp_bind. eapply wp_VectorExp;
    [ eapply Forall2_points_to_preserved;
        [eapply preserved_trans; [exact Hs5|exact Hs6]|by apply Forall2_drop]
    | rewrite length_take, length_drop; lia|].
  intros Rh s7 Hs7 _ HRh7.
  apply wp_bind. eapply wp_p256_Multiply;
    [eapply points_to_preserved; [exact Hs7|exact HR6]
    |eapply points_to_preserved; [exact Hs7|exact HR6]
    |exact HRh7|].
  intros s8 HR8 _ Hsnap8 _.
  assert (preserved s5 s8) as Hs8 by (apply Hsnap8; [preserved_chain|done]).
  apply wp_bind; eapply wp_need; [done|].
  apply wp_bind. eapply wp_p256_ScalarMult_new;
    [eapply points_to_preserved; [|exact Hu]; preserved_chain|].
  intros ucR s9 Hs9 _ HucR _.
  apply wp_bind. eapply wp_p256_Multiply;
    [eapply points_to_preserved; [exact Hs9|exact HR8]
    |eapply points_to_preserved; [exact Hs9|exact HR8]
    |exact HucR|].
  intros s10 HR10 _ Hsnap10 _.
  fold (round_R a b gv hv uv k) in HR10. fold Rv in HR10.
  assert (preserved s5 s10) as Hs10 by (apply Hsnap10; [preserved_chain|done]).
  assert (preserved s s10) as Hs0_10 by preserved_chain.
  pose proof (points_to_preserved _ _ _ _ Hs10 HL5) as HL10.
  (* the challenge *)
  apply wp_bind. eapply wp_HashBP; [exact HL10|exact HR10|].
  fold (round_x a b gv hv uv k). fold x.
  apply wp_bind; eapply wp_need; [done|].
  apply wp_bind; eapply wp_need; [exact Hxinv|].
  (* the generators *)
  apply wp_bind. eapply wp_VectorScalarExp;
    [eapply Forall2_points_to_preserved; [exact Hs0_10|by apply Forall2_take]|].
  intros g1 s11 Hs11 _ Hg1.
  apply wp_bind. eapply wp_VectorScalarExp;
    [eapply Forall2_points_to_preserved;
       [eapply preserved_trans; [exact Hs0_10|exact Hs11]
       |by apply Forall2_drop]|].
  intros g2 s12 Hs12 _ Hg2.
  apply wp_bind. eapply wp_VectorECAdd;
    [eapply Forall2_points_to_preserved; [exact Hs12|exact Hg1]
    |exact Hg2
    |rewrite (Forall2_length _ _ _ Hg1), (Forall2_length _ _ _ Hg2),
       !length_map, length_take, length_drop; lia|].
  intros g' s13 Hs13 _ Hg'. fold (fold_points gv k xinv x) in Hg'.
  assert (preserved s s13) as Hs0_13 by preserved_chain.
  apply wp_bind. eapply wp_VectorScalarExp;
    [eapply Forall2_points_to_preserved; [exact Hs0_13|by apply Forall2_take]|].
  intros h1 s14 Hs14 _ Hh1.
  apply wp_bind. eapply wp_VectorScalarExp;
    [eapply Forall2_points_to_preserved;
       [eapply preserved_trans; [exact Hs0_13|exact Hs14]
       |by apply Forall2_drop]|].
  intros h2 s15 Hs15 _ Hh2.
  apply wp_bind. eapply wp_VectorECAdd;
    [eapply Forall2_points_to_preserved; [exact Hs15|exact Hh1]
    |exact Hh2
    |rewrite (Forall2_length _ _ _ Hh1), (Forall2_length _ _ _ Hh2),
       !length_map, length_take, length_drop; lia|].
  intros h' s16 Hs16 _ Hh'. fold (fold_points hv k x xinv) in Hh'.
  assert (preserved s10 s16) as Hs10_16 by preserved_chain.
  assert (preserved s s16) as Hs0_16 by preserved_chain.
  (* the commitment *)
  apply wp_bind; eapply wp_need; [exact Hx2inv|].
  apply wp_bind. eapply wp_p256_ScalarMult_new;
    [eapply points_to_preserved; [exact Hs10_16|exact HL10]|].
  intros P' s17 Hs17 HP'f HP'17 _.
  apply wp_bind. eapply wp_p256_Multiply;
    [exact HP'17|exact HP'17
    |eapply points_to_preserved; [|exact HP]; preserved_chain|].
  intros s18 HP'18 _ Hsnap18 _.
  assert (preserved s16 s18) as Hs18 by (apply Hsnap18; [preserved_chain|done]).
  apply wp_bind. eapply wp_p256_ScalarMult_new;
    [eapply points_to_preserved; [|exact HR10]; preserved_chain|].
  intros Rx s19 Hs19 _ HRx _.
  apply wp_bind. eapply wp_p256_Multiply;
    [eapply points_to_preserved; [exact Hs19|exact HP'18]
    |eapply points_to_preserved; [exact Hs19|exact HP'18]
    |exact HRx|].
  intros s20 HP'20 _ Hsnap20 _.
  assert (preserved s16 s20) as Hs20 by (apply Hsnap20; [preserved_chain|done]).
  unfold VectorScalarMul, VectorAdd. cbv beta iota.
  do 2 (destruct (decide _) as [_|Hne];
        [|exfalso; apply Hne;
          rewrite !length_map, length_take, length_drop; lia]).
  apply wp_ret. apply HQ; simpl.
  - preserved_chain.
  - done.
  - done.
  - eapply Forall2_points_to_preserved; [|exact Hg']. preserved_chain.
  - eapply Forall2_points_to_preserved; [|exact Hh']. preserved_chain.
  - exact HP'20.
  - eapply points_to_preserved; [|exact HL10]. preserved_chain.
  - eapply points_to_preserved; [|exact HR10]. preserved_chain.
Qed.

Lemma ModInverse_challenge (P Q : point) :
  hash_invertible ->
  exists xinv x2inv,
    ModInverse (hash_scalar P Q) ORDER = Some xinv /\
    ModInverse (Mod (Multiply (hash_scalar P Q) (hash_scalar P Q)) ORDER) ORDER
    = Some x2inv.
Proof.
  intros Hinv. unfold ModInverse, hash_scalar, Mod, Multiply.
  pose proof (Hinv (encode P ++ encode Q)) as Hx.
  rewrite Hx. simpl. rewrite Z.gcd_mod_l.
  rewrite (Z.coprime_mul_l _ _ _ Hx Hx). simpl. eauto.
Qed.

Lemma fold_points_lookup (vs : list point) (k i : nat) (e_lo e_hi : Z) v v' :
  (i < k)%nat -> vs !! i = Some v -> vs !! (k + i)%nat = Some v' ->
  fold_points vs k e_lo e_hi !! i
  = Some (pt_Multiply (pt_ScalarMult v e_lo) (pt_ScalarMult v' e_hi)).
Proof.
  intros Hi Hv Hv'. unfold fold_points.
  rewrite lookup_zip_with, !list_lookup_fmap.
  rewrite lookup_take_lt by done. rewrite Hv. simpl.
  by rewrite lookup_drop, Hv'.
Qed.

Lemma fold_scalars_lookup (a : list Z) (k i : nat) (e_lo e_hi : Z) u v :
  (i < k)%nat -> a !! i = Some u -> a !! (k + i)%nat = Some v ->
  fold_scalars a k e_lo e_hi !! i = Some ((u * e_lo + v * e_hi) mod ORDER).
Proof.
  intros Hi Hu Hv. unfold fold_scalars.
  rewrite lookup_zip_with, !list_lookup_fmap.
  rewrite lookup_take_lt by done. rewrite Hu. simpl.
  rewrite lookup_drop, Hv. simpl. by rewrite <- Zplus_mod.
Qed.

Lemma fold_points_length (vs : list point) (k : nat) (e_lo e_hi : Z) :
  length vs = (2 * k)%nat -> length (fold_points vs k e_lo e_hi) = k.
Proof.
  intros Hl. unfold fold_points.
  rewrite length_zip_with, !length_map, length_take, length_drop. lia.
Qed.

Lemma fold_scalars_length (a : list Z) (k : nat) (e_lo e_hi : Z) :
  length a = (2 * k)%nat -> length (fold_scalars a k e_lo e_hi) = k.
Proof.
  intros Hl. unfold fold_scalars.
  rewrite length_zip_with, !length_map, length_take, length_drop. lia.
Qed.

(** *** The recursion *)

Lemma BIP_fuel_base fuel a b g h u P Ls Rs s a0 b0 g0 h0 :
  a !! 0%nat = Some a0 -> b !! 0%nat = Some b0 ->
  g !! 0%nat = Some g0 -> h !! 0%nat = Some h0 ->
  BIP_fuel (S fuel) a b g h u P 1 Ls Rs s
  = Ret (mkProofBip Ls Rs u P g0 h0 (Some a0) (Some b0) 1, None) s.
Proof. intros Ha Hb Hg Hh. simpl. unfold bind. by rewrite Ha, Hb, Hg, Hh. Qed.

Lemma BIP_fuel_rec fuel a b g h u P n Ls Rs s rd s1 :
  n <> 1 -> BIP_round a b g h u P n s = Ret rd s1 ->
  BIP_fuel (S fuel) a b g h u P n Ls Rs s
  = bind (BIP_fuel fuel (rd_aprime rd) (rd_bprime rd) (rd_gprime rd)
                   (rd_hprime rd) u (rd_Pprime rd) (Z.quot n 2)
                   (Ls ++ [rd_L rd]) (Rs ++ [rd_R rd]))
         (fun '(proof, _) => ret (set_pip_n proof n, None)) s1.
Proof.
  intros Hn Hrd. simpl. destruct (n =? 1) eqn:?; [lia|].
  unfold bind at 1 2. rewrite Hrd. unfold bind.
  destruct (BIP_fuel fuel _ _ _ _ _ _ _ _ _ s1) as [[proof e] s2| |]; done.
Qed.

(** On vectors whose length is a power of two, with valid generators and
    enough fuel, the recursion returns a proof and no error. *)
Lemma wp_BIP_fuel (d : nat) : forall fuel a b g h u P Ls Rs s gv hv uv Pv,
  0 < ORDER -> hash_invertible -> (d < fuel)%nat ->
  length a = (2 ^ d)%nat -> length b = (2 ^ d)%nat ->
  length g = (2 ^ d)%nat -> length h = (2 ^ d)%nat ->
  Forall2 (points_to s) g gv -> Forall2 (points_to s) h hv ->
  points_to s u uv -> points_to s P Pv ->
  wp (BIP_fuel fuel a b g h u P (Z.of_nat (2 ^ d)) Ls Rs) s (fun r s' =>
    snd r = None /\ pip_n (fst r) = Z.of_nat (2 ^ d) /\ preserved s s' /\
    pip_u (fst r) = u /\
    length (pip_Ls (fst r)) = (length Ls + d)%nat /\
    length (pip_Rs (fst r)) = (length Rs + d)%nat).
Proof.
  induction d as [|d IH];
    intros fuel a b g h u P Ls Rs s gv hv uv Pv Hq Hinv Hfuel Hla Hlb Hlg Hlh
           Hg Hh Hu HP;
    (destruct fuel as [|fuel]; [lia|]).
  - destruct a as [|a0 [|]]; [done| |done]. destruct b as [|b0 [|]]; [done| |done].
    destruct g as [|g0 [|]]; [done| |done]. destruct h as [|h0 [|]]; [done| |done].
    eapply run_wp; [by apply BIP_fuel_base|]. simpl.
    rewrite !Nat.add_0_r. repeat split; done.
  - set (k := (2 ^ d)%nat).
    assert ((2 ^ S d)%nat = (2 * k)%nat) as Hpow by (simpl; lia).
    assert (1 <= k)%nat as Hk.
    { subst k. clear. induction d; simpl; lia. }
    rewrite Hpow in *. rewrite Nat2Z.inj_mul.
    change (Z.of_nat 2) with 2.
    destruct (ModInverse_challenge (round_L a b gv hv uv k)
                (round_R a b gv hv uv k) Hinv) as (xinv & x2inv & Hxi & Hx2i).
    assert (wp (BIP_round a b g h u P (2 * Z.of_nat k)) s (fun rd s' =>
              preserved s s' /\
              length (rd_aprime rd) = k /\ length (rd_bprime rd) = k /\
              (exists gv', Forall2 (points_to s') (rd_gprime rd) gv' /\
                           length gv' = k) /\
              (exists hv', Forall2 (points_to s') (rd_hprime rd) hv' /\
                           length hv' = k) /\
              exists Pv', points_to s' (rd_Pprime rd) Pv')) as Hround.
    { eapply wp_BIP_round; try eassumption.
      intros rd s' Hs' Ha' Hb' Hg' Hh' HP' _ _.
      pose proof (Forall2_length _ _ _ Hg) as Hlgv.
      pose proof (Forall2_length _ _ _ Hh) as Hlhv.
      split; [done|]. rewrite Ha', Hb'.
      rewrite !fold_scalars_length by done.
      split; [done|]. split; [done|]. split; [|split; [|eauto]].
      - eexists. split; [exact Hg'|]. apply fold_points_length. lia.
      - eexists. split; [exact Hh'|]. apply fold_points_length. lia. }
    destruct (wp_run _ _ _ Hround)
      as (rd & s1 & Hrd & Hs1 & Ha' & Hb' & (gv' & Hg' & Hlg')
          & (hv' & Hh' & Hlh') & Pv' & HP').
    assert (2 * Z.of_nat k <> 1) as Hn1 by lia.
    unfold wp. rewrite (BIP_fuel_rec fuel _ _ _ _ _ _ _ Ls Rs _ _ _ Hn1 Hrd).
    replace (Z.quot (2 * Z.of_nat k) 2) with (Z.of_nat k)
      by (rewrite Z.mul_comm, Z.quot_mul; lia).
    pose proof (IH fuel (rd_aprime rd) (rd_bprime rd) (rd_gprime rd)
                  (rd_hprime rd) u (rd_Pprime rd) (Ls ++ [rd_L rd])
                  (Rs ++ [rd_R rd]) s1 gv' hv' uv Pv' Hq Hinv ltac:(lia)
                  Ha' Hb'
                  ltac:(by rewrite (Forall2_length _ _ _ Hg'))
                  ltac:(by rewrite (Forall2_length _ _ _ Hh'))
                  Hg' Hh' (points_to_preserved _ _ _ _ Hs1 Hu) HP') as Hrec.
    unfold wp in Hrec. unfold bind.
    destruct (BIP_fuel fuel _ _ _ _ _ _ _ _ _ s1) as [[proof e] s2| |];
      [|done|done].
    simpl in *. destruct Hrec as (-> & _ & Hs2 & Hu' & HLs & HRs).
    rewrite length_app in HLs, HRs. simpl in HLs, HRs.
    split; [done|]. split; [done|]. split; [preserved_chain|].
    split; [done|]. split; lia.
Qed.

(** Whatever [BIP] returns carries no error and the length it was called
    with. *)
Lemma BIP_fuel_Ret_inv fuel a b g h u P n Ls Rs s proof e s' :
  BIP_fuel fuel a b g h u P n Ls Rs s = Ret (proof, e) s' ->
  e = None /\ pip_n proof = n.
Proof.
  destruct fuel as [|fuel]; [done|]. simpl. intros H.
  apply bind_Ret_inv in H as (proof0 & s1 & _ & H).
  apply ret_Ret_inv in H as [[= <- <-] _]. done.
Qed.

(** C7.  For every power of two n = 2^d and vectors a, b, g, h of length n,
    the recursion returns a proof whose n field is the top-level n, after d
    rounds.  For n = 1 the proof is (a[0], b[0], g[0], h[0], P, u, Ls, Rs).
    For n > 1, with n' = n/2 and x the first scalar of HashBP(L, R), the
    round folds g'[i] = g[i]^(x⁻¹)·g[n'+i]^x, h'[i] = h[i]^x·h[n'+i]^(x⁻¹),
    P' = L^(x²)·P·R^(x⁻²), a'[i] = a[i]·x + a[n'+i]·x⁻¹ and
    b'[i] = b[i]·x⁻¹ + b[n'+i]·x modulo q, appends L and R to the two lists,
    recurses on n', and sets the n field to n on the way back. *)
Theorem BIP_follows_halving (d fuel : nat) (a b : list Z) (g h : list ptr)
    (u P : ptr) (Ls Rs : list ptr) (s : state) (gv hv : list point)
    (uv Pv : point) :
  0 < ORDER -> hash_invertible -> (d < fuel)%nat ->
  length a = (2 ^ d)%nat -> length b = (2 ^ d)%nat ->
  length g = (2 ^ d)%nat -> length h = (2 ^ d)%nat ->
  Forall2 (points_to s) g gv -> Forall2 (points_to s) h hv ->
  points_to s u uv -> points_to s P Pv ->
  let n := Z.of_nat (2 ^ d) in
  (exists proof s',
      BIP_fuel fuel a b g h u P n Ls Rs s = Ret (proof, None) s' /\
      pip_n proof = n /\
      length (pip_Ls proof) = (length Ls + d)%nat /\
      length (pip_Rs proof) = (length Rs + d)%nat)
  /\
  match d with
  | O =>
      exists a0 b0 g0 h0,
        a = [a0] /\ b = [b0] /\ g = [g0] /\ h = [h0] /\
        BIP_fuel fuel a b g h u P n Ls Rs s
        = Ret (mkProofBip Ls Rs u P g0 h0 (Some a0) (Some b0) n, None) s
  | S d' =>
      let k := (2 ^ d')%nat in
      let Lv := round_L a b gv hv uv k in
      let Rv := round_R a b gv hv uv k in
      let x := hash_scalar Lv Rv in
      exists xinv x2inv rd s1,
        ModInverse x ORDER = Some xinv /\
        ModInverse ((x * x) mod ORDER) ORDER = Some x2inv /\
        BIP_round a b g h u P n s = Ret rd s1 /\
        preserved s s1 /\
        points_to s1 (rd_L rd) Lv /\ points_to s1 (rd_R rd) Rv /\
        (forall i gi gi', (i < k)%nat ->
           gv !! i = Some gi -> gv !! (k + i)%nat = Some gi' ->
           exists p, rd_gprime rd !! i = Some p /\
             points_to s1 p (pt_Multiply (pt_ScalarMult gi xinv)
                                         (pt_ScalarMult gi' x))) /\
        (forall i hi hi', (i < k)%nat ->
           hv !! i = Some hi -> hv !! (k + i)%nat = Some hi' ->
           exists p, rd_hprime rd !! i = Some p /\
             points_to s1 p (pt_Multiply (pt_ScalarMult hi x)
                                         (pt_ScalarMult hi' xinv))) /\
        points_to s1 (rd_Pprime rd)
          (pt_Multiply (pt_Multiply (pt_ScalarMult Lv ((x * x) mod ORDER)) Pv)
                       (pt_ScalarMult Rv x2inv)) /\
        (forall i ai ai', (i < k)%nat ->
           a !! i = Some ai -> a !! (k + i)%nat = Some ai' ->
           rd_aprime rd !! i = Some ((ai * x + ai' * xinv) mod ORDER)) /\
        (forall i bi bi', (i < k)%nat ->
           b !! i = Some bi -> b !! (k + i)%nat = Some bi' ->
           rd_bprime rd !! i = Some ((bi * xinv + bi' * x) mod ORDER)) /\
        BIP_fuel fuel a b g h u P n Ls Rs s
        = bind (BIP_fuel (pred fuel) (rd_aprime rd) (rd_bprime rd)
                         (rd_gprime rd) (rd_hprime rd) u (rd_Pprime rd)
                         (Z.of_nat k) (Ls ++ [rd_L rd]) (Rs ++ [rd_R rd]))
               (fun '(proof, _) => ret (set_pip_n proof n, None)) s1
  end.
Proof.
  intros Hq Hinv Hfuel Hla Hlb Hlg Hlh Hg Hh Hu HP n. split.
  - destruct (wp_run _ _ _
      (wp_BIP_fuel d fuel a b g h u P Ls Rs s gv hv uv Pv Hq Hinv Hfuel
                   Hla Hlb Hlg Hlh Hg Hh Hu HP))
      as ([proof e] & s' & Hrun & He & Hn & _ & _ & HLs & HRs).
    simpl in *. subst e. by exists proof, s'.
  - destruct fuel as [|fuel]; [lia|]. destruct d as [|d'].
    + destruct a as [|a0 [|]]; [done| |done].
      destruct b as [|b0 [|]]; [done| |done].
      destruct g as [|g0 [|]]; [done| |done].
      destruct h as [|h0 [|]]; [done| |done].
      exists a0, b0, g0, h0. do 4 (split; [done|]).
      by apply BIP_fuel_base.
    + intros k Lv Rv x.
      assert ((2 ^ S d')%nat = (2 * k)%nat) as Hpow by (simpl; lia).
      assert (1 <= k)%nat as Hk.
      { subst k. clear. induction d'; simpl; lia. }
      assert (n = 2 * Z.of_nat k) as Hn by (subst n; rewrite Hpow; lia).
      rewrite Hpow in *.
      destruct (ModInverse_challenge Lv Rv Hinv) as (xinv & x2inv & Hxi & Hx2i).
      exists xinv, x2inv.
      assert (wp (BIP_round a b g h u P n) s (fun rd s1 =>
                preserved s s1 /\
                rd_aprime rd = fold_scalars a k x xinv /\
                rd_bprime rd = fold_scalars b k xinv x /\
                Forall2 (points_to s1) (rd_gprime rd) (fold_points gv k xinv x)
                /\ Forall2 (points_to s1) (rd_hprime rd)
                            (fold_points hv k x xinv) /\
                points_to s1 (rd_Pprime rd) (fold_P Lv Rv Pv x x2inv) /\
                points_to s1 (rd_L rd) Lv /\ points_to s1 (rd_R rd) Rv))
        as Hround.
      { rewrite Hn. eapply wp_BIP_round; try eassumption.
        intros rd s1 H1 H2 H3 H4 H5 H6 H7 H8.
        exact (conj H1 (conj H2 (conj H3 (conj H4 (conj H5 (conj H6
                 (conj H7 H8))))))). }
      destruct (wp_run _ _ _ Hround)
        as (rd & s1 & Hrd & Hs1 & Ha' & Hb' & Hg' & Hh' & HP' & HL & HR).
      exists rd, s1. do 6 (split; [done|]).
      split; [|split; [|split; [done|split; [|split]]]].
      * intros i gi gi' Hi Hgi Hgi'.
        destruct (Forall2_lookup_r _ _ _ _ _ Hg'
                    (fold_points_lookup _ _ _ _ _ _ _ Hi Hgi Hgi'))
          as (p & Hp & Hpv). eauto.
      * intros i hi hi' Hi Hhi Hhi'.
        destruct (Forall2_lookup_r _ _ _ _ _ Hh'
                    (fold_points_lookup _ _ _ _ _ _ _ Hi Hhi Hhi'))
          as (p & Hp & Hpv). eauto.
      * intros i ai ai' Hi Hai Hai'. rewrite Ha'.
        by apply fold_scalars_lookup.
      * intros i bi bi' Hi Hbi Hbi'. rewrite Hb'.
        by apply fold_scalars_lookup.
      * assert (n <> 1) as Hn1 by lia.
        rewrite (BIP_fuel_rec fuel _ _ _ _ _ _ _ Ls Rs _ _ _ Hn1 Hrd).
        simpl pred. rewrite Hn.
        by replace (Z.quot (2 * Z.of_nat k) 2) with (Z.of_nat k)
          by (rewrite Z.mul_comm, Z.quot_mul; lia).
Qed.

(** *** The inner product proof *)

Lemma for_loop_Ret_inv {St} (Inv : St -> state -> Prop) k i body acc s r s' :
  Inv acc s ->
  (forall j acc s acc' s', Inv acc s -> body j acc s = Ret acc' s' ->
                           Inv acc' s') ->
  @for_loop C St k i body acc s = Ret r s' -> Inv r s'.
Proof.
  intros Hinv Hbody. revert i acc s Hinv.
  induction k as [|k IH]; intros i acc s Hinv; simpl.
  - by intros [<- <-]%ret_Ret_inv.
  - intros (acc1 & s1 & H1 & H)%bind_Ret_inv. eauto.
Qed.

Lemma valid_length s s' p :
  (length (heap s) <= length (heap s'))%nat -> valid s p -> valid s' p.
Proof.
  intros Hlen (v & l & -> & Hl). apply lookup_lt_Some in Hl.
  destruct (lookup_lt_is_Some_2 (heap s') l ltac:(lia)) as [v' Hv'].
  exists v', l. done.
Qed.

Lemma Forall_valid_length s s' ps :
  (length (heap s) <= length (heap s'))%nat ->
  Forall (valid s) ps -> Forall (valid s') ps.
Proof.
  intros Hlen H. eapply Forall_impl; [exact H|].
  intros p. by apply valid_length.
Qed.

Lemma Forall_valid_values s ps :
  Forall (valid s) ps -> exists vs, Forall2 (points_to s) ps vs.
Proof.
  induction 1 as [|p ps [v Hv] _ [vs IH]].
  - exists []. constructor.
  - exists (v :: vs). by constructor.
Qed.

Lemma Forall2_points_to_valid s ps vs :
  Forall2 (points_to s) ps vs -> Forall (valid s) ps.
Proof.
  induction 1 as [|p v ps vs Hp _ IH]; constructor; [by exists v|done].
Qed.

Lemma HashIP_state g h P c n s r s' :
  HashIP g h P c n s = Ret r s' -> s' = s.
Proof.
  unfold HashIP, p256_String.
  intros (sP & s1 & H1 & H)%bind_Ret_inv.
  apply bind_Ret_inv in H1 as (vP & s1' & [_ ->]%load_Ret_inv & [_ <-]%ret_Ret_inv).
  apply bind_Ret_inv in H as (digest & s2 & Hloop & [_ <-]%ret_Ret_inv).
  eapply (for_loop_Ret_inv (fun _ s2 => s2 = s)); [done| |exact Hloop].
  clear. intros j acc s1 acc' s' -> H.
  apply bind_Ret_inv in H as (gi & s2 & [_ ->]%need_Ret_inv & H).
  apply bind_Ret_inv in H as (sg & s2 & H2 & H).
  apply bind_Ret_inv in H2 as (vg & s3 & [_ ->]%load_Ret_inv & [_ <-]%ret_Ret_inv).
  apply bind_Ret_inv in H as (hi & s3 & [_ ->]%need_Ret_inv & H).
  apply bind_Ret_inv in H as (sh & s3 & H3 & H).
  apply bind_Ret_inv in H3 as (vh & s4 & [_ ->]%load_Ret_inv & [_ <-]%ret_Ret_inv).
  by apply ret_Ret_inv in H as [_ <-].
Qed.

(** [HashIP] returns when the point and the first [n] generators of each
    vector are valid. *)
Lemma wp_HashIP g h P c n s (Q : Z * error -> state -> Prop) :
  valid s P -> Forall (valid s) g -> Forall (valid s) h ->
  (Z.to_nat n <= length g)%nat -> (Z.to_nat n <= length h)%nat ->
  (forall x, Q (x, None) s) ->
  wp (HashIP g h P c n) s Q.
Proof.
  intros [vP HP] Hg Hh Hng Hnh HQ. unfold HashIP.
  apply wp_bind. unfold p256_String at 1.
  apply wp_bind. eapply wp_load; [done|]. apply wp_ret.
  apply wp_bind. eapply wp_mono.
  { apply (wp_for_loop (fun _ _ s' => s' = s)); [done|].
    intros j acc s1 Hj ->.
    destruct (lookup_lt_is_Some_2 g j ltac:(lia)) as [gi Hgi].
    destruct (lookup_lt_is_Some_2 h j ltac:(lia)) as [hi Hhi].
    destruct (Forall_lookup_1 _ _ _ _ Hg Hgi) as [vg Hvg].
    destruct (Forall_lookup_1 _ _ _ _ Hh Hhi) as [vh Hvh].
    apply wp_bind. eapply wp_need; [done|].
    apply wp_bind. eapply run_wp; [by apply p256_String_run|].
    apply wp_bind. eapply wp_need; [done|].
    apply wp_bind. eapply run_wp; [by apply p256_String_run|].
    by apply wp_ret. }
  intros digest s' ->. cbv beta. unfold FromByteArray. apply wp_ret, HQ.
Qed.

(** With vectors of different lengths, [Prove] has multiplied the caller's
    point by (u^x)^c, in place, by the time it reports the mismatch. *)
Lemma bip_Prove_mismatch_run zkip a b P s x e s1 vP vu :
  length a <> length b ->
  HashIP (bip_g zkip) (bip_h zkip) P (bip_c zkip) (bip_n zkip) s
  = Ret (x, e) s1 ->
  points_to s P vP -> points_to s (bip_u zkip) vu ->
  exists s',
    bip_Prove zkip a b P s
    = Ret (zkip, (proofBip_zero, Some err_ip_size)) s' /\
    points_to s' P
      (pt_Multiply vP (pt_ScalarMult (pt_ScalarMult vu x) (bip_c zkip))) /\
    (forall q v, points_to s q v -> q <> P -> points_to s' q v).
Proof.
  intros Hlen Hhash HP Hu.
  pose proof (HashIP_state _ _ _ _ _ _ _ _ Hhash) as ->.
  assert (wp (bip_Prove zkip a b P) s (fun r s' =>
            r = (zkip, (proofBip_zero, Some err_ip_size)) /\
            points_to s' P
              (pt_Multiply vP (pt_ScalarMult (pt_ScalarMult vu x) (bip_c zkip)))
            /\ (forall q v, points_to s q v -> q <> P -> points_to s' q v)))
    as Hwp.
  { unfold bip_Prove. apply wp_bind. eapply run_wp; [exact Hhash|]. cbv beta iota.
    apply wp_bind. eapply wp_p256_ScalarMult_new; [exact Hu|].
    intros ux s2 Hs2 _ Hux _.
    apply wp_bind. eapply wp_p256_ScalarMult_new; [exact Hux|].
    intros uxc s3 Hs3 _ Huxc _.
    assert (preserved s s3) as Hs03 by preserved_chain.
    apply wp_bind. eapply wp_p256_Multiply;
      [eapply points_to_preserved; [exact Hs03|exact HP]
      |eapply points_to_preserved; [exact Hs03|exact HP]
      |exact Huxc|].
    intros s4 HP4 Hframe _ _. cbv beta.
    destruct (Z.of_nat (length a) =? Z.of_nat (length b)) eqn:?; [lia|].
    simpl. apply wp_ret. split; [done|]. split; [done|].
    intros q v Hq Hne. apply Hframe; [|done].
    by eapply points_to_preserved. }
  destruct (wp_run _ _ _ Hwp) as (r & s' & Hrun & -> & H1 & H2). eauto.
Qed.

(** Whatever error [Prove] returns is the length mismatch of its vectors. *)
Lemma bip_Prove_error_inv zkip a b P s zkip' proof e s' :
  bip_Prove zkip a b P s = Ret (zkip', (proof, Some e)) s' ->
  e = err_ip_size /\ length a <> length b.
Proof.
  unfold bip_Prove. intros H.
  apply bind_Ret_inv in H as ([x e0] & s1 & _ & H).
  apply bind_Ret_inv in H as (ux & s2 & _ & H).
  apply bind_Ret_inv in H as (uxc & s3 & _ & H).
  apply bind_Ret_inv in H as (P' & s4 & _ & H).
  destruct (Z.of_nat (length a) =? Z.of_nat (length b)) eqn:Hnm; simpl in H.
  - apply bind_Ret_inv in H as ([proof1 e1] & s5 & Hbip & H).
    apply ret_Ret_inv in H as [[= _ _ ->] _].
    by apply BIP_fuel_Ret_inv in Hbip as [? _].
  - apply ret_Ret_inv in H as [[= _ _ <-] _]. split; [done|lia].
Qed.

Lemma BIP_depth_pow2 (d : nat) : BIP_depth (Z.of_nat (2 ^ d)) = S d.
Proof.
  unfold BIP_depth. f_equal.
  rewrite Nat2Z.inj_pow. change (Z.of_nat 2) with 2.
  rewrite Z.log2_pow2 by lia. apply Nat2Z.id.
Qed.

(** On vectors whose length is a power of two, with valid generators,
    [Prove] returns a proof and no error. *)
Lemma wp_bip_Prove (d : nat) zkip a b P s :
  0 < ORDER -> hash_invertible ->
  length a = (2 ^ d)%nat -> length b = (2 ^ d)%nat ->
  length (bip_g zkip) = (2 ^ d)%nat -> length (bip_h zkip) = (2 ^ d)%nat ->
  Forall (valid s) (bip_g zkip) -> Forall (valid s) (bip_h zkip) ->
  valid s (bip_u zkip) -> valid s P ->
  (Z.to_nat (bip_n zkip) <= 2 ^ d)%nat ->
  wp (bip_Prove zkip a b P) s (fun r s' =>
    exists proof, r = (set_bip_P zkip P, (proof, None)) /\
                  pip_n proof = Z.of_nat (2 ^ d) /\
                  (length (heap s) <= length (heap s'))%nat).
Proof.
  intros Hq Hinv Hla Hlb Hlg Hlh Hg Hh [vu Hu] [vP HP] Hn.
  unfold bip_Prove.
  apply wp_bind. apply wp_HashIP; [by exists vP|done|done|lia|lia|].
  intros x. cbv beta iota.
  apply wp_bind. eapply wp_p256_ScalarMult_new; [exact Hu|].
  intros ux s2 Hs2 _ Hux _.
  apply wp_bind. eapply wp_p256_ScalarMult_new; [exact Hux|].
  intros uxc s3 Hs3 _ Huxc _.
  assert (preserved s s3) as Hs03 by preserved_chain.
  apply wp_bind. eapply wp_p256_Multiply;
    [eapply points_to_preserved; [exact Hs03|exact HP]
    |eapply points_to_preserved; [exact Hs03|exact HP]
    |exact Huxc|].
  intros s4 HP4 Hframe _ Hlen4. cbv beta.
  destruct (Z.of_nat (length a) =? Z.of_nat (length b)) eqn:?; [|lia].
  simpl. unfold BIP. rewrite Hla, BIP_depth_pow2.
  assert (length (heap s) <= length (heap s4))%nat as Hlen04.
  { rewrite Hlen4. apply Hs03. }
  destruct (Forall_valid_values s4 (bip_g zkip)
              (Forall_valid_length _ _ _ Hlen04 Hg)) as [gv Hgv].
  destruct (Forall_valid_values s4 (bip_h zkip)
              (Forall_valid_length _ _ _ Hlen04 Hh)) as [hv Hhv].
  destruct (valid_length s3 s4 ux ltac:(lia) (ex_intro _ _ (points_to_preserved _ _ _ _ Hs3 Hux)))
    as [vux Hvux].
  apply wp_bind. eapply wp_mono.
  { eapply (wp_BIP_fuel d (S d)); try eassumption; lia. }
  intros [proof e] s5 (He & Hpn & Hs5 & _). simpl in He, Hpn. subst e.
  apply wp_ret. exists proof. split; [done|]. split; [done|].
  destruct Hs5 as [Hlen5 _]. lia.
Qed.

(** *** Runs that have returned *)


Lemma alloc_Ret_inv v p s s' :
  alloc v s = Ret p s' ->
  preserved s s' /\ fresh s p /\ points_to s' p v.
Proof.
  intros H. pose proof (wp_alloc v s (fun p s' =>
    preserved s s' /\ fresh s p /\ points_to s' p v)) as Hwp.
  unfold wp in Hwp. rewrite H in Hwp. apply Hwp.
  intros p0 s0 H1 H2 H3 _. exact (conj H1 (conj H2 H3)).
Qed.

Lemma p256_ScalarMult_new_Ret_inv a k p s s' :
  p256_ScalarMult_new a k s = Ret p s' ->
  exists va, points_to s a va /\ preserved s s' /\ fresh s p /\
             points_to s' p (pt_ScalarMult va k).
Proof.
  unfold p256_ScalarMult_new.
  intros (va & s1 & [Ha ->]%load_Ret_inv & H)%bind_Ret_inv.
  apply alloc_Ret_inv in H. eauto.
Qed.

Lemma write_Ret_inv p v s s' :
  write p v s = Ret tt s' ->
  valid s p /\ points_to s' p v /\
  (forall q u, points_to s q u -> q <> p -> points_to s' q u) /\
  (forall s0, preserved s0 s -> fresh s0 p -> preserved s0 s').
Proof.
  intros H. unfold write in H. destruct p as [l|]; [|done].
  destruct (decide (l < length (heap s))%nat) as [Hl|]; [|done].
  destruct (lookup_lt_is_Some_2 _ _ Hl) as [w Hw].
  assert (points_to s (Some l) w) as Hp by (by exists l).
  split; [by exists w|].
  pose proof (wp_write (Some l) v w s (fun _ s' =>
    points_to s' (Some l) v /\
    (forall q u, points_to s q u -> q <> Some l -> points_to s' q u) /\
    (forall s0, preserved s0 s -> fresh s0 (Some l) -> preserved s0 s')) Hp)
    as Hwp.
  unfold wp in Hwp. unfold write in Hwp.
  destruct (decide (l < length (heap s))%nat); [|done].
  injection H as <-. apply Hwp.
  intros s1 H1 H2 H3 _. exact (conj H1 (conj H2 H3)).
Qed.

Lemma p256_Multiply_Ret_inv p a b r s s' :
  p256_Multiply p a b s = Ret r s' ->
  exists va vb, points_to s a va /\ points_to s b vb /\ r = p /\
    points_to s' p (pt_Multiply va vb) /\
    (forall q u, points_to s q u -> q <> p -> points_to s' q u) /\
    (forall s0, preserved s0 s -> fresh s0 p -> preserved s0 s').
Proof.
  unfold p256_Multiply.
  intros (va & s1 & [Ha ->]%load_Ret_inv & H)%bind_Ret_inv.
  apply bind_Ret_inv in H as (vb & s1 & [Hb ->]%load_Ret_inv & H).
  apply bind_Ret_inv in H as ([] & s1 & Hw & [<- <-]%ret_Ret_inv).
  apply write_Ret_inv in Hw as (_ & H1 & H2 & H3). eauto 10.
Qed.

Lemma p256_Neg_Ret_inv p a r s s' :
  p256_Neg p a s = Ret r s' ->
  exists va, points_to s a va /\ r = p /\
    points_to s' p (pt_Neg va) /\
    (forall q u, points_to s q u -> q <> p -> points_to s' q u) /\
    (forall s0, preserved s0 s -> fresh s0 p -> preserved s0 s').
Proof.
  unfold p256_Neg.
  intros (va & s1 & [Ha ->]%load_Ret_inv & H)%bind_Ret_inv.
  apply bind_Ret_inv in H as ([] & s1 & Hw & [<- <-]%ret_Ret_inv).
  apply write_Ret_inv in Hw as (_ & H1 & H2 & H3). eauto 10.
Qed.

Lemma p256_IsZero_Ret_inv p c s s' :
  p256_IsZero p s = Ret c s' ->
  exists v, points_to s p v /\ c = pt_IsZero v /\ s' = s.
Proof.
  unfold p256_IsZero.
  intros (v & s1 & [Hp ->]%load_Ret_inv & [<- <-]%ret_Ret_inv)%bind_Ret_inv.
  eauto.
Qed.





Lemma IsZero_quotient (l r : point) :
  CurveLaws C -> pt_IsZero (pt_Multiply r (pt_Neg l)) = true <-> l = r.
Proof.
  intros HL. rewrite (law_IsZero _ HL). split.
  - intros H.
    rewrite <- (law_unit_l _ HL l), <- H, <- (law_assoc _ HL).
    by rewrite (law_neg_l _ HL), (law_unit_r _ HL).
  - intros ->. apply (law_neg_r _ HL).
Qed.

(** *** What Prove and Verify leave behind *)

Ltac inv_run H :=
  repeat first
    [ match type of H with
      | bind _ _ _ = Ret _ _ =>
          let Hm := fresh "Hm" in
          apply bind_Ret_inv in H as (? & ? & Hm & H)
      | (match ?x with pair _ _ => _ end) _ = Ret _ _ => destruct x
      end ].

Lemma bip_Prove_fields zkip a b P s zkip' r s' :
  bip_Prove zkip a b P s = Ret (zkip', r) s' ->
  zkip' = zkip \/ zkip' = set_bip_P zkip P.
Proof.
  unfold bip_Prove. intros H. inv_run H.
  destruct (negb _); inv_run H.
  - apply ret_Ret_inv in H as [[= <- _] _]. by left.
  - apply ret_Ret_inv in H as [[= <- _] _]. by right.
Qed.

(** A run of the range-proof [Prove] that returns has a nil error; it has
    overwritten the fields h and c of the inner product parameters, perhaps
    P, and nothing else in the parameter struct. *)
Lemma bp_Prove_Ret_inv zkrp v s zkrp' proof e s' :
  bp_Prove zkrp v s = Ret (zkrp', (proof, e)) s' ->
  e = None /\
  bp_n zkrp' = bp_n zkrp /\ bp_G zkrp' = bp_G zkrp /\
  bp_H zkrp' = bp_H zkrp /\ bp_g zkrp' = bp_g zkrp /\
  bp_h zkrp' = bp_h zkrp /\
  bip_n (bp_zkip zkrp') = bip_n (bp_zkip zkrp) /\
  bip_u (bp_zkip zkrp') = bip_u (bp_zkip zkrp) /\
  bip_H (bp_zkip zkrp') = bip_H (bp_zkip zkrp) /\
  bip_g (bp_zkip zkrp') = bip_g (bp_zkip zkrp) /\
  bip_c (bp_zkip zkrp') = pbp_tprime proof /\
  exists yinv s1 s2,
    switch_generators (bp_h zkrp) (bp_n zkrp) yinv s1
    = Ret (bip_h (bp_zkip zkrp')) s2.
Proof.
  unfold bp_Prove. intros H. inv_run H.
  apply ret_Ret_inv in H as [[= <- <- <-] _].
  match goal with
  | Hp : bip_Prove _ _ _ _ _ = Ret _ _ |- _ =>
      apply bip_Prove_fields in Hp as [-> | ->]
  end; simpl; repeat split; try done.
  all: match goal with
       | Hn : need ?t _ = Ret _ _, Hs : switch_generators _ _ _ _ = Ret _ _ |- _ =>
           eauto
       end.
Qed.

Lemma bip_Verify_true_overwrites_P zkip proof e s s' :
  CurveLaws C ->
  bip_Verify zkip proof s = Ret (true, e) s' ->
  points_to s' (bip_P zkip) pt_Infinity.
Proof.
  intros HL H. unfold bip_Verify in H. inv_run H.
  apply ret_Ret_inv in H as [[= Hc _] <-].
  repeat match goal with
         | Hm : need _ _ = Ret _ _ |- _ => clear Hm
         | Hm : for_loop _ _ _ _ _ = Ret _ _ |- _ => clear Hm
         | Hm : p256_ScalarMult_new _ _ _ = Ret _ _ |- _ => clear Hm
         end.
  match goal with
  | Hz : p256_IsZero _ _ = Ret _ _ |- _ =>
      apply p256_IsZero_Ret_inv in Hz as (v & Hv & -> & ->)
  end.
  match goal with
  | Hn : p256_Neg _ _ _ = Ret _ _ |- _ =>
      apply p256_Neg_Ret_inv in Hn as (va & _ & -> & _)
  end.
  apply (law_IsZero _ HL) in Hc. by subst v.
Qed.

(** A range-proof [Verify] that returns true has left the identity behind
    the pointer [zkip.P] of the parameters. *)
Lemma bp_Verify_true_overwrites_P zkrp proof e s s' :
  CurveLaws C ->
  bp_Verify zkrp proof s = Ret (true, e) s' ->
  points_to s' (bip_P (bp_zkip zkrp)) pt_Infinity.
Proof.
  intros HL H. unfold bp_Verify in H. inv_run H.
  apply ret_Ret_inv in H as [[= Hb _] <-].
  apply andb_true_iff in Hb as [_ ->].
  match goal with
  | Hv : bip_Verify _ _ _ = Ret _ _ |- _ =>
      by apply bip_Verify_true_overwrites_P in Hv
  end.
Qed.

(** *** The range proof returns *)

Lemma VectorAdd_length (a b : list Z) (n : nat) :
  length a = n -> length b = n ->
  exists r, VectorAdd a b = (r, None) /\ length r = n.
Proof.
  intros Ha Hb. unfold VectorAdd.
  destruct (decide (length a = length b)); [|congruence].
  eexists. split; [done|]. rewrite length_zip_with. lia.
Qed.

Lemma VectorSub_length (a b : list Z) (n : nat) :
  length a = n -> length b = n ->
  exists r, VectorSub a b = (r, None) /\ length r = n.
Proof.
  intros Ha Hb. unfold VectorSub.
  destruct (decide (length a = length b)); [|congruence].
  eexists. split; [done|]. rewrite length_zip_with. lia.
Qed.

Lemma VectorMul_length (a b : list Z) (n : nat) :
  length a = n -> length b = n ->
  exists r, VectorMul a b = (r, None) /\ length r = n.
Proof.
  intros Ha Hb. unfold VectorMul.
  destruct (decide (length a = length b)); [|congruence].
  eexists. split; [done|]. rewrite length_zip_with. lia.
Qed.

Lemma VectorScalarMul_length (a : list Z) (b : Z) (n : nat) :
  length a = n ->
  exists r, VectorScalarMul a b = (r, None) /\ length r = n.
Proof.
  intros Ha. unfold VectorScalarMul. eexists. split; [done|].
  by rewrite length_map.
Qed.

Lemma ScalarProduct_some (a b : list Z) (n : nat) :
  length a = n -> length b = n ->
  exists r, ScalarProduct a b = (Some r, None).
Proof.
  intros Ha Hb. unfold ScalarProduct.
  destruct (decide (length a = length b)); [|congruence]. eauto.
Qed.

Lemma Decompose_loop_length (k : nat) (x u : Z) :
  length (Decompose_loop k x u) = k.
Proof. revert x. induction k; intros x; simpl; [done|by rewrite IHk]. Qed.

Lemma Decompose_loop_binary (k : nat) (x : Z) :
  Forall (fun b => b = 0 \/ b = 1) (Decompose_loop k x 2).
Proof.
  revert x. induction k as [|k IH]; intros x; simpl; constructor; [|done].
  pose proof (Z.mod_pos_bound x 2 ltac:(lia)). lia.
Qed.

Lemma ComputeAR_binary (x : list Z) :
  Forall (fun b => b = 0 \/ b = 1) x ->
  exists r, ComputeAR x = (r, None) /\ length r = length x.
Proof.
  intros Hx. unfold ComputeAR.
  assert (exists r, ComputeAR_loop x = Some r /\ length r = length x)
    as (r & -> & Hr); [|by exists r].
  induction Hx as [|b x Hb _ (r & IH & Hr)]; simpl; [by exists []|].
  rewrite IH. destruct Hb as [-> | ->]; simpl; eexists; split; try done;
    simpl; by rewrite Hr.
Qed.

(** In range, the bit-decomposition returns n binary digits and no error. *)
Lemma Decompose_in_range (v n : Z) :
  0 <= n -> 0 <= v < 2 ^ n ->
  exists aL, Decompose v 2 n = Some (aL, None) /\
             length aL = Z.to_nat n /\
             Forall (fun b => b = 0 \/ b = 1) aL.
Proof.
  intros Hn Hv. unfold Decompose.
  destruct (n <? 0) eqn:?; [lia|].
  destruct (0 <=? v) eqn:?; [|lia]. destruct (v <? 2 ^ n) eqn:?; [|lia].
  simpl. eexists. split; [done|].
  split; [apply Decompose_loop_length|apply Decompose_loop_binary].
Qed.

Lemma wpv_rand_Int s (Q : Z -> state -> Prop) :
  0 < ORDER ->
  (forall r s', length (heap s') = length (heap s) -> Q r s') ->
  wp (rand_Int ORDER) s Q.
Proof.
  intros Hq HQ. apply wp_rand_Int; [done|].
  intros r s' _ Hs'. apply HQ. by rewrite Hs'.
Qed.

Lemma wpv_p256_ScalarMult_new a k s (Q : ptr -> state -> Prop) :
  valid s a ->
  (forall p s', (length (heap s) <= length (heap s'))%nat -> valid s' p ->
                Q p s') ->
  wp (p256_ScalarMult_new a k) s Q.
Proof.
  intros [va Ha] HQ. eapply wp_p256_ScalarMult_new; [done|].
  intros p s' [Hlen _] _ Hp _. apply HQ; [done|by eexists].
Qed.

Lemma wpv_p256_Multiply p a b s (Q : ptr -> state -> Prop) :
  valid s p -> valid s a -> valid s b ->
  (forall s', length (heap s') = length (heap s) -> Q p s') ->
  wp (p256_Multiply p a b) s Q.
Proof.
  intros [vp Hp] [va Ha] [vb Hb] HQ. eapply wp_p256_Multiply; [done..|].
  intros s' _ _ _ Hlen. by apply HQ.
Qed.

Lemma wpv_CommitG1 x r h s (Q : ptr * error -> state -> Prop) :
  valid s h ->
  (forall p s', (length (heap s) <= length (heap s'))%nat -> valid s' p ->
                Q (p, None) s') ->
  wp (CommitG1 x r h) s Q.
Proof.
  intros Hh HQ. unfold CommitG1.
  apply wp_bind, wp_p256_ScalarBaseMult_new. intros Cm s1 [Hl1 _] _ HCm _.
  apply wp_bind, wpv_p256_ScalarMult_new; [eapply valid_length; [|done]; lia|].
  intros Hr s2 Hl2 HHr.
  assert (valid s2 Cm) as HCm2
    by (eapply valid_length; [|by eexists]; lia).
  apply wp_bind, wpv_p256_Multiply; [done..|]. intros s3 Hl3.
  apply wp_ret. apply HQ; [lia|]. eapply valid_length; [|exact HCm2]. lia.
Qed.

Lemma wpv_CommitVector aL aR alpha G H g h (n : nat) s
    (Q : ptr * error -> state -> Prop) :
  valid s H -> Forall (valid s) g -> Forall (valid s) h ->
  (n <= length g)%nat -> (n <= length h)%nat ->
  (n <= length aL)%nat -> (n <= length aR)%nat ->
  (forall p s', (length (heap s) <= length (heap s'))%nat -> valid s' p ->
                Q (p, None) s') ->
  wp (CommitVector aL aR alpha G H g h (Z.of_nat n)) s Q.
Proof.
  intros HH Hg Hh Hng Hnh HnL HnR HQ. unfold CommitVector.
  apply wp_bind, wpv_p256_ScalarMult_new; [done|]. intros R s0 Hl0 HR.
  rewrite Nat2Z.id. apply wp_bind. eapply wp_mono.
  { apply (wp_for_loop (fun _ (_ : unit) s' =>
      (length (heap s0) <= length (heap s'))%nat)); [done|].
    intros j [] s1 Hj Hl1.
    destruct (lookup_lt_is_Some_2 g j ltac:(lia)) as [gi Hgi].
    destruct (lookup_lt_is_Some_2 h j ltac:(lia)) as [hi Hhi].
    destruct (lookup_lt_is_Some_2 aL j ltac:(lia)) as [aLi HaLi].
    destruct (lookup_lt_is_Some_2 aR j ltac:(lia)) as [aRi HaRi].
    pose proof (Forall_lookup_1 _ _ _ _ Hg Hgi) as Hvg.
    pose proof (Forall_lookup_1 _ _ _ _ Hh Hhi) as Hvh.
    apply wp_bind; eapply wp_need; [done|].
    apply wp_bind; eapply wp_need; [done|].
    apply wp_bind, wpv_p256_ScalarMult_new;
      [eapply valid_length; [|exact Hvg]; lia|].
    intros gaL s2 Hl2 HgaL.
    apply wp_bind; eapply wp_need; [done|].
    apply wp_bind; eapply wp_need; [done|].
    apply wp_bind, wpv_p256_ScalarMult_new;
      [eapply valid_length; [|exact Hvh]; lia|].
    intros haR s3 Hl3 HhaR.
    assert (valid s3 R) as HR3 by (eapply valid_length; [|exact HR]; lia).
    apply wp_bind, wpv_p256_Multiply;
      [done|done|eapply valid_length; [|exact HgaL]; lia|].
    intros s4 Hl4.
    apply wp_bind, wpv_p256_Multiply;
      [eapply valid_length; [|exact HR3]; lia
      |eapply valid_length; [|exact HR3]; lia
      |eapply valid_length; [|exact HhaR]; lia|].
    intros s5 Hl5. apply wp_ret. lia. }
  intros [] s' Hl'. apply wp_ret. apply HQ; [lia|].
  eapply valid_length; [|exact HR]. lia.
Qed.

Lemma wpv_CommitVectorBig aL aR alpha G H g h (n : nat) s
    (Q : ptr * error -> state -> Prop) :
  valid s H -> Forall (valid s) g -> Forall (valid s) h ->
  (n <= length g)%nat -> (n <= length h)%nat ->
  (n <= length aL)%nat -> (n <= length aR)%nat ->
  (forall p s', (length (heap s) <= length (heap s'))%nat -> valid s' p ->
                Q (p, None) s') ->
  wp (CommitVectorBig aL aR alpha G H g h (Z.of_nat n)) s Q.
Proof.
  intros HH Hg Hh Hng Hnh HnL HnR HQ. unfold CommitVectorBig.
  apply wp_bind, wpv_p256_ScalarMult_new; [done|]. intros R s0 Hl0 HR.
  rewrite Nat2Z.id. apply wp_bind. eapply wp_mono.
  { apply (wp_for_loop (fun _ (_ : unit) s' =>
      (length (heap s0) <= length (heap s'))%nat)); [done|].
    intros j [] s1 Hj Hl1.
    destruct (lookup_lt_is_Some_2 g j ltac:(lia)) as [gi Hgi].
    destruct (lookup_lt_is_Some_2 h j ltac:(lia)) as [hi Hhi].
    destruct (lookup_lt_is_Some_2 aL j ltac:(lia)) as [aLi HaLi].
    destruct (lookup_lt_is_Some_2 aR j ltac:(lia)) as [aRi HaRi].
    pose proof (Forall_lookup_1 _ _ _ _ Hg Hgi) as Hvg.
    pose proof (Forall_lookup_1 _ _ _ _ Hh Hhi) as Hvh.
    apply wp_bind; eapply wp_need; [done|].
    apply wp_bind; eapply wp_need; [done|].
    apply wp_bind, wpv_p256_ScalarMult_new;
      [eapply valid_length; [|exact Hvg]; lia|].
    intros t s2 Hl2 Ht.
    assert (valid s2 R) as HR2 by (eapply valid_length; [|exact HR]; lia).
    apply wp_bind, wpv_p256_Multiply; [done..|]. intros s3 Hl3.
    apply wp_bind; eapply wp_need; [done|].
    apply wp_bind; eapply wp_need; [done|].
    apply wp_bind, wpv_p256_ScalarMult_new;
      [eapply valid_length; [|exact Hvh]; lia|].
    intros t' s4 Hl4 Ht'.
    assert (valid s4 R) as HR4 by (eapply valid_length; [|exact HR]; lia).
    apply wp_bind, wpv_p256_Multiply; [done..|]. intros s5 Hl5.
    apply wp_ret. lia. }
  intros [] s' Hl'. apply wp_ret. apply HQ; [lia|].
  eapply valid_length; [|exact HR]. lia.
Qed.

Lemma wpv_VectorExp a b s (Q : ptr * error -> state -> Prop) :
  Forall (valid s) a -> length a = length b ->
  (forall p s', (length (heap s) <= length (heap s'))%nat -> valid s' p ->
                Q (p, None) s') ->
  wp (VectorExp a b) s Q.
Proof.
  intros Ha Hab HQ. destruct (Forall_valid_values _ _ Ha) as [va Hva].
  eapply wp_VectorExp; [done..|].
  intros p s' [Hl _] _ Hp. apply HQ; [done|by eexists].
Qed.

Lemma wpv_CommitInnerProduct g h a b s (Q : ptr * error -> state -> Prop) :
  Forall (valid s) g -> Forall (valid s) h ->
  length g = length a -> length h = length b ->
  (forall p s', (length (heap s) <= length (heap s'))%nat -> valid s' p ->
                Q (p, None) s') ->
  wp (CommitInnerProduct g h a b) s Q.
Proof.
  intros Hg Hh Hga Hhb HQ. unfold CommitInnerProduct.
  apply wp_bind, wpv_VectorExp; [done..|]. intros ga s1 Hl1 Hga1.
  apply wp_bind, wpv_VectorExp;
    [eapply Forall_valid_length; [|exact Hh]; lia|done|].
  intros hb s2 Hl2 [vhb Hhb2].
  destruct (valid_length s1 s2 ga Hl2 Hga1) as [vga Hga2].
  apply wp_bind. eapply wp_p256_Multiply_new; [done..|].
  intros r s3 [Hl3 _] _ Hr _. apply wp_ret. apply HQ; [lia|by eexists].
Qed.

(** The switched generators are as many valid points as there were
    generators. *)
Lemma wpv_switch_generators h (n : nat) yi s (Q : list ptr -> state -> Prop) :
  (1 <= n)%nat -> length h = n -> Forall (valid s) h ->
  (forall hp s', (length (heap s) <= length (heap s'))%nat ->
                 length hp = n -> Forall (valid s') hp -> Q hp s') ->
  wp (switch_generators h (Z.of_nat n) (Some yi)) s Q.
Proof.
  intros Hn Hlh Hh HQ. unfold switch_generators.
  apply wp_bind, wp_make; [lia|].
  destruct (Z.of_nat n =? 0) eqn:?; [lia|].
  apply wp_bind, wp_ret.
  destruct (lookup_lt_is_Some_2 h 0%nat ltac:(lia)) as [h0 Hh0].
  apply wp_bind; eapply wp_need; [done|].
  replace (Z.to_nat (Z.of_nat n - 1)) with (n - 1)%nat by lia.
  apply wp_bind. eapply wp_mono.
  { apply (wp_for_loop (fun j (st : list ptr * option Z) s' =>
      (length (heap s) <= length (heap s'))%nat /\
      length (fst st) = j /\ Forall (valid s') (fst st) /\
      exists e, snd st = Some e)).
    { simpl. split; [done|]. split; [done|]. split; [|eauto].
      constructor; [|done]. by eapply Forall_lookup_1. }
    intros j [hp expy] s1 Hj (Hl1 & Hlen & Hhp & e & He). simpl in *. subst expy.
    destruct (lookup_lt_is_Some_2 h j ltac:(lia)) as [hi Hhi].
    pose proof (Forall_lookup_1 _ _ _ _ Hh Hhi) as Hvh.
    apply wp_bind; eapply wp_need; [done|].
    apply wp_bind; eapply wp_need; [done|].
    apply wp_bind, wpv_p256_ScalarMult_new;
      [eapply valid_length; [|exact Hvh]; lia|].
    intros hpi s2 Hl2 Hhpi. unfold wp, bind, need, ret. simpl.
    split; [lia|]. split; [rewrite length_app; simpl; lia|].
    split; [|eauto]. apply Forall_app. split; [|by constructor].
    eapply Forall_valid_length; [|exact Hhp]. lia. }
  intros [hp expy] s' (Hl' & Hlen & Hhp & _). simpl in *.
  apply wp_ret. apply HQ; [done|lia|done].
Qed.

Ltac step_need := apply wp_bind; eapply wp_need; [reflexivity|]; cbv beta iota.

Ltac step_vec lem N H1 H2 :=
  let r := fresh "r" in
  let Hr := fresh "Hr" in
  destruct (lem _ _ N H1 H2) as (r & -> & Hr); cbv beta iota.

Ltac step_valid H :=
  first [ exact H | eapply valid_length; [|exact H]; lia
        | eapply Forall_valid_length; [|exact H]; lia ].

(** On parameters whose bit-width is a power of two, with as many valid
    generators, the range-proof [Prove] returns a proof and no error for
    every secret in range. *)
Lemma wp_bp_Prove (d : nat) zkrp v s :
  0 < ORDER -> hash_invertible ->
  bp_n zkrp = Z.of_nat (2 ^ d) ->
  length (bp_g zkrp) = (2 ^ d)%nat -> length (bp_h zkrp) = (2 ^ d)%nat ->
  Forall (valid s) (bp_g zkrp) -> Forall (valid s) (bp_h zkrp) ->
  valid s (bp_H zkrp) ->
  length (bip_g (bp_zkip zkrp)) = (2 ^ d)%nat ->
  Forall (valid s) (bip_g (bp_zkip zkrp)) ->
  valid s (bip_u (bp_zkip zkrp)) ->
  (Z.to_nat (bip_n (bp_zkip zkrp)) <= 2 ^ d)%nat ->
  0 <= v < 2 ^ bp_n zkrp ->
  wp (bp_Prove zkrp v) s (fun r s' => snd (snd r) = None).
Proof.
  intros Hq Hinv Hn Hlg Hlh Hg Hh HH Hlig Hig Hu Hipn Hv.
  set (N := (2 ^ d)%nat) in *.
  assert (1 <= N)%nat as HN by (subst N; clear; induction d; simpl; lia).
  unfold bp_Prove. cbv zeta. rewrite Hn in *.
  (* first phase *)
  apply wp_bind, wpv_rand_Int; [done|]. intros gamma s1 Hl1.
  apply wp_bind, wpv_CommitG1; [step_valid HH|]. intros V s2 Hl2 HV.
  destruct (Decompose_in_range v (Z.of_nat N) ltac:(lia) Hv)
    as (aL & -> & HlaL & Hbin). rewrite Nat2Z.id in HlaL.
  step_need.
  destruct (ComputeAR_binary aL Hbin) as (aR & -> & HlaR). cbv beta iota.
  apply wp_bind, wpv_rand_Int; [done|]. intros alpha s3 Hl3.
  apply wp_bind, wpv_CommitVector;
    [step_valid HH|step_valid Hg|step_valid Hh|lia..|].
  intros A s4 Hl4 HA.
  apply wp_bind, wpv_rand_Int; [done|]. intros rho s5 Hl5.
  apply wp_bind, wp_make; [lia|]. apply wp_bind, wp_make; [lia|].
  rewrite Nat2Z.id.
  apply wp_bind. eapply wp_mono.
  { apply (wp_for_loop (fun j (st : list Z * list Z) s' =>
      length (heap s') = length (heap s5) /\
      length (fst st) = j /\ length (snd st) = j)); [done|].
    intros j [sL sR] s6 Hj (Hl6 & HsL & HsR). cbv beta iota.
    apply wp_bind, wpv_rand_Int; [done|]. intros sLi s7 Hl7.
    apply wp_bind, wpv_rand_Int; [done|]. intros sRi s8 Hl8.
    apply wp_ret. simpl in *. rewrite !length_app. simpl. lia. }
  intros [sL sR] s6 (Hl6 & HsL & HsR). simpl in HsL, HsR. cbv beta iota.
  apply wp_bind, wpv_CommitVectorBig;
    [step_valid HH|step_valid Hg|step_valid Hh|lia..|].
  intros S' s7 Hl7 HS'.
  destruct (valid_length s4 s7 A ltac:(lia) HA) as [vA HvA].
  destruct HS' as [vS HvS].
  apply wp_bind. eapply wp_HashBP; [exact HvA|exact HvS|]. cbv beta iota.
  set (y := hash_scalar vA vS). set (z := hash_scalar vS vA).
  (* second phase *)
  apply wp_bind, wpv_rand_Int; [done|]. intros tau1 s8 Hl8.
  apply wp_bind, wpv_rand_Int; [done|]. intros tau2 s9 Hl9.
  step_need.
  unfold VectorCopy, PowerOf, VectorConvertToBig.
  destruct (Z.of_nat N <? 0) eqn:?; [lia|].
  rewrite HlaR, HlaL. destruct (Z.of_nat N <? Z.of_nat N) eqn:?; [lia|].
  rewrite Nat2Z.id.
  step_need. step_need. step_need. step_need.
  assert (length (replicate N z) = N) as Hvz by apply length_replicate.
  assert (length (PowerOf_loop N 1 y) = N) as Hvy by apply PowerOf_loop_length.
  assert (length (take N aL) = N) as HnaL by (rewrite length_take; lia).
  assert (length (take N aR) = N) as HnaR by (rewrite length_take; lia).
  assert (length (PowerOf_loop N 1 2) = N) as Hp2n by apply PowerOf_loop_length.
  step_vec VectorSub_length N HnaL Hvz. rename r into aLmvz, Hr into HaLmvz.
  step_vec VectorMul_length N Hvy HsR. rename r into ynsR, Hr into HynsR.
  destruct (ScalarProduct_some aLmvz ynsR N HaLmvz HynsR) as [sp1 ->].
  cbv beta iota. step_need.
  step_vec VectorAdd_length N HnaR Hvz. rename r into aRzn, Hr into HaRzn.
  step_vec VectorMul_length N Hvy HaRzn. rename r into ynaRzn, Hr into HynaRzn.
  step_need.
  destruct (VectorScalarMul_length (PowerOf_loop N 1 2) (Multiply z z) N Hp2n)
    as (z22n & -> & Hz22n). cbv beta iota.
  step_vec VectorAdd_length N HynaRzn Hz22n.
  rename r into ynaRzn', Hr into HynaRzn'.
  destruct (ScalarProduct_some sL ynaRzn' N HsL HynaRzn') as [sp2 ->].
  cbv beta iota. step_need. step_need.
  destruct (ScalarProduct_some sL ynsR N HsL HynsR) as [t2 ->].
  cbv beta iota. step_need.
  apply wp_bind, wpv_CommitG1; [step_valid HH|]. intros T1 s10 Hl10 HT1.
  apply wp_bind, wpv_CommitG1; [step_valid HH|]. intros T2 s11 Hl11 [vT2 HvT2].
  destruct (valid_length s10 s11 T1 ltac:(lia) HT1) as [vT1 HvT1].
  apply wp_bind. eapply wp_HashBP; [exact HvT1|exact HvT2|]. cbv beta iota.
  set (x := hash_scalar vT1 vT2).
  (* third phase *)
  step_need.
  destruct (VectorScalarMul_length sL x N HsL) as (sLx & -> & HsLx).
  cbv beta iota.
  step_vec VectorAdd_length N HaLmvz HsLx. rename r into bl, Hr into Hbl.
  destruct (VectorScalarMul_length sR x N HsR) as (sRx & -> & HsRx).
  cbv beta iota.
  step_vec VectorAdd_length N HaRzn HsRx. rename r into aRzn', Hr into HaRzn'.
  step_vec VectorMul_length N Hvy HaRzn'. rename r into yn', Hr into Hyn'.
  step_vec VectorAdd_length N Hyn' Hz22n. rename r into br, Hr into Hbr.
  destruct (ScalarProduct_some bl br N Hbl Hbr) as [tprime ->].
  cbv beta iota.
  destruct (ModInverse_challenge vA vS Hinv) as (yinv & _ & Hyinv & _).
  fold y in Hyinv. rewrite Hyinv.
  apply wp_bind, wpv_switch_generators; [done|done|step_valid Hh|].
  intros hprime s12 Hl12 Hlhp Hhp.
  step_need.
  apply wp_bind, wpv_CommitInnerProduct;
    [step_valid Hg|done|lia|lia|].
  intros commit s13 Hl13 Hcommit.
  apply wp_bind. eapply wp_mono.
  { apply (wp_bip_Prove d); simpl; try done; try lia.
    - step_valid Hig.
    - step_valid Hhp.
    - step_valid Hu. }
  intros [zkip' [proofip e]] s14 (proofip' & [= -> -> ->] & _).
  cbv beta iota. by apply wp_ret.
Qed.

(** *** Setup *)

(** [Setup] returns on every upper bound b >= 1 and stores the truncated
    binary logarithm of b as the bit-width. *)
Lemma bp_Setup_run (zkrp : bp) (a b : Z) (s : state) :
  0 < ORDER -> 0 <= bip_n (bp_zkip zkrp) -> 1 <= b ->
  wp (bp_Setup zkrp a b) s (fun zkrp' s' =>
    bp_n zkrp' = Z.log2 b /\ preserved s s' /\
    bip_n (bp_zkip zkrp') = bip_n (bp_zkip zkrp) /\
    bip_P (bp_zkip zkrp') = bip_P (bp_zkip zkrp)).
Proof.
  intros Hq Hip Hb. unfold bp_Setup.
  apply wp_bind, wp_p256_ScalarBaseMult_new. intros G s1 Hs1 _ HG _.
  apply wp_bind, wp_MapToGroup. intros H s2 Hs2 _ HH _.
  unfold Log2_int64. destruct (b <? 1) eqn:?; [lia|].
  apply wp_bind. eapply wp_need; [done|].
  pose proof (Z.log2_nonneg b) as Hlog.
  apply wp_bind, wp_make; [done|]. apply wp_bind, wp_make; [done|].
  apply wp_bind.
  eapply wp_mono.
  { apply (wp_for_loop (fun _ _ s' => preserved s2 s')); [apply preserved_refl|].
    intros j [g h] s3 _ Hs3.
    apply wp_bind, wp_rand_Int; [done|]. intros eg s4 _ Hs4.
    apply wp_bind, wp_rand_Int; [done|]. intros eh s5 _ Hs5.
    assert (preserved s2 s5) as Hs25.
    { destruct Hs3 as [Hl3 H3]. split; rewrite Hs5, Hs4; [done|]. exact H3. }
    apply wp_bind, wp_p256_ScalarBaseMult_new. intros gi s6 Hs6 _ _ _.
    apply wp_bind. eapply wp_p256_ScalarMult_new.
    { eapply points_to_preserved; [|exact HH]. preserved_chain. }
    intros hi s7 Hs7 _ _ _. apply wp_ret. preserved_chain. }
  intros [g h] s3 Hs3. simpl.
  unfold bip_Setup.
  apply wp_bind, wp_bind, wp_make; [done|]. apply wp_bind, wp_make; [done|].
  apply wp_bind, wp_MapToGroup. intros u s4 Hs4 _ _ _.
  apply wp_ret. simpl. apply wp_ret. simpl.
  split; [done|]. split; [preserved_chain|done].
Qed.

(** C5.  For every pair of points P, Q behind valid pointers, [HashBP]
    returns the scalars s₁ = SHA-256(encode(P) || encode(Q)) and
    s₂ = SHA-256(encode(Q) || encode(P)), each read big-endian and reduced
    mod q, with a nil error and without touching the store. *)
Theorem HashBP_scalars (A S : ptr) (s : state) (P Q : point) :
  points_to s A P -> points_to s S Q ->
  HashBP A S s
  = Ret (Some (be_to_Z (sha256_Sum (encode P ++ encode Q)) mod ORDER),
         Some (be_to_Z (sha256_Sum (encode Q ++ encode P)) mod ORDER),
         None) s.
Proof. apply HashBP_run. Qed.

(** C9 (amended).  For every upper bound 1 < b < 2^32 passed to [Setup],
    the bit-width stored in the parameters is n = ⌊log₂ b⌋, the logarithm
    with its fraction dropped; it is ⌈log₂ b⌉ when b is a power of two. *)
Theorem bp_Setup_bit_width (zkrp : bp) (a b : Z) (s : state) :
  0 < ORDER -> 0 <= bip_n (bp_zkip zkrp) -> 1 < b < 2 ^ 32 ->
  exists zkrp' s',
    bp_Setup zkrp a b s = Ret zkrp' s' /\
    bp_n zkrp' = Z.log2 b /\
    (b = 2 ^ Z.log2 b -> bp_n zkrp' = Z.log2_up b).
Proof.
  intros Hq Hip Hb.
  destruct (wp_run _ _ _ (bp_Setup_run zkrp a b s Hq Hip ltac:(lia)))
    as (zkrp' & s' & Hrun & Hn & _).
  exists zkrp', s'. split; [done|]. split; [done|].
  intros Hpow. rewrite Hn. pose proof (Z.log2_nonneg b) as Hk.
  revert Hpow Hk. generalize (Z.log2 b). intros k -> Hk.
  by rewrite Z.log2_up_pow2.
Qed.

(** C10 (amended).  The inner product [Prove] multiplies the caller's point
    P in place by (u^x)^c, x the Fiat–Shamir scalar and c the stored claim,
    before it compares the lengths of a and b: when it returns the length
    error, the point behind the caller's P has changed.  The parameter
    struct is returned as it was, its field P included, and every other
    point of the store is unchanged. *)
Theorem bip_Prove_mismatch_not_atomic (zkip : bip) (a b : list Z) (P : ptr)
    (s s1 : state) (x : Z) (e : error) (vP vu : point) :
  length a <> length b ->
  HashIP (bip_g zkip) (bip_h zkip) P (bip_c zkip) (bip_n zkip) s
  = Ret (x, e) s1 ->
  points_to s P vP -> points_to s (bip_u zkip) vu ->
  exists s',
    bip_Prove zkip a b P s
    = Ret (zkip, (proofBip_zero, Some err_ip_size)) s' /\
    points_to s' P
      (pt_Multiply vP (pt_ScalarMult (pt_ScalarMult vu x) (bip_c zkip))) /\
    (forall q v, points_to s q v -> q <> P -> points_to s' q v).
Proof. apply bip_Prove_mismatch_run. Qed.

(** C6 (amended).  With generators that are 2^d valid points and challenges
    that have inverses, the inner product [Prove] returns the length error
    whenever |a| ≠ |b| and returns a proof with a nil error when
    |a| = |b| = 2^d.  It has no other error: whatever error it returns is
    the length error, on vectors of different lengths. *)
Theorem bip_Prove_errors (d : nat) (zkip : bip) (a b : list Z) (P : ptr)
    (s : state) :
  0 < ORDER -> hash_invertible ->
  length (bip_g zkip) = (2 ^ d)%nat -> length (bip_h zkip) = (2 ^ d)%nat ->
  Forall (valid s) (bip_g zkip) -> Forall (valid s) (bip_h zkip) ->
  valid s (bip_u zkip) -> valid s P ->
  (Z.to_nat (bip_n zkip) <= 2 ^ d)%nat ->
  (length a <> length b ->
   exists s', bip_Prove zkip a b P s
              = Ret (zkip, (proofBip_zero, Some err_ip_size)) s')
  /\ (length a = (2 ^ d)%nat -> length b = (2 ^ d)%nat ->
      exists proof s',
        bip_Prove zkip a b P s = Ret (set_bip_P zkip P, (proof, None)) s' /\
        pip_n proof = Z.of_nat (2 ^ d))
  /\ (forall zkip' proof e s',
        bip_Prove zkip a b P s = Ret (zkip', (proof, Some e)) s' ->
        e = err_ip_size /\ length a <> length b).
Proof.
  intros Hq Hinv Hlg Hlh Hg Hh Hu HP Hn. split; [|split].
  - intros Hlen.
    destruct (wp_run _ _ _
      (wp_HashIP (bip_g zkip) (bip_h zkip) P (bip_c zkip) (bip_n zkip) s
         (fun r s' => s' = s /\ snd r = None) HP Hg Hh ltac:(lia) ltac:(lia)
         (fun x => conj eq_refl eq_refl)))
      as ([x e] & s1 & Hhash & -> & _).
    destruct Hu as [vu Hu], HP as [vP HP].
    destruct (bip_Prove_mismatch_run zkip a b P s x e s vP vu Hlen Hhash HP Hu)
      as (s' & Hrun & _). eauto.
  - intros Hla Hlb.
    destruct (wp_run _ _ _
      (wp_bip_Prove d zkip a b P s Hq Hinv Hla Hlb Hlg Hlh Hg Hh Hu HP Hn))
      as (r & s' & Hrun & proof & -> & Hpn & _). eauto.
  - intros zkip' proof e s'. apply bip_Prove_error_inv.
Qed.


(** C2 (amended).  The range-proof [Prove] never returns an OutOfRange
    error: for every integer v, in range or not, a call that returns has a
    nil error (the error of the bit-decomposition is dropped).  On
    parameters whose bit-width n is a power of two, with n valid generators
    in each vector and challenges that have inverses, [Prove] succeeds for
    every v in [0, 2ⁿ), in particular for v = 2ⁿ − 1. *)
Theorem bp_Prove_range (d : nat) (zkrp : bp) (s : state) :
  0 < ORDER -> hash_invertible ->
  bp_n zkrp = Z.of_nat (2 ^ d) ->
  length (bp_g zkrp) = (2 ^ d)%nat -> length (bp_h zkrp) = (2 ^ d)%nat ->
  Forall (valid s) (bp_g zkrp) -> Forall (valid s) (bp_h zkrp) ->
  valid s (bp_H zkrp) ->
  length (bip_g (bp_zkip zkrp)) = (2 ^ d)%nat ->
  Forall (valid s) (bip_g (bp_zkip zkrp)) ->
  valid s (bip_u (bp_zkip zkrp)) ->
  (Z.to_nat (bip_n (bp_zkip zkrp)) <= 2 ^ d)%nat ->
  (forall v, 0 <= v < 2 ^ bp_n zkrp ->
     exists zkrp' proof s',
       bp_Prove zkrp v s = Ret (zkrp', (proof, None)) s')
  /\ (exists zkrp' proof s',
        bp_Prove zkrp (2 ^ bp_n zkrp - 1) s = Ret (zkrp', (proof, None)) s')
  /\ (forall v zkrp' proof e s',
        bp_Prove zkrp v s = Ret (zkrp', (proof, e)) s' -> e = None).
Proof.
  intros Hq Hinv Hn Hlg Hlh Hg Hh HH Hlig Hig Hu Hipn.
  assert (forall v, 0 <= v < 2 ^ bp_n zkrp ->
            exists zkrp' proof s',
              bp_Prove zkrp v s = Ret (zkrp', (proof, None)) s') as Hin.
  { intros v Hv.
    destruct (wp_run _ _ _
      (wp_bp_Prove d zkrp v s Hq Hinv Hn Hlg Hlh Hg Hh HH Hlig Hig Hu Hipn Hv))
      as ([zkrp' [proof e]] & s' & Hrun & He).
    simpl in He. subst e. eauto. }
  split; [exact Hin|]. split.
  - apply Hin. rewrite Hn.
    assert (0 < 2 ^ Z.of_nat (2 ^ d)) by (apply Z.pow_pos_nonneg; lia). lia.
  - intros v zkrp' proof e s' Hrun.
    by apply bp_Prove_Ret_inv in Hrun as [-> _].
Qed.

(** *** The helpers on vectors of points *)

(** [VectorExp] multiplies up Π a[i]^b[i] in a point of its own: on valid
    points and as many exponents it returns a new pointer to the product and
    leaves every point of the store as it was; on vectors of different
    lengths it returns a nil pointer and the size error, and does not touch
    the store. *)
Theorem VectorExp_product (a : list ptr) (b : list Z) (va : list point)
    (s : state) :
  Forall2 (points_to s) a va ->
  (length a = length b ->
     exists p s', VectorExp a b s = Ret (p, None) s' /\ fresh s p /\
                  points_to s' p (prod_exp va b) /\ preserved s s')
  /\ (length a <> length b -> VectorExp a b s = Ret (None, Some err_size) s).
Proof.
  intros Ha. split.
  - intros Hlen.
    destruct (wp_run _ _ _ (wp_VectorExp a b va s (fun r s' =>
      snd r = None /\ fresh s (fst r) /\ points_to s' (fst r) (prod_exp va b)
      /\ preserved s s') Ha Hlen
      (fun p s' H1 H2 H3 => conj eq_refl (conj H2 (conj H3 H1)))))
      as ([p e] & s' & Hrun & He & H1 & H2 & H3).
    simpl in *. subst e. eauto 10.
  - intros Hlen. unfold VectorExp.
    by destruct (decide (length a = length b)).
Qed.

(** [VectorScalarExp] never returns an error: on valid points it returns as
    many new pointers, the i-th to a[i]^b, and leaves every point of the
    store as it was. *)
Theorem VectorScalarExp_powers (a : list ptr) (b : Z) (va : list point)
    (s : state) :
  Forall2 (points_to s) a va ->
  exists r s', VectorScalarExp a b s = Ret (r, None) s' /\
    Forall (fresh s) r /\
    Forall2 (points_to s') r (map (fun v => pt_ScalarMult v b) va) /\
    preserved s s'.
Proof.
  intros Ha.
  destruct (wp_run _ _ _ (wp_VectorScalarExp a b va s (fun r s' =>
    snd r = None /\ Forall (fresh s) (fst r) /\
    Forall2 (points_to s') (fst r) (map (fun v => pt_ScalarMult v b) va)
    /\ preserved s s') Ha
    (fun p s' H1 H2 H3 => conj eq_refl (conj H2 (conj H3 H1)))))
    as ([r e] & s' & Hrun & He & H1 & H2 & H3).
  simpl in *. subst e. eauto 10.
Qed.

(** [VectorECAdd] multiplies two vectors of points entry by entry into new
    points and leaves every point of the store as it was; on vectors of
    different lengths it returns a nil slice and the size error. *)
Theorem VectorECAdd_products (a b : list ptr) (va vb : list point)
    (s : state) :
  Forall2 (points_to s) a va -> Forall2 (points_to s) b vb ->
  (length a = length b ->
     exists r s', VectorECAdd a b s = Ret (r, None) s' /\
       Forall (fresh s) r /\
       Forall2 (points_to s') r (zip_with pt_Multiply va vb) /\
       preserved s s')
  /\ (length a <> length b -> VectorECAdd a b s = Ret ([], Some err_size) s).
Proof.
  intros Ha Hb. split.
  - intros Hlen.
    destruct (wp_run _ _ _ (wp_VectorECAdd a b va vb s (fun r s' =>
      snd r = None /\ Forall (fresh s) (fst r) /\
      Forall2 (points_to s') (fst r) (zip_with pt_Multiply va vb)
      /\ preserved s s') Ha Hb Hlen
      (fun p s' H1 H2 H3 => conj eq_refl (conj H2 (conj H3 H1)))))
      as ([r e] & s' & Hrun & He & H1 & H2 & H3).
    simpl in *. subst e. eauto 10.
  - intros Hlen. unfold VectorECAdd.
    by destruct (decide (length a = length b)).
Qed.

(** *** Commitments *)

Lemma commit_lookup (gv hv : list point) (aL aR : list Z) (j : nat) vg vh x y :
  gv !! j = Some vg -> hv !! j = Some vh -> aL !! j = Some x ->
  aR !! j = Some y ->
  zip (zip gv aL) (zip hv aR) !! j = Some (vg, x, (vh, y)).
Proof.
  intros Hg Hh Hx Hy. rewrite !lookup_zip_with, Hg. simpl.
  rewrite Hx. simpl. rewrite Hh. simpl. by rewrite Hy.
Qed.

Lemma wp_CommitVector aL aR alpha G H g h (n : nat) Hv gv hv s
    (Q : ptr * error -> state -> Prop) :
  points_to s H Hv ->
  Forall2 (points_to s) g gv -> Forall2 (points_to s) h hv ->
  (n <= length g)%nat -> (n <= length h)%nat ->
  (n <= length aL)%nat -> (n <= length aR)%nat ->
  (forall R s', preserved s s' -> fresh s R ->
                points_to s' R (commit_value Hv alpha gv hv aL aR n) ->
                Q (R, None) s') ->
  wp (CommitVector aL aR alpha G H g h (Z.of_nat n)) s Q.
Proof.
  intros HH Hg Hh Hng Hnh HnL HnR HQ. unfold CommitVector.
  apply wp_bind. eapply wp_p256_ScalarMult_new; [exact HH|].
  intros R s0 Hs0 HRf HR _. rewrite Nat2Z.id.
  apply wp_bind. eapply wp_mono.
  { apply (wp_for_loop (fun j (_ : unit) s' =>
      preserved s s' /\
      points_to s' R (commit_value Hv alpha gv hv aL aR j))).
    { by split. }
    intros j [] s1 Hj (Hs1 & Hacc).
    destruct (lookup_lt_is_Some_2 g j ltac:(lia)) as [gi Hgi].
    destruct (lookup_lt_is_Some_2 h j ltac:(lia)) as [hi Hhi].
    destruct (lookup_lt_is_Some_2 aL j ltac:(lia)) as [x Hx].
    destruct (lookup_lt_is_Some_2 aR j ltac:(lia)) as [y Hy].
    destruct (Forall2_lookup_l _ _ _ _ _ Hg Hgi) as (vg & Hvg & Hpg).
    destruct (Forall2_lookup_l _ _ _ _ _ Hh Hhi) as (vh & Hvh & Hph).
    apply wp_bind. eapply wp_need; [done|].
    apply wp_bind. eapply wp_need; [done|].
    apply wp_bind. eapply wp_p256_ScalarMult_new.
    { eapply points_to_preserved; [exact Hs1|exact Hpg]. }
    intros gaL s2 Hs2 HgaLf HgaL _.
    apply wp_bind. eapply wp_need; [done|].
    apply wp_bind. eapply wp_need; [done|].
    apply wp_bind. eapply wp_p256_ScalarMult_new.
    { eapply points_to_preserved; [|exact Hph]. preserved_chain. }
    intros haR s3 Hs3 HhaRf HhaR _.
    assert (points_to s3 R (commit_value Hv alpha gv hv aL aR j)) as HR3.
    { eapply points_to_preserved; [|exact Hacc]. preserved_chain. }
    apply wp_bind. eapply wp_p256_Multiply; [exact HR3|exact HR3| |].
    { eapply points_to_preserved; [exact Hs3|exact HgaL]. }
    intros s4 HR4 Hframe4 Hsnap4 _.
    assert (haR <> R) as Hne.
    { intros ->. eapply (fresh_neq s2 R R); [|exact HhaRf|done].
      eapply points_to_preserved; [exact Hs2|exact Hacc]. }
    apply wp_bind. eapply wp_p256_Multiply; [exact HR4|exact HR4| |].
    { by apply Hframe4. }
    intros s5 HR5 _ Hsnap5 _. apply wp_ret. split.
    - apply Hsnap5; [|done]. apply Hsnap4; [|done]. preserved_chain.
    - unfold commit_value.
      rewrite (take_S_r _ _ _ (commit_lookup _ _ _ _ _ _ _ _ _ Hvg Hvh Hx Hy)).
      by rewrite fold_left_app. }
  intros [] s' (Hs' & Hacc). apply wp_ret. simpl in Hacc. by apply HQ.
Qed.

Lemma wp_CommitVectorBig aL aR alpha G H g h (n : nat) Hv gv hv s
    (Q : ptr * error -> state -> Prop) :
  points_to s H Hv ->
  Forall2 (points_to s) g gv -> Forall2 (points_to s) h hv ->
  (n <= length g)%nat -> (n <= length h)%nat ->
  (n <= length aL)%nat -> (n <= length aR)%nat ->
  (forall R s', preserved s s' -> fresh s R ->
                points_to s' R (commit_value Hv alpha gv hv aL aR n) ->
                Q (R, None) s') ->
  wp (CommitVectorBig aL aR alpha G H g h (Z.of_nat n)) s Q.
Proof.
  intros HH Hg Hh Hng Hnh HnL HnR HQ. unfold CommitVectorBig.
  apply wp_bind. eapply wp_p256_ScalarMult_new; [exact HH|].
  intros R s0 Hs0 HRf HR _. rewrite Nat2Z.id.
  apply wp_bind. eapply wp_mono.
  { apply (wp_for_loop (fun j (_ : unit) s' =>
      preserved s s' /\
      points_to s' R (commit_value Hv alpha gv hv aL aR j))).
    { by split. }
    intros j [] s1 Hj (Hs1 & Hacc).
    destruct (lookup_lt_is_Some_2 g j ltac:(lia)) as [gi Hgi].
    destruct (lookup_lt_is_Some_2 h j ltac:(lia)) as [hi Hhi].
    destruct (lookup_lt_is_Some_2 aL j ltac:(lia)) as [x Hx].
    destruct (lookup_lt_is_Some_2 aR j ltac:(lia)) as [y Hy].
    destruct (Forall2_lookup_l _ _ _ _ _ Hg Hgi) as (vg & Hvg & Hpg).
    destruct (Forall2_lookup_l _ _ _ _ _ Hh Hhi) as (vh & Hvh & Hph).
    apply wp_bind. eapply wp_need; [done|].
    apply wp_bind. eapply wp_need; [done|].
    apply wp_bind. eapply wp_p256_ScalarMult_new.
    { eapply points_to_preserved; [exact Hs1|exact Hpg]. }
    intros t s2 Hs2 Htf Ht _.
    assert (points_to s2 R (commit_value Hv alpha gv hv aL aR j)) as HR2.
    { eapply points_to_preserved; [exact Hs2|exact Hacc]. }
    apply wp_bind. eapply wp_p256_Multiply; [exact HR2|exact HR2|exact Ht|].
    intros s3 HR3 Hframe3 Hsnap3 _.
    assert (preserved s s3) as Hs03.
    { apply Hsnap3; [|done]. preserved_chain. }
    apply wp_bind. eapply wp_need; [done|].
    apply wp_bind. eapply wp_need; [done|].
    apply wp_bind. eapply wp_p256_ScalarMult_new.
    { eapply points_to_preserved; [exact Hs03|exact Hph]. }
    intros t' s4 Hs4 Ht'f Ht' _.
    assert (points_to s4 R
              (pt_Multiply (commit_value Hv alpha gv hv aL aR j)
                           (pt_ScalarMult vg x))) as HR4.
    { eapply points_to_preserved; [exact Hs4|exact HR3]. }
    apply wp_bind. eapply wp_p256_Multiply; [exact HR4|exact HR4|exact Ht'|].
    intros s5 HR5 _ Hsnap5 _. apply wp_ret. split.
    - apply Hsnap5; [|done]. preserved_chain.
    - unfold commit_value.
      rewrite (take_S_r _ _ _ (commit_lookup _ _ _ _ _ _ _ _ _ Hvg Hvh Hx Hy)).
      by rewrite fold_left_app. }
  intros [] s' (Hs' & Hacc). apply wp_ret. simpl in Hacc. by apply HQ.
Qed.

(** [CommitVector] and [CommitVectorBig] compute one and the same commitment
    H^alpha · Π g[i]^aL[i] · h[i]^aR[i] over the first n indices, in a new
    point, with a nil error; every point of the store stays as it was, and
    the parameter G plays no part. *)
Theorem CommitVector_commitment (aL aR : list Z) (alpha : Z) (G G' H : ptr)
    (g h : list ptr) (n : nat) (Hv : point) (gv hv : list point) (s : state) :
  points_to s H Hv ->
  Forall2 (points_to s) g gv -> Forall2 (points_to s) h hv ->
  (n <= length g)%nat -> (n <= length h)%nat ->
  (n <= length aL)%nat -> (n <= length aR)%nat ->
  (exists R s',
      CommitVector aL aR alpha G H g h (Z.of_nat n) s = Ret (R, None) s' /\
      fresh s R /\ preserved s s' /\
      points_to s' R (commit_value Hv alpha gv hv aL aR n))
  /\ (exists R s',
      CommitVectorBig aL aR alpha G H g h (Z.of_nat n) s = Ret (R, None) s' /\
      fresh s R /\ preserved s s' /\
      points_to s' R (commit_value Hv alpha gv hv aL aR n))
  /\ CommitVector aL aR alpha G' H g h (Z.of_nat n) s
     = CommitVector aL aR alpha G H g h (Z.of_nat n) s
  /\ CommitVectorBig aL aR alpha G' H g h (Z.of_nat n) s
     = CommitVectorBig aL aR alpha G H g h (Z.of_nat n) s.
Proof.
  intros HH Hg Hh Hng Hnh HnL HnR. split; [|split; [|done]].
  - destruct (wp_run _ _ _ (wp_CommitVector aL aR alpha G H g h n Hv gv hv s
      (fun r s' => snd r = None /\ fresh s (fst r) /\ preserved s s' /\
         points_to s' (fst r) (commit_value Hv alpha gv hv aL aR n))
      HH Hg Hh Hng Hnh HnL HnR
      (fun R s' H1 H2 H3 => conj eq_refl (conj H2 (conj H1 H3)))))
      as ([R e] & s' & Hrun & He & H1 & H2 & H3).
    simpl in *. subst e. eauto 10.
  - destruct (wp_run _ _ _ (wp_CommitVectorBig aL aR alpha G H g h n Hv gv hv s
      (fun r s' => snd r = None /\ fresh s (fst r) /\ preserved s s' /\
         points_to s' (fst r) (commit_value Hv alpha gv hv aL aR n))
      HH Hg Hh Hng Hnh HnL HnR
      (fun R s' H1 H2 H3 => conj eq_refl (conj H2 (conj H1 H3)))))
      as ([R e] & s' & Hrun & He & H1 & H2 & H3).
    simpl in *. subst e. eauto 10.
Qed.

Lemma load_None s : load None s = Panic.
Proof. done. Qed.

(** [CommitInnerProduct] returns g^a · h^b in a new point when each vector
    of points has as many exponents.  It drops the size error of
    [VectorExp]: with a vector of another length it multiplies the nil
    pointer that comes back, a run-time panic, and returns no error. *)
Theorem CommitInnerProduct_product (g h : list ptr) (a b : list Z)
    (gv hv : list point) (s : state) :
  Forall2 (points_to s) g gv -> Forall2 (points_to s) h hv ->
  (length g = length a -> length h = length b ->
     exists p s', CommitInnerProduct g h a b s = Ret (p, None) s' /\
       fresh s p /\ preserved s s' /\
       points_to s' p (pt_Multiply (prod_exp gv a) (prod_exp hv b)))
  /\ (length g <> length a \/ length h <> length b ->
        CommitInnerProduct g h a b s = Panic).
Proof.
  intros Hg Hh. split.
  - intros Hga Hhb.
    assert (wp (CommitInnerProduct g h a b) s (fun r s' =>
      snd r = None /\ fresh s (fst r) /\ preserved s s' /\
      points_to s' (fst r) (pt_Multiply (prod_exp gv a) (prod_exp hv b))))
      as Hwp.
    { unfold CommitInnerProduct.
      apply wp_bind. eapply wp_VectorExp; [exact Hg|done|].
      intros ga s1 Hs1 _ Hga1. cbv beta iota.
      apply wp_bind. eapply wp_VectorExp;
        [eapply Forall2_points_to_preserved; [exact Hs1|exact Hh]|done|].
      intros hb s2 Hs2 _ Hhb2. cbv beta iota.
      apply wp_bind. eapply wp_p256_Multiply_new;
        [eapply points_to_preserved; [exact Hs2|exact Hga1]|exact Hhb2|].
      intros r s3 Hs3 Hrf Hr _. apply wp_ret. simpl.
      split; [done|]. split; [|split; [preserved_chain|done]].
      eapply fresh_preserved; [|exact Hrf]. preserved_chain. }
    destruct (wp_run _ _ _ Hwp) as ([p e] & s' & Hrun & He & H1 & H2 & H3).
    simpl in *. subst e. eauto 10.
  - intros Hlen. unfold CommitInnerProduct.
    destruct (decide (length g = length a)) as [Hga|Hga].
    + destruct Hlen as [Hlen|Hhb]; [done|].
      destruct (wp_run _ _ _ (wp_VectorExp g a gv s (fun r s' =>
        preserved s s' /\ valid s' (fst r)) Hg Hga
        (fun p s' H1 _ H3 => conj H1 (ex_intro _ _ H3))))
        as ([ga e] & s1 & Hrun & Hs1 & [vga Hga1]).
      unfold bind at 1. rewrite Hrun.
      unfold bind at 1. unfold VectorExp at 1.
      destruct (decide (length h = length b)); [done|].
      unfold ret. unfold p256_Multiply_new, bind.
      simpl in Hga1. by rewrite (load_run _ _ _ Hga1).
    + unfold bind at 1. unfold VectorExp at 1.
      destruct (decide (length g = length a)); [done|]. unfold ret.
      unfold bind at 1.
      destruct (decide (length h = length b)) as [Hhb|Hhb].
      * destruct (wp_run _ _ _ (wp_VectorExp h b hv s (fun _ _ => True) Hh Hhb
          (fun _ _ _ _ _ => I))) as ([hb e] & s1 & -> & _).
        done.
      * unfold VectorExp. by destruct (decide (length h = length b)).
Qed.

(** *** Loops *)

Lemma for_loop_ext {St} k i (body body' : nat -> St -> M St) acc s :
  (forall j acc s, (i <= j < i + k)%nat -> body j acc s = body' j acc s) ->
  for_loop k i body acc s = for_loop k i body' acc s.
Proof.
  revert i acc s. induction k as [|k IH]; intros i acc s Hbody; [done|].
  simpl. unfold bind. rewrite Hbody by lia.
  destruct (body' i acc s) as [acc' s'| |]; [|done|done].
  apply IH. intros j acc0 s0 Hj. apply Hbody. lia.
Qed.

Lemma for_loop_Ret_body {St} k i (body : nat -> St -> M St) acc s r s' :
  for_loop k i body acc s = Ret r s' ->
  forall j, (i <= j < i + k)%nat ->
    exists acc1 s1 acc2 s2, body j acc1 s1 = Ret acc2 s2.
Proof.
  revert i acc s. induction k as [|k IH]; intros i acc s H j Hj; [lia|].
  simpl in H. apply bind_Ret_inv in H as (acc1 & s1 & Hb & H).
  destruct (decide (j = i)) as [->|Hne]; [eauto 10|].
  eapply IH; [exact H|lia].
Qed.

(** *** The challenge of the inner product argument *)

(** [HashIP] reads the point P, the first n generators of each vector and
    the scalar c, and nothing else: two calls that agree on these return the
    same.  A call that returns has found n generators in each vector and
    has left the store as it was. *)
Theorem HashIP_reads_prefix (g h g' h' : list ptr) (P : ptr) (c n : Z)
    (s : state) :
  (take (Z.to_nat n) g' = take (Z.to_nat n) g ->
   take (Z.to_nat n) h' = take (Z.to_nat n) h ->
   HashIP g' h' P c n s = HashIP g h P c n s)
  /\ (forall r s', HashIP g h P c n s = Ret r s' ->
        s' = s /\ (Z.to_nat n <= length g)%nat /\
        (Z.to_nat n <= length h)%nat /\ valid s P).
Proof.
  split.
  - intros Hg Hh. unfold HashIP, bind.
    destruct (p256_String P s) as [sP s1| |]; [|done|done].
    rewrite (for_loop_ext _ _ _ (fun i digest =>
               gi <- need (g !! i) ;;
               sg <- p256_String gi ;;
               hi <- need (h !! i) ;;
               sh <- p256_String hi ;;
               ret (digest ++ list_byte_of_string sg ++ list_byte_of_string sh)));
      [done|].
    intros j acc s0 Hj.
    assert (g' !! j = g !! j) as ->.
    { rewrite <- (lookup_take_lt g' (Z.to_nat n) j) by lia.
      rewrite Hg. apply lookup_take_lt. lia. }
    assert (h' !! j = h !! j) as ->; [|done].
    rewrite <- (lookup_take_lt h' (Z.to_nat n) j) by lia.
    rewrite Hh. apply lookup_take_lt. lia.
  - intros r s' H. split; [by eapply HashIP_state|].
    unfold HashIP in H.
    apply bind_Ret_inv in H as (sP & s1 & HP & H).
    apply bind_Ret_inv in H as (digest & s2 & Hloop & _).
    assert (forall j, (j < Z.to_nat n)%nat -> is_Some (g !! j) /\ is_Some (h !! j))
      as Hall.
    { intros j Hj.
      destruct (for_loop_Ret_body _ _ _ _ _ _ _ Hloop j ltac:(lia))
        as (acc1 & s3 & acc2 & s4 & Hb).
      apply bind_Ret_inv in Hb as (gi & s5 & [Hgi _]%need_Ret_inv & Hb).
      apply bind_Ret_inv in Hb as (sg & s6 & _ & Hb).
      apply bind_Ret_inv in Hb as (hi & s7 & [Hhi _]%need_Ret_inv & _).
      split; by eexists. }
    split; [|split].
    + destruct (Z.to_nat n) as [|k]; [lia|].
      destruct (Hall k ltac:(lia)) as [[gi Hgi%lookup_lt_Some] _]. lia.
    + destruct (Z.to_nat n) as [|k]; [lia|].
      destruct (Hall k ltac:(lia)) as [_ [hi Hhi%lookup_lt_Some]]. lia.
    + unfold p256_String in HP.
      apply bind_Ret_inv in HP as (v & s3 & [Hv _]%load_Ret_inv & _).
      by exists v.
Qed.

(** *** Degenerate lengths *)

Lemma BIP_fuel_nonpositive fuel : forall n a b g h u P Ls Rs s r s',
  n <= 0 -> BIP_fuel fuel a b g h u P n Ls Rs s <> Ret r s'.
Proof.
  induction fuel as [|fuel IH]; intros n a b g h u P Ls Rs s r s' Hn H; [done|].
  simpl in H. destruct (n =? 1) eqn:?; [lia|].
  apply bind_Ret_inv in H as (proof & s1 & H & _).
  apply bind_Ret_inv in H as (rd & s2 & _ & H).
  apply bind_Ret_inv in H as (r2 & s3 & H & _).
  apply IH in H; [done|].
  pose proof (Z.quot_le_mono n 0 2 ltac:(lia) Hn) as Hq.
  by rewrite Z.quot_0_l in Hq.
Qed.

(** The recursion of [BIP] has no end for a length n <= 0: whatever the
    depth it is given, it does not return.  So the inner product [Prove]
    does not return on empty vectors. *)
Theorem bip_Prove_empty_never_returns (zkip : bip) (P : ptr) (s : state)
    (fuel : nat) (n : Z) (a b : list Z) (g h : list ptr) (u P' : ptr)
    (Ls Rs : list ptr) (s0 : state) :
  (forall r s', bip_Prove zkip [] [] P s <> Ret r s')
  /\ (n <= 0 ->
      forall r s', BIP_fuel fuel a b g h u P' n Ls Rs s0 <> Ret r s').
Proof.
  split.
  - intros r s' H. unfold bip_Prove in H. inv_run H. simpl in H.
    apply bind_Ret_inv in H as (r2 & s3 & H & _).
    unfold BIP in H. by apply BIP_fuel_nonpositive in H.
  - intros Hn r s'. by apply BIP_fuel_nonpositive.
Qed.

Lemma switch_generators_zero h yinv s r s' :
  switch_generators h 0 yinv s <> Ret r s'.
Proof. done. Qed.

(** [Setup] accepts the upper bound b = 1 and stores the bit-width 0; on
    parameters of bit-width 0 neither [Prove] nor [Verify] returns: both
    index the first generator of an empty vector. *)
Theorem bp_Setup_one_unusable (zkrp : bp) (a : Z) (s : state) :
  0 < ORDER -> 0 <= bip_n (bp_zkip zkrp) ->
  exists zkrp' s',
    bp_Setup zkrp a 1 s = Ret zkrp' s' /\ bp_n zkrp' = 0 /\
    (forall v s1 r s2, bp_Prove zkrp' v s1 <> Ret r s2) /\
    (forall proof s1 r s2, bp_Verify zkrp' proof s1 <> Ret r s2).
Proof.
  intros Hq Hn.
  destruct (wp_run _ _ _ (bp_Setup_run zkrp a 1 s Hq Hn ltac:(lia)))
    as (zkrp' & s' & Hrun & Hn' & _).
  change (Z.log2 1) with 0 in Hn'.
  exists zkrp', s'. split; [done|]. split; [done|]. split.
  - intros v s1 [zkrp2 [proof e]] s2 H.
    apply bp_Prove_Ret_inv in H as (_ & _ & _ & _ & _ & _ & _ & _ & _ & _ & _ & H).
    destruct H as (yinv & s3 & s4 & H). rewrite Hn' in H.
    by apply switch_generators_zero in H.
  - intros proof s1 r s2 H. unfold bp_Verify in H. inv_run H.
    rewrite Hn' in *.
    match goal with
    | Hs : switch_generators _ 0 _ _ = Ret _ _ |- _ =>
        by apply switch_generators_zero in Hs
    end.
Qed.

(** *** A proof that Verify can return on *)

Lemma bip_Verify_Ret_wf (zkip : bip) (proof : proofBip)
    (s s' : state) (c : bool) (e : error) :
  bip_Verify zkip proof s = Ret (c, e) s' ->
  e = None /\
  (length (pip_Ls proof) <= length (pip_Rs proof))%nat /\
  Forall (fun p => p <> None) (pip_Ls proof) /\
  is_Some (pip_a proof) /\ is_Some (pip_b proof) /\
  pip_u proof <> None /\ bip_P zkip <> None.
Proof.
  intros H. unfold bip_Verify in H. inv_run H.
  apply ret_Ret_inv in H as [[= _ <-] _].
  assert (forall j, (j < length (pip_Ls proof))%nat ->
            (exists l, pip_Ls proof !! j = Some (Some l)) /\
            is_Some (pip_Rs proof !! j)) as Hall.
  { intros j Hj.
    match goal with
    | Hl : for_loop _ _ _ _ _ = Ret _ _ |- _ =>
        destruct (for_loop_Ret_body _ _ _ _ _ _ _ Hl j ltac:(lia))
          as ([[g1 h1] n1] & s1 & acc2 & s2 & Hb)
    end.
    unfold bip_Verify_step in Hb.
    apply bind_Ret_inv in Hb as (Li & s3 & [HLi ->]%need_Ret_inv & Hb).
    apply bind_Ret_inv in Hb as (Ri & s4 & [HRi ->]%need_Ret_inv & Hb).
    apply bind_Ret_inv in Hb as (r & s5 & Hhash & _).
    apply HashBP_Ret_inv in Hhash as (vA & vS & (loc & -> & _) & _).
    split; [by exists loc|by eexists]. }
  split; [done|]. split; [|split].
  - destruct (length (pip_Ls proof)) as [|k] eqn:Hk; [lia|].
    destruct (Hall k ltac:(lia)) as [_ [Ri HRi%lookup_lt_Some]]. lia.
  - apply Forall_lookup. intros j p Hp.
    destruct (Hall j (lookup_lt_Some _ _ _ Hp)) as [[loc Hl] _].
    intros ->. pose proof (eq_trans (eq_sym Hp) Hl) as Heq. discriminate Heq.
  - repeat match goal with
           | Hn : need _ _ = Ret _ _ |- _ =>
               apply need_Ret_inv in Hn as [Hn _]
           end.
    split; [by eexists|]. split; [by eexists|].
    split.
    + match goal with
      | Hu : p256_ScalarMult_new (pip_u proof) _ _ = Ret _ _ |- _ =>
          apply p256_ScalarMult_new_Ret_inv in Hu as (v & (loc & -> & _) & _)
      end. done.
    + match goal with
      | Hu : p256_Neg (bip_P zkip) _ _ = Ret _ _ |- _ =>
          apply p256_Neg_Ret_inv in Hu as (v & (loc & -> & _) & _)
      end. done.
Qed.

(** The inner product [Verify] has no error to return and no answer for a
    malformed proof: whenever it returns, the error is nil, the proof has at
    least as many R as L, no L is nil, the scalars a and b and the point u
    of the proof are not nil, and neither is the stored point P.  On any
    other proof it panics. *)
Theorem bip_Verify_returns_wellformed (zkip : bip) (proof : proofBip)
    (s s' : state) (c : bool) (e : error) :
  bip_Verify zkip proof s = Ret (c, e) s' ->
  e = None /\
  (length (pip_Ls proof) <= length (pip_Rs proof))%nat /\
  Forall (fun p => p <> None) (pip_Ls proof) /\
  is_Some (pip_a proof) /\ is_Some (pip_b proof) /\
  pip_u proof <> None /\ bip_P zkip <> None.
Proof. apply bip_Verify_Ret_wf. Qed.

(** *** The parameters that Setup makes *)

Lemma preserved_heap_eq s s' : heap s' = heap s -> preserved s s'.
Proof. intros Hh. split; rewrite Hh; done. Qed.

(** The parameters that [Setup] makes, on values. *)
Lemma wp_bp_Setup_generators (zkrp : bp) (a b : Z) (s : state) :
  0 < ORDER -> 0 <= bip_n (bp_zkip zkrp) -> 1 <= b ->
  wp (bp_Setup zkrp a b) s (fun zkrp' s' =>
    exists egs ehs u,
    preserved s s' /\
    bp_n zkrp' = Z.log2 b /\
    length egs = Z.to_nat (Z.log2 b) /\ length ehs = Z.to_nat (Z.log2 b) /\
    Forall (fun e => 0 <= e < ORDER) egs /\
    Forall (fun e => 0 <= e < ORDER) ehs /\
    points_to s' (bp_G zkrp') (pt_ScalarBaseMult 1) /\
    points_to s' (bp_H zkrp') (pt_MapToGroup SEEDH) /\
    Forall2 (points_to s') (bp_g zkrp') (map pt_ScalarBaseMult egs) /\
    Forall2 (points_to s') (bp_h zkrp')
            (map (pt_ScalarMult (pt_MapToGroup SEEDH)) ehs) /\
    points_to s' u (pt_MapToGroup SEEDU) /\
    Forall (fresh s) (bp_G zkrp' :: bp_H zkrp' :: u
                      :: bp_g zkrp' ++ bp_h zkrp') /\
    bp_zkip zkrp'
    = mkBip (bip_n (bp_zkip zkrp)) 0 u (bp_H zkrp') (bp_g zkrp')
            (bp_h zkrp') (bip_P (bp_zkip zkrp))).
Proof.
  intros Hq Hip Hb.
  unfold bp_Setup.
  apply wp_bind, wp_p256_ScalarBaseMult_new. intros G s1 Hs1 HGf HG _.
  apply wp_bind, wp_MapToGroup. intros H s2 Hs2 HHf HH _.
  unfold Log2_int64. destruct (b <? 1) eqn:?; [lia|].
  apply wp_bind. eapply wp_need; [done|].
  pose proof (Z.log2_nonneg b) as Hlog.
  apply wp_bind, wp_make; [done|]. apply wp_bind, wp_make; [done|].
  apply wp_bind.
  eapply wp_mono.
  { apply (wp_for_loop (fun j (gh : list ptr * list ptr) s' =>
      exists egs ehs,
        preserved s2 s' /\ length egs = j /\ length ehs = j /\
        Forall (fun e => 0 <= e < ORDER) egs /\
        Forall (fun e => 0 <= e < ORDER) ehs /\
        Forall2 (points_to s') (fst gh) (map pt_ScalarBaseMult egs) /\
        Forall2 (points_to s') (snd gh)
                (map (pt_ScalarMult (pt_MapToGroup SEEDH)) ehs) /\
        Forall (fresh s2) (fst gh) /\ Forall (fresh s2) (snd gh))).
    { exists [], []. simpl. split; [apply preserved_refl|].
      repeat split; constructor. }
    intros j [g h] s3 _ (egs & ehs & Hs3 & Hle & Hlh & Heg & Heh & Hg
                         & Hh & Hgf & Hhf). simpl in *.
    apply wp_bind, wp_rand_Int; [done|]. intros eg s4 Hegr Hs4.
    apply wp_bind, wp_rand_Int; [done|]. intros eh s5 Hehr Hs5.
    assert (preserved s3 s5) as Hs35.
    { apply preserved_heap_eq. by rewrite Hs5. }
    apply wp_bind, wp_p256_ScalarBaseMult_new. intros gi s6 Hs6 Hgif Hgi _.
    apply wp_bind. eapply wp_p256_ScalarMult_new.
    { eapply points_to_preserved; [|exact HH]. preserved_chain. }
    intros hi s7 Hs7 Hhif Hhi _. apply wp_ret.
    exists (egs ++ [eg]), (ehs ++ [eh]). simpl.
    split; [preserved_chain|].
    rewrite !length_app, !map_app. simpl.
    split; [lia|]. split; [lia|].
    split; [apply Forall_app; split; [done|by constructor]|].
    split; [apply Forall_app; split; [done|by constructor]|].
    split; [|split; [|split]].
    - apply Forall2_app.
      + eapply Forall2_points_to_preserved; [|exact Hg]. preserved_chain.
      + constructor; [|done]. by eapply points_to_preserved.
    - apply Forall2_app.
      + eapply Forall2_points_to_preserved; [|exact Hh]. preserved_chain.
      + by constructor.
    - apply Forall_app. split; [done|]. constructor; [|done].
      eapply fresh_preserved; [|exact Hgif]. preserved_chain.
    - apply Forall_app. split; [done|]. constructor; [|done].
      eapply fresh_preserved; [|exact Hhif]. preserved_chain. }
  intros [g h] s3 (egs & ehs & Hs3 & Hle & Hlh & Heg & Heh & Hg & Hh
                   & Hgf & Hhf). simpl in *.
  unfold bip_Setup.
  apply wp_bind, wp_bind, wp_make; [done|]. apply wp_bind, wp_make; [done|].
  apply wp_bind, wp_MapToGroup. intros u s4 Hs4 Huf Hu _.
  apply wp_ret. simpl. apply wp_ret. simpl.
  assert (preserved s s2) as Hs02 by preserved_chain.
  exists egs, ehs, u. split; [preserved_chain|]. split; [done|].
  split; [done|]. split; [done|]. split; [done|]. split; [done|].
  split; [eapply points_to_preserved; [|exact HG]; preserved_chain|].
  split; [eapply points_to_preserved; [|exact HH]; preserved_chain|].
  split; [by eapply Forall2_points_to_preserved|].
  split; [by eapply Forall2_points_to_preserved|].
  split; [done|]. split; [|done].
  constructor; [done|].
  constructor; [eapply fresh_preserved; [exact Hs1|exact HHf]|].
  constructor; [eapply fresh_preserved; [|exact Huf]; preserved_chain|].
  apply Forall_app. split.
  - eapply Forall_impl; [exact Hgf|]. intros p. by apply fresh_preserved.
  - eapply Forall_impl; [exact Hhf|]. intros p. by apply fresh_preserved.
Qed.

(** [Setup] makes parameters whose generators are known powers, for an
    upper bound b in [1, 2^32] (where the logarithm in floating point is
    the position of the highest bit): G is the
    base point, H = MapToGroup(SEEDH), every g[i] is the base point to an
    exponent drawn in [0, q) and every h[i] is H to such an exponent, in
    ⌊log₂ b⌋ new points each.  The inner product parameters share the
    slices g and h and the point H, take the claim c = 0 and a new point
    u = MapToGroup(SEEDU), and keep the n and P they had: [Setup] sets
    neither.  Every point that was in the store stays as it was. *)
Theorem bp_Setup_generators (zkrp : bp) (a b : Z) (s : state) :
  0 < ORDER -> 0 <= bip_n (bp_zkip zkrp) -> 1 <= b <= 2 ^ 32 ->
  exists zkrp' s' egs ehs u,
    bp_Setup zkrp a b s = Ret zkrp' s' /\
    preserved s s' /\
    bp_n zkrp' = Z.log2 b /\
    length egs = Z.to_nat (Z.log2 b) /\ length ehs = Z.to_nat (Z.log2 b) /\
    Forall (fun e => 0 <= e < ORDER) egs /\
    Forall (fun e => 0 <= e < ORDER) ehs /\
    points_to s' (bp_G zkrp') (pt_ScalarBaseMult 1) /\
    points_to s' (bp_H zkrp') (pt_MapToGroup SEEDH) /\
    Forall2 (points_to s') (bp_g zkrp') (map pt_ScalarBaseMult egs) /\
    Forall2 (points_to s') (bp_h zkrp')
            (map (pt_ScalarMult (pt_MapToGroup SEEDH)) ehs) /\
    points_to s' u (pt_MapToGroup SEEDU) /\
    Forall (fresh s) (bp_G zkrp' :: bp_H zkrp' :: u
                      :: bp_g zkrp' ++ bp_h zkrp') /\
    bp_zkip zkrp'
    = mkBip (bip_n (bp_zkip zkrp)) 0 u (bp_H zkrp') (bp_g zkrp')
            (bp_h zkrp') (bip_P (bp_zkip zkrp)).
Proof.
  intros Hq Hip [Hb _].
  destruct (wp_run _ _ _ (wp_bp_Setup_generators zkrp a b s Hq Hip Hb))
    as (zkrp' & s' & Hrun & egs & ehs & u & Hrest).
  exists zkrp', s', egs, ehs, u. by split.
Qed.

(** *** The switched generators *)

Lemma switch_values_snoc (hv : list point) (v : point) (yinv : Z) :
  (1 <= length hv)%nat ->
  switch_values (hv ++ [v]) yinv
  = switch_values hv yinv
    ++ [pt_ScalarMult v (yinv ^ Z.of_nat (length hv))].
Proof.
  intros Hl. unfold switch_values. rewrite imap_app. f_equal. simpl.
  rewrite Nat.add_0_r. destruct (length hv); [lia|done].
Qed.

Lemma wp_switch_generators h (n : nat) yi hv s
    (Q : list ptr -> state -> Prop) :
  (1 <= n <= length h)%nat -> Forall2 (points_to s) h hv ->
  (forall hp s', preserved s s' -> length hp = n ->
                 hp !! 0%nat = h !! 0%nat -> Forall (fresh s) (drop 1 hp) ->
                 Forall2 (points_to s') hp (switch_values (take n hv) yi) ->
                 Q hp s') ->
  wp (switch_generators h (Z.of_nat n) (Some yi)) s Q.
Proof.
  intros Hn Hh HQ. unfold switch_generators.
  pose proof (Forall2_length _ _ _ Hh) as Hlen.
  apply wp_bind, wp_make; [lia|].
  destruct (Z.of_nat n =? 0) eqn:?; [lia|].
  apply wp_bind, wp_ret.
  destruct (lookup_lt_is_Some_2 h 0%nat ltac:(lia)) as [h0 Hh0].
  destruct (Forall2_lookup_l _ _ _ _ _ Hh Hh0) as (v0 & Hv0 & Hp0).
  apply wp_bind; eapply wp_need; [done|].
  replace (Z.to_nat (Z.of_nat n - 1)) with (n - 1)%nat by lia.
  apply wp_bind. eapply wp_mono.
  { apply (wp_for_loop (fun j (st : list ptr * option Z) s' =>
      preserved s s' /\ length (fst st) = j /\
      fst st !! 0%nat = Some h0 /\ Forall (fresh s) (drop 1 (fst st)) /\
      Forall2 (points_to s') (fst st) (switch_values (take j hv) yi) /\
      snd st = Some (yi ^ Z.of_nat j))).
    { simpl. split; [apply preserved_refl|]. split; [done|]. split; [done|].
      split; [constructor|]. split; [|by rewrite Z.pow_1_r].
      destruct hv as [|v hv']; [done|]. injection Hv0 as ->.
      simpl. rewrite take_0. by repeat constructor. }
    intros j [hp expy] s1 Hj (Hs1 & Hl & H0 & Hfr & Hhp & He).
    simpl in *. subst expy.
    destruct (lookup_lt_is_Some_2 h j ltac:(lia)) as [hi Hhi].
    destruct (Forall2_lookup_l _ _ _ _ _ Hh Hhi) as (vi & Hvi & Hpi).
    apply wp_bind; eapply wp_need; [done|].
    apply wp_bind; eapply wp_need; [done|].
    apply wp_bind. eapply wp_p256_ScalarMult_new.
    { eapply points_to_preserved; [exact Hs1|exact Hpi]. }
    intros hpi s2 Hs2 Hhpif Hhpi _. unfold wp, bind, need, ret. simpl.
    split; [preserved_chain|].
    split; [rewrite length_app; simpl; lia|].
    split; [by apply lookup_app_l_Some|].
    split.
    { destruct hp as [|p0 hp']; [simpl in Hl; lia|]. simpl in *.
      rewrite drop_0 in *. apply Forall_app. split; [done|].
      constructor; [|done]. by eapply fresh_preserved. }
    split.
    - rewrite (take_S_r _ _ _ Hvi), switch_values_snoc
        by (rewrite length_take; lia).
      apply Forall2_app.
      + by eapply Forall2_points_to_preserved.
      + rewrite length_take.
        replace (j `min` length hv)%nat with j by lia.
        by constructor.
    - f_equal. unfold Multiply.
      replace (Z.of_nat (S j)) with (Z.succ (Z.of_nat j)) by lia.
      rewrite Z.pow_succ_r by lia. ring. }
  intros [hp expy] s' (Hs' & Hl & H0 & Hfr & Hhp & _). simpl in *.
  apply wp_ret. assert (S (n - 1) = n) as Hn' by lia.
  rewrite Hn' in *. apply HQ; try done. by rewrite Hh0.
Qed.

(** The switched generators that [Prove] and [Verify] both compute: h'[0]
    is the pointer h[0] itself, not a copy, and every other h'[i] is a new
    point h[i]^(y⁻ⁱ), the power y⁻ⁱ taken over the integers without
    reduction; the generators themselves stay as they were. *)
Theorem switch_generators_values (h : list ptr) (n : nat) (yi : Z)
    (hv : list point) (s : state) :
  (1 <= n <= length h)%nat -> Forall2 (points_to s) h hv ->
  exists hp s',
    switch_generators h (Z.of_nat n) (Some yi) s = Ret hp s' /\
    preserved s s' /\ length hp = n /\ hp !! 0%nat = h !! 0%nat /\
    Forall (fresh s) (drop 1 hp) /\
    Forall2 (points_to s') hp (switch_values (take n hv) yi).
Proof.
  intros Hn Hh.
  destruct (wp_run _ _ _ (wp_switch_generators h n yi hv s (fun hp s' =>
    preserved s s' /\ length hp = n /\ hp !! 0%nat = h !! 0%nat /\
    Forall (fresh s) (drop 1 hp) /\
    Forall2 (points_to s') hp (switch_values (take n hv) yi)) Hn Hh
    (fun hp s' H1 H2 H3 H4 H5 =>
       conj H1 (conj H2 (conj H3 (conj H4 H5))))))
    as (hp & s' & Hrun & Hrest).
  exists hp, s'. by split.
Qed.

(** *** The random tape *)

Lemma reads_ret {A} (a : A) : reads 0 (ret a).
Proof. intros s r s' [_ <-]%ret_Ret_inv. lia. Qed.

Lemma reads_panic {A} (k : nat) : reads k (@panic C A).
Proof. by intros s r s' H. Qed.

Lemma reads_diverge {A} (k : nat) : reads k (@diverge C A).
Proof. by intros s r s' H. Qed.

Lemma reads_bind {A B} (k1 k2 : nat) (m : M A) (f : A -> M B) :
  reads k1 m -> (forall a, reads k2 (f a)) -> reads (k1 + k2) (bind m f).
Proof.
  intros Hm Hf s r s' (a & s1 & H1 & H2)%bind_Ret_inv.
  apply Hm in H1. apply Hf in H2. lia.
Qed.

Lemma reads_bind_need {A B} (k : nat) (o : option A) (f : A -> M B) :
  (forall a, o = Some a -> reads k (f a)) -> reads k (bind (need o) f).
Proof.
  intros Hf s r s' (a & s1 & [-> ->]%need_Ret_inv & H2)%bind_Ret_inv.
  by eapply Hf.
Qed.

Lemma reads_eq {A} (k k' : nat) (m : M A) : reads k m -> k = k' -> reads k' m.
Proof. by intros H <-. Qed.

Lemma reads_need {A} (o : option A) : reads 0 (need o).
Proof. intros s r s' [_ ->]%need_Ret_inv. lia. Qed.

Lemma reads_load p : reads 0 (load p).
Proof. intros s r s' [_ ->]%load_Ret_inv. lia. Qed.

Lemma reads_alloc v : reads 0 (alloc v).
Proof. intros s r s' [= _ <-]. simpl. lia. Qed.

Lemma reads_write p v : reads 0 (write p v).
Proof.
  intros s r s' H. unfold write in H. destruct p as [l|]; [|done].
  destruct (decide _); [|done]. injection H as _ <-. simpl. lia.
Qed.

Lemma reads_make n : reads 0 (make n).
Proof.
  unfold make. destruct (n <? 0); [apply reads_panic|apply reads_ret].
Qed.

Lemma reads_rand_Int max : reads 1 (rand_Int max).
Proof.
  intros s r s' H. unfold rand_Int in H. destruct (max <=? 0); [done|].
  injection H as _ <-. simpl. lia.
Qed.

Lemma reads_for_loop {St} (c k i : nat) (body : nat -> St -> M St) acc :
  (forall j acc, reads c (body j acc)) -> reads (k * c) (for_loop k i body acc).
Proof.
  intros Hbody. revert i acc. induction k as [|k IH]; intros i acc; simpl.
  - apply reads_ret.
  - apply reads_bind; [apply Hbody|]. intros acc'. apply IH.
Qed.

Lemma reads_for_loop0 {St} (k i : nat) (body : nat -> St -> M St) acc :
  (forall j acc, reads 0 (body j acc)) -> reads 0 (for_loop k i body acc).
Proof.
  intros Hbody. eapply reads_eq; [by apply (reads_for_loop 0)|lia].
Qed.

Lemma reads_HashBP A S : reads 0 (HashBP A S).
Proof.
  intros s r s' H. apply HashBP_Ret_inv in H as (_ & _ & _ & _ & -> & _). lia.
Qed.

Lemma reads_HashIP g h P c n : reads 0 (HashIP g h P c n).
Proof. intros s r s' H. apply HashIP_state in H as ->. lia. Qed.

Ltac reads_zero :=
  repeat first
    [ apply reads_ret | apply reads_panic | apply reads_diverge
    | apply reads_need | apply reads_load | apply reads_alloc
    | apply reads_write | apply reads_make | apply reads_HashBP
    | apply reads_HashIP
    | apply (reads_bind 0 0); [|intros ?]
    | apply reads_for_loop0; intros ? ?; cbv beta
    | match goal with
      | |- reads _ (match ?x with pair _ _ => _ end) => destruct x
      | |- reads _ (if ?b then _ else _) => destruct b
      | H : forall x, reads 0 _ |- _ => apply H
      end
    | progress unfold p256_ScalarMult_new, p256_ScalarBaseMult_new,
        p256_SetInfinity_new, p256_Multiply_new, p256_Multiply, p256_Neg,
        p256_IsZero, p256_String, MapToGroup, CommitG1 ].

Lemma reads_VectorExp a b : reads 0 (VectorExp a b).
Proof. unfold VectorExp. reads_zero. Qed.

Lemma reads_VectorScalarExp a b : reads 0 (VectorScalarExp a b).
Proof. unfold VectorScalarExp. reads_zero. Qed.

Lemma reads_VectorECAdd a b : reads 0 (VectorECAdd a b).
Proof. unfold VectorECAdd. reads_zero. Qed.

Lemma reads_CommitVector aL aR alpha G H g h n :
  reads 0 (CommitVector aL aR alpha G H g h n).
Proof. unfold CommitVector. reads_zero. Qed.

Lemma reads_CommitVectorBig aL aR alpha G H g h n :
  reads 0 (CommitVectorBig aL aR alpha G H g h n).
Proof. unfold CommitVectorBig. reads_zero. Qed.

Lemma reads_CommitInnerProduct g h a b : reads 0 (CommitInnerProduct g h a b).
Proof.
  unfold CommitInnerProduct.
  apply (reads_bind 0 0); [apply reads_VectorExp|]. intros [ga e].
  apply (reads_bind 0 0); [apply reads_VectorExp|]. intros [hb e'].
  reads_zero.
Qed.

Lemma reads_switch_generators h n yinv : reads 0 (switch_generators h n yinv).
Proof. unfold switch_generators. reads_zero. Qed.

Lemma reads_BIP_round a b g h u P n : reads 0 (BIP_round a b g h u P n).
Proof.
  unfold BIP_round.
  repeat first
    [ apply (reads_bind 0 0);
        [first [ apply reads_VectorExp | apply reads_VectorScalarExp
               | apply reads_VectorECAdd | by reads_zero ]
        |intros ?]
    | match goal with
      | |- reads _ (match ?x with pair _ _ => _ end) => destruct x
      end ].
  apply reads_ret.
Qed.

Lemma reads_BIP_fuel fuel : forall a b g h u P n Ls Rs,
  reads 0 (BIP_fuel fuel a b g h u P n Ls Rs).
Proof.
  induction fuel as [|fuel IH]; intros a b g h u P n Ls Rs; simpl.
  - apply reads_diverge.
  - apply (reads_bind 0 0); [|intros ?; apply reads_ret].
    destruct (n =? 1); [by reads_zero|].
    apply (reads_bind 0 0); [apply reads_BIP_round|]. intros rd.
    apply (reads_bind 0 0); [apply IH|]. intros [proof e]. apply reads_ret.
Qed.

Lemma reads_bip_Prove zkip a b P : reads 0 (bip_Prove zkip a b P).
Proof.
  unfold bip_Prove.
  apply (reads_bind 0 0); [apply reads_HashIP|]. intros [x e].
  apply (reads_bind 0 0); [by reads_zero|]. intros ux.
  apply (reads_bind 0 0); [by reads_zero|]. intros uxc.
  apply (reads_bind 0 0); [by reads_zero|]. intros _.
  destruct (negb _); [apply reads_ret|].
  apply (reads_bind 0 0); [apply reads_BIP_fuel|]. intros [proof e'].
  apply reads_ret.
Qed.

Lemma reads_bip_Verify zkip proof : reads 0 (bip_Verify zkip proof).
Proof.
  unfold bip_Verify.
  apply (reads_bind 0 0).
  { apply reads_for_loop0. intros j [[g h] n]. unfold bip_Verify_step.
    repeat first
      [ apply (reads_bind 0 0);
          [first [ apply reads_VectorScalarExp | apply reads_VectorECAdd
                 | by reads_zero ]
          |intros ?]
      | match goal with
        | |- reads _ (match ?x with pair _ _ => _ end) => destruct x
        end ].
    apply reads_ret. }
  intros [[g h] n]. reads_zero.
Qed.

Lemma reads_bp_Verify zkrp proof : reads 0 (bp_Verify zkrp proof).
Proof.
  unfold bp_Verify.
  repeat first
    [ apply (reads_bind 0 0);
        [first [ apply reads_switch_generators | apply reads_bip_Verify
               | by reads_zero ]
        |intros ?]
    | match goal with
      | |- reads _ (match ?x with pair _ _ => _ end) => destruct x
      end ].
  apply reads_ret.
Qed.

Lemma reads_bp_Setup zkrp a b :
  reads (2 * Z.to_nat (Z.log2 b)) (bp_Setup zkrp a b).
Proof.
  unfold bp_Setup.
  eapply reads_eq.
  { eapply (reads_bind 0); [by reads_zero|]. intros G.
    eapply (reads_bind 0); [by reads_zero|]. intros [H e].
    apply reads_bind_need. intros n Hn.
    assert (n = Z.log2 b) as ->.
    { unfold Log2_int64 in Hn. destruct (b <? 1); congruence. }
    eapply (reads_bind 0); [apply reads_make|]. intros _.
    eapply (reads_bind 0); [apply reads_make|]. intros _.
    eapply reads_bind.
    { apply (reads_for_loop 2). intros j [g h].
      apply (reads_bind 1 1); [apply reads_rand_Int|]. intros eg.
      apply (reads_bind 1 0); [apply reads_rand_Int|]. intros eh.
      reads_zero. }
    intros [g h].
    apply (reads_bind 0 0); [|intros [zkip e']; apply reads_ret].
    unfold bip_Setup. reads_zero. }
  lia.
Qed.

Lemma reads_bp_Prove zkrp v :
  reads (5 + 2 * Z.to_nat (bp_n zkrp)) (bp_Prove zkrp v).
Proof.
  unfold bp_Prove.
  eapply reads_eq.
  { eapply (reads_bind 1); [apply reads_rand_Int|]. intros gamma.
    eapply (reads_bind 0); [by reads_zero|]. intros [V e1].
    eapply (reads_bind 0); [apply reads_need|]. intros [aL e2].
    destruct (ComputeAR aL) as [aR e3].
    eapply (reads_bind 1); [apply reads_rand_Int|]. intros alpha.
    eapply (reads_bind 0); [apply reads_CommitVector|]. intros [A e4].
    eapply (reads_bind 1); [apply reads_rand_Int|]. intros rho.
    eapply (reads_bind 0); [apply reads_make|]. intros _.
    eapply (reads_bind 0); [apply reads_make|]. intros _.
    eapply reads_bind.
    { apply (reads_for_loop 2). intros j [sL sR].
      apply (reads_bind 1 1); [apply reads_rand_Int|]. intros sLi.
      apply (reads_bind 1 0); [apply reads_rand_Int|]. intros sRi.
      apply reads_ret. }
    intros [sL sR].
    eapply (reads_bind 0); [apply reads_CommitVectorBig|]. intros [S' e5].
    eapply (reads_bind 0); [apply reads_HashBP|]. intros [[y z] e6].
    eapply (reads_bind 1); [apply reads_rand_Int|]. intros tau1.
    apply (reads_bind 1 0); [apply reads_rand_Int|]. intros tau2.
    repeat first
      [ apply (reads_bind 0 0);
          [first [ apply reads_switch_generators | apply reads_bip_Prove
                 | apply reads_CommitInnerProduct | by reads_zero ]
          |intros ?]
      | match goal with
        | |- reads _ (match ?x with pair _ _ => _ end) => destruct x
        end ].
    apply reads_ret. }
  lia.
Qed.

(** [Verify] never reads the random source, neither that of the range proof
    nor that of the inner product argument, and the inner product [Prove]
    does not either.  A range-proof [Prove] that returns has read 2n + 5
    random integers, and a [Setup] that returns has read 2·⌊log₂ b⌋, for
    an upper bound b of at most 2^32. *)
Theorem random_tape_budget (zkrp : bp) (zkip : bip) (proof : proofBP)
    (proofip : proofBip) (a b : list Z) (P : ptr) (v lo hi : Z) :
  reads 0 (bp_Verify zkrp proof) /\
  reads 0 (bip_Verify zkip proofip) /\
  reads 0 (bip_Prove zkip a b P) /\
  reads (5 + 2 * Z.to_nat (bp_n zkrp)) (bp_Prove zkrp v) /\
  (hi <= 2 ^ 32 -> reads (2 * Z.to_nat (Z.log2 hi)) (bp_Setup zkrp lo hi)).
Proof.
  split; [apply reads_bp_Verify|]. split; [apply reads_bip_Verify|].
  split; [apply reads_bip_Prove|]. split; [apply reads_bp_Prove|].
  intros _. apply reads_bp_Setup.
Qed.

(** *** Verify and the parameters that Prove leaves *)

(** [Verify] reads the commitment of the inner product argument from the
    parameter struct, where only [Prove] puts it.  On the parameters that
    [Setup] makes from a struct whose stored point P is nil, such as a new
    struct, [Verify] returns on no proof at all: it verifies only on the
    struct that [Prove] has run on.  The scalar mu of a proof is never
    read: two proofs that differ in mu alone verify the same. *)
Theorem bp_Verify_needs_Prove (zkrp0 zkrp : bp) (lo hi : Z) (s0 s s1 : state)
    (proof : proofBP) (mu : Z) :
  (bp_Setup zkrp0 lo hi s0 = Ret zkrp s ->
   bip_P (bp_zkip zkrp0) = None ->
   forall r s', bp_Verify zkrp proof s1 <> Ret r s')
  /\ bp_Verify zkrp
       (mkProofBP (pbp_V proof) (pbp_A proof) (pbp_S proof) (pbp_T1 proof)
                  (pbp_T2 proof) (pbp_taux proof) mu (pbp_tprime proof)
                  (pbp_proofip proof)) s1
     = bp_Verify zkrp proof s1.
Proof.
  split; [|done].
  intros Hsetup HP r s' H.
  assert (bip_P (bp_zkip zkrp) = None) as HP'.
  { unfold bp_Setup in Hsetup. inv_run Hsetup.
    apply ret_Ret_inv in Hsetup as [<- _]. simpl.
    match goal with
    | Hs : bip_Setup _ _ _ _ _ _ = Ret _ _ |- _ =>
        unfold bip_Setup in Hs; inv_run Hs;
        apply ret_Ret_inv in Hs as [[= <- _] _]
    end.
    exact HP. }
  unfold bp_Verify in H. inv_run H.
  match goal with
  | Hv : bip_Verify _ _ _ = Ret _ _ |- _ =>
      apply bip_Verify_Ret_wf in Hv as (_ & _ & _ & _ & _ & _ & Hne)
  end.
  done.
Qed.

(** *** The inner product argument, from Prove to Verify *)

Lemma frame_refl P s : frame P s s.
Proof. by intros q v Hq _. Qed.

Lemma frame_trans P s1 s2 s3 : frame P s1 s2 -> frame P s2 s3 -> frame P s1 s3.
Proof. intros H1 H2 q v Hq Hne. apply H2; [|done]. by apply H1. Qed.

Lemma preserved_frame P s s' : preserved s s' -> frame P s s'.
Proof. intros Hs q v Hq _. by eapply points_to_preserved. Qed.

Lemma Forall2_points_to_frame P s s' ps vs :
  frame P s s' -> Forall (fun q => q <> P) ps ->
  Forall2 (points_to s) ps vs -> Forall2 (points_to s') ps vs.
Proof.
  intros Hf Hne H. induction H as [|p v ps vs Hp _ IH]; [constructor|].
  apply Forall_cons in Hne as [Hne1 Hne2].
  constructor; [by apply Hf|by apply IH].
Qed.

Lemma fresh_all_neq s P v ps :
  points_to s P v -> Forall (fresh s) ps -> Forall (fun q => q <> P) ps.
Proof.
  intros HP Hps. eapply Forall_impl; [exact Hps|].
  intros q Hq ->. by eapply (fresh_neq s P P).
Qed.

Lemma pow2_half (d : nat) : (2 ^ S d / 2 = 2 ^ d)%nat.
Proof. rewrite Nat.pow_succ_r', Nat.mul_comm. apply Nat.div_mul. lia. Qed.

Lemma ModInverse_hash (Lv Rv : point) :
  hash_invertible ->
  ModInverse (hash_scalar Lv Rv) ORDER
  = Some (Z.invmod (hash_scalar Lv Rv) ORDER) /\
  ModInverse (Mod (Multiply (hash_scalar Lv Rv) (hash_scalar Lv Rv)) ORDER)
             ORDER
  = Some (Z.invmod ((hash_scalar Lv Rv * hash_scalar Lv Rv) mod ORDER) ORDER).
Proof.
  intros Hinv. unfold ModInverse, hash_scalar, Mod, Multiply.
  pose proof (Hinv (encode Lv ++ encode Rv)) as Hx.
  rewrite Hx. simpl. rewrite Z.gcd_mod_l.
  by rewrite (Z.coprime_mul_l _ _ _ Hx Hx).
Qed.

Lemma wp_p256_Neg p a vp va s (Q : ptr -> state -> Prop) :
  points_to s p vp -> points_to s a va ->
  (forall s', points_to s' p (pt_Neg va) ->
              (forall q u, points_to s q u -> q <> p -> points_to s' q u) ->
              Q p s') ->
  wp (p256_Neg p a) s Q.
Proof.
  intros Hp Ha HQ. unfold p256_Neg.
  apply wp_bind. eapply wp_load; [done|].
  apply wp_bind. eapply wp_write; [done|].
  intros s' H1 H2 _ _. apply wp_ret. by apply HQ.
Qed.

Lemma wp_p256_IsZero p v s (Q : bool -> state -> Prop) :
  points_to s p v -> Q (pt_IsZero v) s -> wp (p256_IsZero p) s Q.
Proof.
  intros Hp HQ. unfold p256_IsZero.
  apply wp_bind. eapply wp_load; [done|]. by apply wp_ret.
Qed.

(** What [VectorExp] returns is nil or a new point. *)
Lemma VectorExp_Ret_inv a b p e s s' :
  VectorExp a b s = Ret (p, e) s' ->
  (p = None /\ s' = s) \/ (fresh s p /\ preserved s s').
Proof.
  unfold VectorExp. destruct (decide (length a = length b)).
  - intros H. right.
    apply bind_Ret_inv in H as (r & s0 & Halloc & H).
    apply alloc_Ret_inv in Halloc as (Hs0 & Hf & _).
    apply bind_Ret_inv in H as ([] & s1 & Hloop & [[= <- _] <-]%ret_Ret_inv).
    split; [done|].
    eapply (for_loop_Ret_inv (fun _ s1 => preserved s s1));
      [exact Hs0| |exact Hloop].
    intros j [] s2 acc' s3 Hs2 Hb.
    apply bind_Ret_inv in Hb as (ai & s4 & [_ ->]%need_Ret_inv & Hb).
    apply bind_Ret_inv in Hb as (bi & s4 & [_ ->]%need_Ret_inv & Hb).
    apply bind_Ret_inv in Hb as (t & s4 & Ht & Hb).
    apply p256_ScalarMult_new_Ret_inv in Ht as (va & _ & Hs4 & _).
    apply bind_Ret_inv in Hb as (r' & s5 & Hm & [_ <-]%ret_Ret_inv).
    apply p256_Multiply_Ret_inv in Hm as (? & ? & _ & _ & _ & _ & _ & Hsnap).
    apply Hsnap; [preserved_chain|done].
  - intros [[= <- _] <-]%ret_Ret_inv. by left.
Qed.

Lemma p256_Multiply_None a b r s s' : p256_Multiply None a b s <> Ret r s'.
Proof.
  intros H. apply p256_Multiply_Ret_inv in H
    as (va & vb & _ & _ & _ & (l & Hl & _) & _). done.
Qed.

(** The points L and R of a round are new points. *)
Lemma BIP_round_Ret_fresh a b g h u P n s rd s' :
  BIP_round a b g h u P n s = Ret rd s' ->
  fresh s (rd_L rd) /\ fresh s (rd_R rd).
Proof.
  unfold BIP_round. intros H.
  apply bind_Ret_inv in H as (a_lo & s0 & [_ ->]%need_Ret_inv & H).
  apply bind_Ret_inv in H as (b_hi & s0 & [_ ->]%need_Ret_inv & H).
  destruct (ScalarProduct a_lo b_hi) as [cL e1].
  apply bind_Ret_inv in H as (a_hi & s0 & [_ ->]%need_Ret_inv & H).
  apply bind_Ret_inv in H as (b_lo & s0 & [_ ->]%need_Ret_inv & H).
  destruct (ScalarProduct a_hi b_lo) as [cR e2].
  apply bind_Ret_inv in H as (g_hi & s0 & [_ ->]%need_Ret_inv & H).
  apply bind_Ret_inv in H as ([L e3] & s1 & HL & H).
  apply bind_Ret_inv in H as (h_lo & s0 & [_ ->]%need_Ret_inv & H).
  apply bind_Ret_inv in H as ([Lh e4] & s2 & HLh & H).
  apply bind_Ret_inv in H as (r1 & s3 & HmL & H).
  apply VectorExp_Ret_inv in HL as [[-> _] | [HLf Hs1]];
    [by apply p256_Multiply_None in HmL|].
  assert (preserved s1 s2) as Hs12.
  { apply VectorExp_Ret_inv in HLh as [[_ ->] | [_ Hs2]];
      [apply preserved_refl|done]. }
  apply p256_Multiply_Ret_inv in HmL as (? & ? & _ & _ & _ & _ & _ & Hsnap3).
  assert (preserved s s3) as Hs3 by (apply Hsnap3; [preserved_chain|done]).
  apply bind_Ret_inv in H as (cL' & s0 & [_ ->]%need_Ret_inv & H).
  apply bind_Ret_inv in H as (ucL & s4 & HucL & H).
  apply p256_ScalarMult_new_Ret_inv in HucL as (? & _ & Hs4 & _).
  apply bind_Ret_inv in H as (r2 & s5 & HmL2 & H).
  apply p256_Multiply_Ret_inv in HmL2 as (? & ? & _ & _ & _ & _ & _ & Hsnap5).
  assert (preserved s s5) as Hs5 by (apply Hsnap5; [preserved_chain|done]).
  apply bind_Ret_inv in H as (g_lo & s0 & [_ ->]%need_Ret_inv & H).
  apply bind_Ret_inv in H as ([R e5] & s6 & HR & H).
  apply bind_Ret_inv in H as (h_hi & s0 & [_ ->]%need_Ret_inv & H).
  apply bind_Ret_inv in H as ([Rh e6] & s7 & HRh & H).
  apply bind_Ret_inv in H as (r3 & s8 & HmR & H).
  apply VectorExp_Ret_inv in HR as [[-> _] | [HRf Hs6]];
    [by apply p256_Multiply_None in HmR|].
  inv_run H. apply ret_Ret_inv in H as [<- _]. simpl.
  split; [done|]. by eapply fresh_preserved.
Qed.

(** The proof that the recursion returns, on values: the pointers it has
    added to Ls and Rs are new points behind which the L and R of every
    round stand, and the scalars of the proof are those of the last round. *)
Lemma wp_BIP_fuel_trace (d : nat) : forall fuel a b g h u P Ls Rs s gv hv uv Pv,
  0 < ORDER -> hash_invertible -> (d < fuel)%nat ->
  length a = (2 ^ d)%nat -> length b = (2 ^ d)%nat ->
  length g = (2 ^ d)%nat -> length h = (2 ^ d)%nat ->
  Forall2 (points_to s) g gv -> Forall2 (points_to s) h hv ->
  points_to s u uv -> points_to s P Pv ->
  wp (BIP_fuel fuel a b g h u P (Z.of_nat (2 ^ d)) Ls Rs) s (fun r s' =>
    snd r = None /\ preserved s s' /\
    pip_n (fst r) = Z.of_nat (2 ^ d) /\ pip_u (fst r) = u /\
    pip_a (fst r) = fst (ipa_scalars d a b gv hv uv) !! 0%nat /\
    pip_b (fst r) = snd (ipa_scalars d a b gv hv uv) !! 0%nat /\
    exists newL newR,
      pip_Ls (fst r) = Ls ++ newL /\ pip_Rs (fst r) = Rs ++ newR /\
      Forall2 (points_to s') newL (map fst (ipa_rounds d a b gv hv uv)) /\
      Forall2 (points_to s') newR (map snd (ipa_rounds d a b gv hv uv)) /\
      Forall (fresh s) newL /\ Forall (fresh s) newR).
Proof.
  induction d as [|d IH];
    intros fuel a b g h u P Ls Rs s gv hv uv Pv Hq Hinv Hfuel Hla Hlb Hlg Hlh
           Hg Hh Hu HP;
    (destruct fuel as [|fuel]; [lia|]).
  - destruct a as [|a0 [|]]; [done| |done]. destruct b as [|b0 [|]]; [done| |done].
    destruct g as [|g0 [|]]; [done| |done]. destruct h as [|h0 [|]]; [done| |done].
    eapply run_wp; [by apply BIP_fuel_base|]. simpl.
    split; [done|]. split; [apply preserved_refl|].
    split; [done|]. split; [done|]. split; [done|]. split; [done|].
    exists [], []. rewrite !app_nil_r. repeat split; constructor.
  - set (k := (2 ^ d)%nat).
    assert ((2 ^ S d)%nat = (2 * k)%nat) as Hpow by apply Nat.pow_succ_r'.
    assert (1 <= k)%nat as Hk.
    { subst k. clear. induction d; simpl; lia. }
    rewrite Hpow in *. rewrite Nat2Z.inj_mul.
    change (Z.of_nat 2) with 2.
    cbn [ipa_scalars ipa_rounds]. fold k.
    set (Lv := round_L a b gv hv uv k).
    set (Rv := round_R a b gv hv uv k).
    set (x := hash_scalar Lv Rv).
    set (xinv := Z.invmod x ORDER).
    destruct (ModInverse_hash Lv Rv Hinv) as [Hxi Hx2i].
    fold x in Hxi, Hx2i. fold xinv in Hxi.
    assert (wp (BIP_round a b g h u P (2 * Z.of_nat k)) s (fun rd s' =>
              preserved s s' /\
              rd_aprime rd = fold_scalars a k x xinv /\
              rd_bprime rd = fold_scalars b k xinv x /\
              Forall2 (points_to s') (rd_gprime rd) (fold_points gv k xinv x) /\
              Forall2 (points_to s') (rd_hprime rd) (fold_points hv k x xinv) /\
              (exists Pv', points_to s' (rd_Pprime rd) Pv') /\
              points_to s' (rd_L rd) Lv /\ points_to s' (rd_R rd) Rv))
      as Hround.
    { eapply wp_BIP_round; try eassumption.
      intros rd s' Hs' Ha' Hb' Hg' Hh' HP' HL' HR'.
      split; [done|]. split; [done|]. split; [done|]. split; [done|].
      split; [done|]. split; [eauto|]. by split. }
    destruct (wp_run _ _ _ Hround)
      as (rd & s1 & Hrd & Hs1 & Ha' & Hb' & Hg' & Hh' & (Pv' & HP') & HL1 & HR1).
    destruct (BIP_round_Ret_fresh _ _ _ _ _ _ _ _ _ _ Hrd) as [HLf HRf].
    assert (2 * Z.of_nat k <> 1) as Hn1 by lia.
    unfold wp. rewrite (BIP_fuel_rec fuel _ _ _ _ _ _ _ Ls Rs _ _ _ Hn1 Hrd).
    replace (Z.quot (2 * Z.of_nat k) 2) with (Z.of_nat k)
      by (rewrite Z.mul_comm, Z.quot_mul; lia).
    pose proof (Forall2_length _ _ _ Hg) as Hlgv.
    pose proof (Forall2_length _ _ _ Hh) as Hlhv.
    pose proof (IH fuel (rd_aprime rd) (rd_bprime rd) (rd_gprime rd)
                  (rd_hprime rd) u (rd_Pprime rd) (Ls ++ [rd_L rd])
                  (Rs ++ [rd_R rd]) s1 (fold_points gv k xinv x)
                  (fold_points hv k x xinv) uv Pv' Hq Hinv ltac:(lia)
                  ltac:(rewrite Ha'; apply fold_scalars_length; lia)
                  ltac:(rewrite Hb'; apply fold_scalars_length; lia)
                  ltac:(rewrite (Forall2_length _ _ _ Hg');
                        apply fold_points_length; lia)
                  ltac:(rewrite (Forall2_length _ _ _ Hh');
                        apply fold_points_length; lia)
                  Hg' Hh' (points_to_preserved _ _ _ _ Hs1 Hu) HP') as Hrec.
    unfold wp in Hrec. unfold bind.
    destruct (BIP_fuel fuel _ _ _ _ _ _ _ _ _ s1) as [[proof e] s2| |];
      [|done|done].
    simpl in Hrec. rewrite Ha', Hb' in Hrec.
    destruct Hrec as (-> & Hs2 & _ & Hu' & Hpa & Hpb & newL & newR & HLs
                      & HRs & HnL & HnR & HfL & HfR).
    simpl. split; [done|]. split; [preserved_chain|].
    split; [done|]. split; [done|]. split; [done|]. split; [done|].
    exists (rd_L rd :: newL), (rd_R rd :: newR).
    rewrite HLs, HRs, <- !(assoc_L (++)). simpl.
    split; [done|]. split; [done|].
    split; [constructor; [by eapply points_to_preserved|done]|].
    split; [constructor; [by eapply points_to_preserved|done]|].
    split; (constructor; [done|]).
    + eapply Forall_impl; [exact HfL|]. intros p. by apply fresh_preserved.
    + eapply Forall_impl; [exact HfR|]. intros p. by apply fresh_preserved.
Qed.

(** One turn of the verifier's loop, on values. *)
Lemma wp_bip_Verify_step proof P (j k : nat) gp hp gvj hvj Pvj Lj Rj Lv Rv s
    (Q : list ptr * list ptr * Z -> state -> Prop) :
  let x := hash_scalar Lv Rv in
  let xinv := Z.invmod x ORDER in
  let x2 := (x * x) mod ORDER in
  let x2inv := Z.invmod x2 ORDER in
  0 < ORDER -> hash_invertible ->
  pip_Ls proof !! j = Some Lj -> pip_Rs proof !! j = Some Rj ->
  points_to s Lj Lv -> points_to s Rj Rv -> Lj <> P -> Rj <> P ->
  length gp = (2 * k)%nat -> length hp = (2 * k)%nat ->
  Forall2 (points_to s) gp gvj -> Forall2 (points_to s) hp hvj ->
  points_to s P Pvj ->
  (forall gp' hp' s',
      frame P s s' ->
      Forall2 (points_to s') gp' (fold_points gvj k xinv x) ->
      Forall2 (points_to s') hp' (fold_points hvj k x xinv) ->
      points_to s' P
        (pt_Multiply (pt_Multiply Pvj (pt_ScalarMult Lv x2))
                     (pt_ScalarMult Rv x2inv)) ->
      Forall (fun q => q <> P) gp' -> Forall (fun q => q <> P) hp' ->
      Q (gp', hp', Z.of_nat k) s') ->
  wp (bip_Verify_step proof P j (gp, hp, 2 * Z.of_nat k)) s Q.
Proof.
  intros x xinv x2 x2inv Hq Hinv HLj HRj HLv HRv HLne HRne Hlg Hlh Hg Hh HP HQ.
  pose proof (Forall2_length _ _ _ Hg) as Hlgv.
  pose proof (Forall2_length _ _ _ Hh) as Hlhv.
  destruct (ModInverse_hash Lv Rv Hinv) as [Hxi Hx2i].
  unfold bip_Verify_step.
  replace (Z.quot (2 * Z.of_nat k) 2) with (Z.of_nat k)
    by (rewrite Z.mul_comm, Z.quot_mul; lia).
  rewrite !slice_to_run, !slice_from_run by lia.
  apply wp_bind. eapply wp_need; [done|].
  apply wp_bind. eapply wp_need; [done|].
  apply wp_bind. eapply wp_HashBP; [done..|]. cbv beta iota.
  apply wp_bind. eapply wp_need; [done|].
  apply wp_bind. eapply wp_need; [exact Hxi|]. fold x xinv.
  apply wp_bind. eapply wp_need; [done|].
  apply wp_bind. eapply wp_VectorScalarExp.
  { apply Forall2_take. exact Hg. }
  intros g1 s1 Hs1 Hg1f Hg1. cbv beta iota.
  apply wp_bind. eapply wp_need; [done|].
  apply wp_bind. eapply wp_VectorScalarExp.
  { apply Forall2_drop. eapply Forall2_points_to_preserved; [exact Hs1|exact Hg]. }
  intros g2 s2 Hs2 Hg2f Hg2. cbv beta iota.
  apply wp_bind. eapply wp_VectorECAdd.
  { eapply Forall2_points_to_preserved; [exact Hs2|exact Hg1]. }
  { exact Hg2. }
  { rewrite (Forall2_length _ _ _ Hg1), (Forall2_length _ _ _ Hg2).
    rewrite !length_map, length_take, length_drop. lia. }
  intros gp' s3 Hs3 Hgp'f Hgp'. cbv beta iota.
  assert (preserved s s3) as Hs03 by preserved_chain.
  apply wp_bind. eapply wp_need; [done|].
  apply wp_bind. eapply wp_VectorScalarExp.
  { apply Forall2_take. eapply Forall2_points_to_preserved; [exact Hs03|exact Hh]. }
  intros h1 s4 Hs4 Hh1f Hh1. cbv beta iota.
  apply wp_bind. eapply wp_need; [done|].
  apply wp_bind. eapply wp_VectorScalarExp.
  { apply Forall2_drop. eapply Forall2_points_to_preserved; [|exact Hh].
    preserved_chain. }
  intros h2 s5 Hs5 Hh2f Hh2. cbv beta iota.
  apply wp_bind. eapply wp_VectorECAdd.
  { eapply Forall2_points_to_preserved; [exact Hs5|exact Hh1]. }
  { exact Hh2. }
  { rewrite (Forall2_length _ _ _ Hh1), (Forall2_length _ _ _ Hh2).
    rewrite !length_map, length_take, length_drop. lia. }
  intros hp' s6 Hs6 Hhp'f Hhp'. cbv beta iota.
  assert (preserved s s6) as Hs06 by preserved_chain.
  assert (preserved s3 s6) as Hs36 by preserved_chain.
  apply wp_bind. eapply wp_need; [exact Hx2i|]. fold x x2 x2inv.
  apply wp_bind. eapply wp_p256_ScalarMult_new.
  { eapply points_to_preserved; [exact Hs06|exact HLv]. }
  intros Lx s7 Hs7 HLxf HLx _.
  assert (preserved s s7) as Hs07 by preserved_chain.
  apply wp_bind. eapply wp_p256_Multiply;
    [eapply points_to_preserved; [exact Hs07|exact HP]
    |eapply points_to_preserved; [exact Hs07|exact HP]
    |exact HLx|].
  intros s8 HP8 Hframe8 _ _.
  apply wp_bind. eapply wp_p256_ScalarMult_new.
  { apply Hframe8; [|done]. eapply points_to_preserved; [exact Hs07|exact HRv]. }
  intros Rx s9 Hs9 HRxf HRx _.
  apply wp_bind. eapply wp_p256_Multiply;
    [eapply points_to_preserved; [exact Hs9|exact HP8]
    |eapply points_to_preserved; [exact Hs9|exact HP8]
    |exact HRx|].
  intros s10 HP10 Hframe10 _ _. apply wp_ret.
  assert (frame P s7 s10) as Hf710.
  { intros q v Hqv Hne. apply Hframe10; [|done].
    eapply points_to_preserved; [exact Hs9|]. by apply Hframe8. }
  assert (Forall (fun q => q <> P) gp') as Hgne.
  { eapply fresh_all_neq; [|exact Hgp'f].
    eapply points_to_preserved; [|exact HP]. preserved_chain. }
  assert (Forall (fun q => q <> P) hp') as Hhne.
  { eapply fresh_all_neq; [|exact Hhp'f].
    eapply points_to_preserved; [|exact HP]. preserved_chain. }
  apply HQ; try done.
  - eapply frame_trans; [apply preserved_frame; exact Hs07|exact Hf710].
  - eapply Forall2_points_to_frame; [exact Hf710|exact Hgne|].
    eapply Forall2_points_to_preserved; [|exact Hgp']. preserved_chain.
  - eapply Forall2_points_to_frame; [exact Hf710|exact Hhne|].
    eapply Forall2_points_to_preserved; [|exact Hhp']. preserved_chain.
Qed.

(** The inner product [Verify] on values: with 2^d generators on each side
    and d pairs (L, R), it folds the generators and the stored commitment
    through [ver_step], one pair a turn, and returns whether the folded
    commitment is g^a·h^b·u^(a·b) for the one generator left on each side,
    with a nil error.  It leaves the quotient of the two behind the stored
    pointer P, and every other point as it was. *)
Lemma wp_bip_Verify_values (d : nat) zkip proof s gv hv Pv LRs uv a0 b0
    (Q : bool * error -> state -> Prop) :
  0 < ORDER -> hash_invertible ->
  pip_n proof = Z.of_nat (2 ^ d) ->
  length (bip_g zkip) = (2 ^ d)%nat -> length (bip_h zkip) = (2 ^ d)%nat ->
  length LRs = d ->
  Forall2 (points_to s) (bip_g zkip) gv ->
  Forall2 (points_to s) (bip_h zkip) hv ->
  points_to s (bip_P zkip) Pv ->
  Forall2 (points_to s) (pip_Ls proof) (map fst LRs) ->
  Forall2 (points_to s) (pip_Rs proof) (map snd LRs) ->
  points_to s (pip_u proof) uv ->
  pip_a proof = Some a0 -> pip_b proof = Some b0 ->
  Forall (fun q => q <> bip_P zkip)
         (bip_g zkip ++ bip_h zkip ++ pip_Ls proof ++ pip_Rs proof
          ++ [pip_u proof]) ->
  (forall g0 h0 Pf s',
      fold_left ver_step LRs (gv, hv, Pv) = ([g0], [h0], Pf) ->
      frame (bip_P zkip) s s' ->
      points_to s' (bip_P zkip)
        (pt_Multiply (pt_Neg Pf) (ver_rhs g0 h0 uv a0 b0)) ->
      Q (pt_IsZero (pt_Multiply (pt_Neg Pf) (ver_rhs g0 h0 uv a0 b0)), None)
        s') ->
  wp (bip_Verify zkip proof) s Q.
Proof.
  intros Hq Hinv Hpn Hlg Hlh HlLR Hg Hh HP HLs HRs Hu Ha Hb Hne HQ.
  apply Forall_app in Hne as [Hgne Hne]. apply Forall_app in Hne as [Hhne Hne].
  apply Forall_app in Hne as [HLne Hne]. apply Forall_app in Hne as [HRne Hune].
  apply Forall_cons in Hune as [Hune _].
  set (P := bip_P zkip) in *.
  assert (length (pip_Ls proof) = d) as HlL
    by (rewrite (Forall2_length _ _ _ HLs), length_map; done).
  assert (length (pip_Rs proof) = d) as HlR
    by (rewrite (Forall2_length _ _ _ HRs), length_map; done).
  unfold bip_Verify. fold P. rewrite HlL, Hpn.
  apply wp_bind. eapply wp_mono.
  { apply (wp_for_loop (fun j (st : list ptr * list ptr * Z) s' =>
      (j <= d)%nat /\
      snd st = Z.of_nat (2 ^ (d - j)) /\
      exists gvj hvj Pvj,
        fold_left ver_step (take j LRs) (gv, hv, Pv) = (gvj, hvj, Pvj) /\
        length (fst (fst st)) = (2 ^ (d - j))%nat /\
        length (snd (fst st)) = (2 ^ (d - j))%nat /\
        Forall2 (points_to s') (fst (fst st)) gvj /\
        Forall2 (points_to s') (snd (fst st)) hvj /\
        points_to s' P Pvj /\
        Forall (fun q => q <> P) (fst (fst st)) /\
        Forall (fun q => q <> P) (snd (fst st)) /\
        frame P s s')).
    { simpl. rewrite Nat.sub_0_r. split; [lia|]. split; [done|].
      exists gv, hv, Pv. repeat split; try done. apply frame_refl. }
    intros j [[gp hp] np] s1 Hj (_ & Hnp & gvj & hvj & Pvj & Hfold & Hlgp
                                 & Hlhp & Hgp & Hhp & HPj & Hgpne & Hhpne
                                 & Hfr).
    simpl in Hnp, Hlgp, Hlhp, Hgp, Hhp, Hgpne, Hhpne. subst np.
    destruct (d - j)%nat as [|m] eqn:Hdj; [lia|].
    set (k := (2 ^ m)%nat).
    assert ((2 ^ S m)%nat = (2 * k)%nat) as Hpow by apply Nat.pow_succ_r'.
    rewrite Hpow in *. rewrite Nat2Z.inj_mul. change (Z.of_nat 2) with 2.
    destruct (lookup_lt_is_Some_2 LRs j ltac:(lia)) as [[Lv Rv] HLR].
    destruct (lookup_lt_is_Some_2 (pip_Ls proof) j ltac:(lia)) as [Lj HLj].
    destruct (lookup_lt_is_Some_2 (pip_Rs proof) j ltac:(lia)) as [Rj HRj].
    destruct (Forall2_lookup_l _ _ _ _ _ HLs HLj) as (Lv' & HLv' & HLpt).
    destruct (Forall2_lookup_l _ _ _ _ _ HRs HRj) as (Rv' & HRv' & HRpt).
    rewrite list_lookup_fmap, HLR in HLv'. injection HLv' as <-.
    rewrite list_lookup_fmap, HLR in HRv'. injection HRv' as <-.
    pose proof (Forall_lookup_1 _ _ _ _ HLne HLj) as HLjne.
    pose proof (Forall_lookup_1 _ _ _ _ HRne HRj) as HRjne.
    simpl in HLpt, HRpt.
    eapply wp_bip_Verify_step; try eassumption.
    { by apply Hfr. }
    { by apply Hfr. }
    intros gp' hp' s2 Hfr2 Hgp' Hhp' HP2 Hgne' Hhne'.
    split; [lia|]. simpl.
    replace (d - S j)%nat with m by lia. split; [done|].
    eexists _, _, _. split.
    { rewrite (take_S_r _ _ _ HLR), fold_left_app, Hfold.
      cbn [fold_left]. unfold ver_step. cbv beta iota zeta. cbn [fst snd].
      replace (length gvj / 2)%nat with k; [reflexivity|].
      rewrite <- (Forall2_length _ _ _ Hgp), Hlgp.
      rewrite Nat.mul_comm. symmetry. apply Nat.div_mul. lia. }
    pose proof (Forall2_length _ _ _ Hgp) as Hlgvj.
    pose proof (Forall2_length _ _ _ Hhp) as Hlhvj.
    split.
    { rewrite (Forall2_length _ _ _ Hgp'). apply fold_points_length. lia. }
    split.
    { rewrite (Forall2_length _ _ _ Hhp'). apply fold_points_length. lia. }
    split; [exact Hgp'|]. split; [exact Hhp'|]. split; [exact HP2|].
    split; [done|]. split; [done|]. by eapply frame_trans. }
  intros [[gp hp] np] s1 (_ & _ & gvd & hvd & Pvd & Hfold & Hlgp & Hlhp & Hgp
                          & Hhp & HPd & Hgpne & Hhpne & Hfr).
  simpl in Hlgp, Hlhp, Hgp, Hhp, Hgpne, Hhpne. cbv beta iota.
  rewrite Nat.add_0_l, take_ge in Hfold by lia.
  rewrite Nat.sub_diag in Hlgp, Hlhp. simpl in Hlgp, Hlhp.
  destruct gp as [|g0p [|]]; [done| |done].
  destruct hp as [|h0p [|]]; [done| |done].
  apply Forall2_cons_inv_l in Hgp as (g0 & gt & Hg0 & Hgt & ->).
  apply Forall2_nil_inv_l in Hgt as ->.
  apply Forall2_cons_inv_l in Hhp as (h0 & ht & Hh0 & Hht & ->).
  apply Forall2_nil_inv_l in Hht as ->.
  rewrite Ha, Hb.
  apply wp_bind. eapply wp_need; [done|].
  apply wp_bind. eapply wp_need; [done|].
  apply wp_bind. eapply wp_need; [done|].
  apply wp_bind. eapply wp_p256_ScalarMult_new; [exact Hg0|].
  intros rhs s2 Hs2 Hrhsf Hrhs _.
  apply wp_bind. eapply wp_need; [done|].
  apply wp_bind. eapply wp_p256_ScalarMult_new.
  { eapply points_to_preserved; [exact Hs2|exact Hh0]. }
  intros hb s3 Hs3 Hhbf Hhb _.
  assert (rhs <> P) as Hrhsne.
  { intros ->. by eapply (fresh_neq s1 P P). }
  apply wp_bind. eapply wp_p256_Multiply;
    [eapply points_to_preserved; [exact Hs3|exact Hrhs]
    |eapply points_to_preserved; [exact Hs3|exact Hrhs]
    |exact Hhb|].
  intros s4 Hrhs4 Hframe4 _ _.
  assert (preserved s1 s3) as Hs13 by preserved_chain.
  assert (frame rhs s1 s4) as Hf14.
  { intros q v Hqv Hqne. apply Hframe4; [|done]. by eapply points_to_preserved. }
  apply wp_bind. eapply wp_p256_ScalarMult_new.
  { apply Hf14; [by apply Hfr|].
    intros Heq. eapply (fresh_neq s1 (pip_u proof) rhs); [|exact Hrhsf|done].
    by apply Hfr. }
  intros uab s5 Hs5 Huabf Huab _.
  apply wp_bind. eapply wp_p256_Multiply;
    [eapply points_to_preserved; [exact Hs5|exact Hrhs4]
    |eapply points_to_preserved; [exact Hs5|exact Hrhs4]
    |exact Huab|].
  intros s6 Hrhs6 Hframe6 _ _.
  assert (points_to s6 P Pvd) as HP6.
  { apply Hframe6; [|done]. eapply points_to_preserved; [exact Hs5|].
    apply Hf14; [done|]. done. }
  apply wp_bind. eapply wp_p256_Neg; [exact HP6|exact HP6|].
  intros s7 HP7 Hframe7.
  apply wp_bind. eapply wp_p256_Multiply; [exact HP7|exact HP7| |].
  { apply Hframe7; [exact Hrhs6|done]. }
  intros s8 HP8 Hframe8 _ _.
  apply wp_bind. eapply wp_p256_IsZero; [exact HP8|]. apply wp_ret.
  unfold Mod, Multiply in *.
  apply (HQ g0 h0 Pvd); [done| |done].
  intros q v Hqv Hqne. apply Hframe8; [|done]. apply Hframe7; [|done].
  assert (q <> rhs) as Hqr.
  { intros ->. eapply (fresh_neq s1 rhs rhs); [|exact Hrhsf|done].
    by apply Hfr. }
  apply Hframe6; [|done]. eapply points_to_preserved; [exact Hs5|].
  apply Hf14; [|done]. by apply Hfr.
Qed.

Lemma ipa_rounds_length (d : nat) : forall a b gv hv uv,
  length (ipa_rounds d a b gv hv uv) = d.
Proof. induction d as [|d IH]; intros; simpl; [done|by rewrite IH]. Qed.

(** The inner product [Prove] on values: the caller's point becomes
    P·(u^x)^c, the proof carries the point u^x, and its Ls and Rs are new
    points with the L and R of the rounds that start from there. *)
Lemma wp_bip_Prove_trace (d : nat) zkip a b P s gv hv uv Pv :
  0 < ORDER -> hash_invertible ->
  length a = (2 ^ d)%nat -> length b = (2 ^ d)%nat ->
  length (bip_g zkip) = (2 ^ d)%nat -> length (bip_h zkip) = (2 ^ d)%nat ->
  Forall2 (points_to s) (bip_g zkip) gv ->
  Forall2 (points_to s) (bip_h zkip) hv ->
  points_to s (bip_u zkip) uv -> points_to s P Pv ->
  Forall (fun q => q <> P) (bip_g zkip ++ bip_h zkip) -> bip_u zkip <> P ->
  (Z.to_nat (bip_n zkip) <= 2 ^ d)%nat ->
  wp (bip_Prove zkip a b P) s (fun r s' =>
    exists proof x,
      let uxv := pt_ScalarMult uv x in
      r = (set_bip_P zkip P, (proof, None)) /\
      frame P s s' /\
      points_to s' P (pt_Multiply Pv (pt_ScalarMult uxv (bip_c zkip))) /\
      points_to s' (pip_u proof) uxv /\
      pip_n proof = Z.of_nat (2 ^ d) /\
      pip_a proof = fst (ipa_scalars d a b gv hv uxv) !! 0%nat /\
      pip_b proof = snd (ipa_scalars d a b gv hv uxv) !! 0%nat /\
      Forall2 (points_to s') (pip_Ls proof)
              (map fst (ipa_rounds d a b gv hv uxv)) /\
      Forall2 (points_to s') (pip_Rs proof)
              (map snd (ipa_rounds d a b gv hv uxv)) /\
      Forall (fun q => q <> P)
             (pip_Ls proof ++ pip_Rs proof ++ [pip_u proof])).
Proof.
  intros Hq Hinv Hla Hlb Hlg Hlh Hg Hh Hu HP Hne Hune Hn.
  apply Forall_app in Hne as [Hgne Hhne].
  unfold bip_Prove.
  apply wp_bind. apply wp_HashIP;
    [by exists Pv|by eapply Forall2_points_to_valid
    |by eapply Forall2_points_to_valid|lia|lia|].
  intros x. cbv beta iota.
  apply wp_bind. eapply wp_p256_ScalarMult_new; [exact Hu|].
  intros ux s2 Hs2 Huxf Hux _.
  apply wp_bind. eapply wp_p256_ScalarMult_new; [exact Hux|].
  intros uxc s3 Hs3 _ Huxc _.
  assert (preserved s s3) as Hs03 by preserved_chain.
  apply wp_bind. eapply wp_p256_Multiply;
    [eapply points_to_preserved; [exact Hs03|exact HP]
    |eapply points_to_preserved; [exact Hs03|exact HP]
    |exact Huxc|].
  intros s4 HP4 Hframe _ _. cbv beta.
  assert (frame P s s4) as Hf04.
  { intros q v Hqv Hqne. apply Hframe; [|done]. by eapply points_to_preserved. }
  assert (ux <> P) as Huxne.
  { intros ->. by eapply (fresh_neq s P P). }
  destruct (Z.of_nat (length a) =? Z.of_nat (length b)) eqn:?; [|lia].
  simpl. unfold BIP. rewrite Hla, BIP_depth_pow2.
  apply wp_bind. eapply wp_mono.
  { eapply (wp_BIP_fuel_trace d (S d) a b (bip_g zkip) (bip_h zkip) ux P [] []
              s4 gv hv (pt_ScalarMult uv x)); try done; try lia.
    - by eapply Forall2_points_to_frame.
    - by eapply Forall2_points_to_frame.
    - apply Hframe; [|done].
      eapply points_to_preserved; [exact Hs3|exact Hux]. }
  intros [proof e] s5 (He & Hs5 & Hpn & Hpu & Hpa & Hpb & newL & newR & HLs
                       & HRs & HnL & HnR & HfL & HfR).
  simpl in He, Hpn, Hpu, Hpa, Hpb, HLs, HRs. subst e.
  apply wp_ret. exists proof, x. cbv zeta.
  split; [done|].
  split; [eapply frame_trans; [exact Hf04|by apply preserved_frame]|].
  split; [by eapply points_to_preserved|].
  rewrite Hpu, HLs, HRs. simpl.
  split.
  { eapply points_to_preserved; [exact Hs5|].
    apply Hframe; [|done].
    eapply points_to_preserved; [exact Hs3|exact Hux]. }
  split; [done|]. split; [done|]. split; [done|].
  split; [done|]. split; [done|].
  apply Forall_app. split; [by eapply fresh_all_neq|].
  apply Forall_app. split; [by eapply fresh_all_neq|].
  by constructor.
Qed.
Lemma bip_Verify_values_run (d : nat) zkip proof s gv hv Pv LRs uv a0 b0 :
  0 < ORDER -> hash_invertible ->
  pip_n proof = Z.of_nat (2 ^ d) ->
  length (bip_g zkip) = (2 ^ d)%nat -> length (bip_h zkip) = (2 ^ d)%nat ->
  length LRs = d ->
  Forall2 (points_to s) (bip_g zkip) gv ->
  Forall2 (points_to s) (bip_h zkip) hv ->
  points_to s (bip_P zkip) Pv ->
  Forall2 (points_to s) (pip_Ls proof) (map fst LRs) ->
  Forall2 (points_to s) (pip_Rs proof) (map snd LRs) ->
  points_to s (pip_u proof) uv ->
  pip_a proof = Some a0 -> pip_b proof = Some b0 ->
  Forall (fun q => q <> bip_P zkip)
         (bip_g zkip ++ bip_h zkip ++ pip_Ls proof ++ pip_Rs proof
          ++ [pip_u proof]) ->
  exists g0 h0 Pf s',
    fold_left ver_step LRs (gv, hv, Pv) = ([g0], [h0], Pf) /\
    bip_Verify zkip proof s
    = Ret (pt_IsZero (pt_Multiply (pt_Neg Pf) (ver_rhs g0 h0 uv a0 b0)), None)
          s'.
Proof.
  intros Hq Hinv Hpn Hlg Hlh HlLR Hg Hh HP HLs HRs Hu Ha Hb Hne.
  destruct (wp_run _ _ _ (wp_bip_Verify_values d zkip proof s gv hv Pv LRs uv
    a0 b0 (fun r s' =>
      exists g0 h0 Pf,
        fold_left ver_step LRs (gv, hv, Pv) = ([g0], [h0], Pf) /\
        r = (pt_IsZero (pt_Multiply (pt_Neg Pf) (ver_rhs g0 h0 uv a0 b0)),
             None))
    Hq Hinv Hpn Hlg Hlh HlLR Hg Hh HP HLs HRs Hu Ha Hb Hne
    (fun g0 h0 Pf s' H1 _ _ =>
       ex_intro _ g0 (ex_intro _ h0 (ex_intro _ Pf (conj H1 eq_refl))))))
    as (r & s' & Hrun & g0 & h0 & Pf & Hfold & ->).
  by exists g0, h0, Pf, s'.
Qed.

(** *** Lengths that are not a power of two *)

Lemma slice_to_Some_inv {A} (a r : list A) (k : nat) :
  slice_to a (Z.of_nat k) = Some r -> r = take k a /\ (k <= length a)%nat.
Proof.
  unfold slice_to. destruct (0 <=? Z.of_nat k) eqn:?; [|done].
  destruct (Z.of_nat k <=? Z.of_nat (length a)) eqn:?; [|done].
  simpl. rewrite Nat2Z.id. intros [= <-]. split; [done|lia].
Qed.

Lemma slice_from_Some_inv {A} (a r : list A) (k : nat) :
  slice_from a (Z.of_nat k) = Some r -> r = drop k a /\ (k <= length a)%nat.
Proof.
  unfold slice_from. destruct (0 <=? Z.of_nat k) eqn:?; [|done].
  destruct (Z.of_nat k <=? Z.of_nat (length a)) eqn:?; [|done].
  simpl. rewrite Nat2Z.id. intros [= <-]. split; [done|lia].
Qed.

Lemma quot_2_of_nat (n : nat) : Z.quot (Z.of_nat n) 2 = Z.of_nat (n / 2).
Proof. rewrite Z.quot_div_nonneg by lia. by rewrite Nat2Z.inj_div. Qed.

Lemma VectorAdd_eq_length (a b : list Z) :
  length a = length b -> length (fst (VectorAdd a b)) = length a.
Proof.
  intros H. unfold VectorAdd. destruct (decide _); [|done]. simpl.
  rewrite length_zip_with. lia.
Qed.

Lemma VectorExp_mismatch a b p e s s' :
  length a <> length b -> VectorExp a b s = Ret (p, e) s' -> p = None.
Proof.
  intros Hlen. unfold VectorExp. destruct (decide _); [done|].
  by intros [[= <- _] _]%ret_Ret_inv.
Qed.

Ltac inv_bind H Hm :=
  apply bind_Ret_inv in H as (? & ? & Hm & H);
  try (apply need_Ret_inv in Hm as [Hm ->]);
  repeat match type of H with
         | (match ?x with pair _ _ => _ end) _ = Ret _ _ =>
             first [ is_var x; destruct x as [? ?]
                   | destruct x as [? ?] eqn:? ]
         end.

(** What a round of [BIP] that returns has gone through: the four halves
    of the scalars, a product over h[:n'] and b[n':] that is not nil, and
    the folded scalars. *)
Lemma BIP_round_Ret_inv a b g h u P (n : nat) s rd s' :
  BIP_round a b g h u P (Z.of_nat n) s = Ret rd s' ->
  exists x xinv Lh e s1 s2,
    (n / 2 <= length a)%nat /\ (n / 2 <= length b)%nat /\
    (n / 2 <= length h)%nat /\
    VectorExp (take (n / 2) h) (drop (n / 2) b) s1 = Ret (Lh, e) s2 /\
    Lh <> None /\
    rd_aprime rd
    = fst (VectorAdd (fst (VectorScalarMul (take (n / 2) a) x))
                     (fst (VectorScalarMul (drop (n / 2) a) xinv))) /\
    rd_bprime rd
    = fst (VectorAdd (fst (VectorScalarMul (take (n / 2) b) xinv))
                     (fst (VectorScalarMul (drop (n / 2) b) x))).
Proof.
  unfold BIP_round. rewrite quot_2_of_nat. cbv zeta. intros H.
  inv_bind H H1. apply slice_to_Some_inv in H1 as [-> Hla].
  inv_bind H H1. apply slice_from_Some_inv in H1 as [-> Hlb].
  inv_bind H H1. apply slice_from_Some_inv in H1 as [-> _].
  inv_bind H H1. apply slice_to_Some_inv in H1 as [-> _].
  inv_bind H H1. inv_bind H H2.
  inv_bind H H3. apply slice_to_Some_inv in H3 as [-> Hlh].
  inv_bind H HLh.
  inv_bind H H3.
  apply p256_Multiply_Ret_inv in H3 as (va & vb & _ & (l & -> & _) & _).
  do 25 (let Hx := fresh "Hx" in inv_bind H Hx).
  apply ret_Ret_inv in H as [<- _]. cbn [rd_aprime rd_bprime].
  match goal with
  | Ha : VectorScalarMul (take _ a) ?x = _,
    Ha' : VectorScalarMul (drop _ a) ?xinv = _ |- _ => exists x, xinv
  end.
  repeat match goal with
         | Hv : VectorScalarMul _ _ = _ |- _ => rewrite Hv; clear Hv
         end.
  cbn [fst].
  repeat match goal with
         | Hv : VectorAdd _ _ = _ |- _ => rewrite Hv; clear Hv
         end.
  by eexists (Some l), _, _, _.
Qed.

(** A round on vectors of an odd length above one does not return: the
    halves h[:n'] and b[n':] differ in length, the product over them is
    nil, and multiplying by it is a run-time panic. *)
Lemma BIP_round_odd a b g h u P (k : nat) s rd s' :
  length b = (2 * k + 1)%nat -> (1 <= k)%nat ->
  BIP_round a b g h u P (Z.of_nat (2 * k + 1)) s <> Ret rd s'.
Proof.
  intros Hb Hk H.
  apply BIP_round_Ret_inv in H
    as (x & xinv & Lh & e & s1 & s2 & _ & _ & Hlh & HLh & Hne & _).
  replace ((2 * k + 1) / 2)%nat with k in *
    by (apply Nat.div_unique with 1%nat; lia).
  apply VectorExp_mismatch in HLh; [done|].
  rewrite length_take, length_drop. lia.
Qed.

(** A round on vectors of an even length halves them. *)
Lemma BIP_round_even a b g h u P (k : nat) s rd s' :
  length a = (2 * k)%nat -> length b = (2 * k)%nat ->
  BIP_round a b g h u P (Z.of_nat (2 * k)) s = Ret rd s' ->
  length (rd_aprime rd) = k /\ length (rd_bprime rd) = k.
Proof.
  intros Ha Hb H.
  apply BIP_round_Ret_inv in H
    as (x & xinv & Lh & e & s1 & s2 & _ & _ & _ & _ & _ & -> & ->).
  replace ((2 * k) / 2)%nat with k
    by (apply Nat.div_unique with 0%nat; lia).
  unfold VectorScalarMul. simpl.
  rewrite !VectorAdd_eq_length
    by (rewrite !length_map, length_take, length_drop; lia).
  rewrite !length_map, !length_take. lia.
Qed.

(** [BIP] on vectors whose length is not a power of two does not return,
    whatever the depth of recursion it is allowed. *)
Lemma BIP_fuel_not_power_of_two fuel :
  forall (n : nat) a b g h u P Ls Rs s r s',
  (forall d, n <> (2 ^ d)%nat) -> length a = n -> length b = n ->
  BIP_fuel fuel a b g h u P (Z.of_nat n) Ls Rs s <> Ret r s'.
Proof.
  induction fuel as [|fuel IH];
    intros n a b g h u P Ls Rs s r s' Hpow Ha Hb H; [done|].
  destruct (decide (n = 0)%nat) as [->|Hn0].
  { by eapply BIP_fuel_nonpositive in H. }
  assert (n <> 1)%nat as Hn1 by apply (Hpow 0%nat).
  simpl in H. destruct (Z.of_nat n =? 1) eqn:?; [lia|].
  apply bind_Ret_inv in H as (proof & s1 & H & _).
  apply bind_Ret_inv in H as (rd & s2 & Hrd & H).
  apply bind_Ret_inv in H as ([proof' e'] & s3 & Hrec & _).
  rewrite quot_2_of_nat in Hrec.
  destruct (Nat.Even_or_Odd n) as [[k ->]|[k ->]].
  - apply BIP_round_even in Hrd as [Ha' Hb']; [|done..].
    replace ((2 * k) / 2)%nat with k in Hrec
      by (apply Nat.div_unique with 0%nat; lia).
    eapply IH; [|exact Ha'|exact Hb'|exact Hrec].
    intros d ->. apply (Hpow (S d)). simpl. lia.
  - eapply BIP_round_odd; [exact Hb|lia|exact Hrd].
Qed.

Lemma bip_Prove_Ret_power_of_two zkip a b P s r s' :
  length a = length b -> (forall d, length a <> (2 ^ d)%nat) ->
  bip_Prove zkip a b P s <> Ret r s'.
Proof.
  intros Hab Hpow H. unfold bip_Prove in H.
  inv_bind H H1. inv_bind H H2. inv_bind H H3. inv_bind H H4.
  cbv zeta in H. rewrite Hab, Z.eqb_refl in H. simpl in H.
  inv_bind H H5. unfold BIP in H5. rewrite <- Hab in H5.
  by eapply BIP_fuel_not_power_of_two in H5.
Qed.

(** An invariant that counts the turns of a loop that returned. *)
Lemma for_loop_Ret_idx {St} (Inv : nat -> St -> Prop) k i body acc s r s' :
  Inv i acc ->
  (forall j acc s acc' s', Inv j acc -> body j acc s = Ret acc' s' ->
                           Inv (S j) acc') ->
  @for_loop C St k i body acc s = Ret r s' -> Inv (i + k)%nat r.
Proof.
  intros Hinv Hbody. revert i acc s Hinv.
  induction k as [|k IH]; intros i acc s Hinv; simpl.
  - intros [<- <-]%ret_Ret_inv. by rewrite Nat.add_0_r.
  - intros (acc1 & s1 & H1 & H)%bind_Ret_inv.
    replace (i + S k)%nat with (S i + k)%nat by lia. eauto.
Qed.

Lemma VectorCopy_Some_length z n r e :
  VectorCopy z n = Some (r, e) -> length r = Z.to_nat n /\ 0 <= n.
Proof.
  unfold VectorCopy. destruct (n <? 0) eqn:?; [done|].
  intros [= <- _]. rewrite length_replicate. lia.
Qed.

Lemma PowerOf_Some_length x n r e :
  PowerOf x n = Some (r, e) -> length r = Z.to_nat n.
Proof.
  unfold PowerOf. destruct (n <? 0) eqn:?; [done|].
  intros [= <- _]. apply PowerOf_loop_length.
Qed.

Lemma VectorConvertToBig_Some_length a n r e :
  VectorConvertToBig a n = Some (r, e) -> length r = Z.to_nat n.
Proof.
  unfold VectorConvertToBig. destruct (n <? 0) eqn:?; [done|].
  destruct (Z.of_nat (length a) <? n) eqn:?; [done|].
  intros [= <- _]. rewrite length_take. lia.
Qed.

(** The lengths of the vectors that [Prove] computes from vectors of one
    length. *)
Ltac vec_lengths N :=
  repeat match goal with
         | Hv : VectorAdd ?a ?b = (?r, _),
           Ha : length ?a = N, Hb : length ?b = N |- _ =>
             let Hr := fresh "Hlen" in
             destruct (VectorAdd_length a b N Ha Hb) as (? & Heq & Hr);
             rewrite Heq in Hv; injection Hv as <- _; clear Heq
         | Hv : VectorSub ?a ?b = (?r, _),
           Ha : length ?a = N, Hb : length ?b = N |- _ =>
             let Hr := fresh "Hlen" in
             destruct (VectorSub_length a b N Ha Hb) as (? & Heq & Hr);
             rewrite Heq in Hv; injection Hv as <- _; clear Heq
         | Hv : VectorMul ?a ?b = (?r, _),
           Ha : length ?a = N, Hb : length ?b = N |- _ =>
             let Hr := fresh "Hlen" in
             destruct (VectorMul_length a b N Ha Hb) as (? & Heq & Hr);
             rewrite Heq in Hv; injection Hv as <- _; clear Heq
         | Hv : VectorScalarMul ?a ?b = (?r, _), Ha : length ?a = N |- _ =>
             let Hr := fresh "Hlen" in
             destruct (VectorScalarMul_length a b N Ha) as (? & Heq & Hr);
             rewrite Heq in Hv; injection Hv as <- _; clear Heq
         end.



(** What a range-proof [Prove] that returns has gone through at its end:
    two vectors of the bit-width's length, whose inner product is the t' of
    the proof, their commitment, and the inner product [Prove] on them. *)
Lemma bp_Prove_Ret_call zkrp v s zkrp' proof e s' :
  bp_Prove zkrp v s = Ret (zkrp', (proof, e)) s' ->
  exists hprime bl br commit ec r s1 s2,
    0 <= bp_n zkrp /\
    length bl = Z.to_nat (bp_n zkrp) /\ length br = Z.to_nat (bp_n zkrp) /\
    fst (ScalarProduct bl br) = Some (pbp_tprime proof) /\
    CommitInnerProduct (bp_g zkrp) hprime bl br s1 = Ret (commit, ec) s2 /\
    bip_Prove (set_bip_h_c (bp_zkip zkrp) hprime (pbp_tprime proof))
              bl br commit s2
    = Ret (bp_zkip zkrp', r) s'.
Proof.
  intros H. unfold bp_Prove in H. cbv zeta in H.
  repeat (let Hx := fresh "Hx" in inv_bind H Hx).
  apply ret_Ret_inv in H as [[= <- <- <-] <-].
  repeat match goal with
         | Hv : VectorCopy _ _ = Some _ |- _ =>
             apply VectorCopy_Some_length in Hv as [? ?]
         | Hv : PowerOf _ _ = Some _ |- _ =>
             apply PowerOf_Some_length in Hv
         | Hv : VectorConvertToBig _ _ = Some _ |- _ =>
             apply VectorConvertToBig_Some_length in Hv
         end.
  set (N := Z.to_nat (bp_n zkrp)) in *.
  match goal with
  | Hl : for_loop _ _ _ _ _ = Ret (?sL, ?sR) _ |- _ =>
      apply (for_loop_Ret_idx
               (fun j (st : list Z * list Z) =>
                  length (fst st) = j /\ length (snd st) = j)) in Hl
        as [HsL HsR]; [| done |]
  end.
  2: { intros j [sL sR] s0 [sL' sR'] s0' [HsL HsR] Hb. simpl in *.
       inv_bind Hb Hb1. inv_bind Hb Hb2.
       apply ret_Ret_inv in Hb as [[= <- <-] _].
       rewrite !length_app. simpl. lia. }
  simpl in HsL, HsR.
  vec_lengths N.
  match goal with
  | Hp : bip_Prove (set_bip_h_c _ ?hp ?tp) ?bl ?br ?cm ?s2 = Ret (_, ?r) _,
    Hc : CommitInnerProduct _ ?hp ?bl ?br ?s1 = Ret (?cm, ?ec) ?s2,
    Hsp : ScalarProduct ?bl ?br = (?o, _), Ho : ?o = Some ?tp,
    Hl : length ?bl = N, Hr : length ?br = N |- _ =>
      exists hp, bl, br, cm, ec, r, s1, s2; rewrite Hsp; simpl;
      repeat split; done
  end.
Qed.

(** [Prove] needs a power of two.  On two vectors of one length that is
    not a power of two, the recursion [BIP] does not return, whatever depth
    it is allowed, and neither does the inner product [Prove]: there is no
    error for such a length, and the run ends in a panic (or, for the
    length 0, in a recursion without end).  The range-proof [Prove] does
    not return either on parameters whose bit-width is not a power of two,
    whatever the secret. *)
Theorem Prove_needs_power_of_two (zkip : bip) (a b : list Z) (P : ptr)
    (zkrp : bp) (v : Z) (s : state) :
  (length a = length b -> (forall d, length a <> (2 ^ d)%nat) ->
   forall fuel g h u P' Ls Rs r s',
     BIP_fuel fuel a b g h u P' (Z.of_nat (length a)) Ls Rs s <> Ret r s')
  /\ (length a = length b -> (forall d, length a <> (2 ^ d)%nat) ->
      forall r s', bip_Prove zkip a b P s <> Ret r s')
  /\ ((forall d, bp_n zkrp <> Z.of_nat (2 ^ d)) ->
      forall r s', bp_Prove zkrp v s <> Ret r s').
Proof.
  split; [intros Hab Hpow fuel g h u P' Ls Rs r s'|split].
  { by apply BIP_fuel_not_power_of_two. }
  { intros Hab Hpow r s'. by apply bip_Prove_Ret_power_of_two. }
  intros Hpow [zkrp' [proof e]] s' H.
  apply bp_Prove_Ret_call in H
    as (hp & bl & br & cm & ec & r & s1 & s2 & Hn & Hbl & Hbr & _ & _ & Hp).
  apply bip_Prove_Ret_power_of_two in Hp; [done|congruence|].
  intros d Hd. apply (Hpow d). rewrite Hbl in Hd. lia.
Qed.

(** *** The parameters after Prove *)


(** *** What an accepting Verify leaves *)

(** An accepting [Verify] uses up the commitment.  Whenever the inner
    product [Verify] returns true, the point behind [zkip.P], which held
    the commitment, holds the identity: [Verify] works on the stored point
    itself and not on a copy.  The same holds for the range-proof [Verify]
    and the stored point of its inner product parameters. *)
Theorem Verify_consumes_commitment (zkrp : bp) (proof : proofBP) (zkip : bip)
    (proofip : proofBip) (e e' : error) (s s' t t' : state) :
  CurveLaws C ->
  (bip_Verify zkip proofip s = Ret (true, e) s' ->
   points_to s' (bip_P zkip) pt_Infinity)
  /\ (bp_Verify zkrp proof t = Ret (true, e') t' ->
      points_to t' (bip_P (bp_zkip zkrp)) pt_Infinity).
Proof.
  intros HL. split; intros H.
  - by eapply bip_Verify_true_overwrites_P.
  - by eapply bp_Verify_true_overwrites_P.
Qed.

Section Completeness.

Context (HL : CurveLaws C) (HE : ExponentLaws C).

Local Notation "a ∙ b" := (pt_Multiply a b) (at level 40, left associativity).
Local Notation "a ^^ k" := (pt_ScalarMult a k) (at level 30, no associativity).

#[local] Instance pt_Multiply_assoc : Associative eq pt_Multiply.
Proof. intros a b c. apply (law_assoc _ HL). Qed.

#[local] Instance pt_Multiply_comm : Commutative eq pt_Multiply.
Proof. intros a b. apply (law_comm _ HE). Qed.

#[local] Instance pt_Multiply_unit : Unit eq pt_Multiply pt_Infinity.
Proof. split; intros a; [apply (law_unit_l _ HL)|apply (law_unit_r _ HL)]. Qed.

#[local] Instance point_eq_lift : AAC_lift (@eq point) (@eq point).
Proof. split; [apply eq_equivalence|]. by intros a b -> c d ->. Qed.

(** *** Congruences *)

#[local] Instance cong_equiv : Equivalence cong.
Proof.
  split; [by intros x|by intros x y|]. intros x y z. apply cong_trans.
Qed.

#[local] Instance cong_add_proper : Proper (cong ==> cong ==> cong) Z.add.
Proof.
  intros x x' Hx y y' Hy. unfold cong in *.
  by rewrite Zplus_mod, Hx, Hy, <- Zplus_mod.
Qed.

#[local] Instance cong_mul_proper : Proper (cong ==> cong ==> cong) Z.mul.
Proof. intros x x' Hx y y' Hy. by apply cong_mul. Qed.

Lemma cong_mod_l (u : Z) : cong (u mod ORDER) u.
Proof. apply cong_mod. Qed.

Lemma cong_eq (u v : Z) : u = v -> cong u v.
Proof. by intros ->. Qed.

Lemma exp_cong (a : point) (k l : Z) : cong k l -> a ^^ k = a ^^ l.
Proof.
  intros H. rewrite <- (law_exp_mod _ HE a k), <- (law_exp_mod _ HE a l).
  unfold cong, ORDER in H. by rewrite H.
Qed.

Lemma invmod_cong (x : Z) :
  Z.gcd x ORDER = 1 -> cong (x * Z.invmod x ORDER) 1.
Proof.
  intros Hx. unfold cong. rewrite Z.mul_comm. by apply Z.invmod_coprime'.
Qed.

Lemma inverse_unique (x y z : Z) :
  cong (x * y) 1 -> cong (x * z) 1 -> cong y z.
Proof.
  intros Hy Hz.
  transitivity (y * (x * z)); [rewrite Hz; apply cong_eq; ring|].
  transitivity ((x * y) * z); [apply cong_eq; ring|].
  rewrite Hy. apply cong_eq. ring.
Qed.

Lemma invmod_square (x : Z) :
  Z.gcd x ORDER = 1 ->
  cong (Z.invmod ((x * x) mod ORDER) ORDER)
       (Z.invmod x ORDER * Z.invmod x ORDER).
Proof.
  intros Hx.
  assert (Z.gcd ((x * x) mod ORDER) ORDER = 1) as Hx2.
  { rewrite Z.gcd_mod_l. by apply Z.coprime_mul_l. }
  apply (inverse_unique ((x * x) mod ORDER)); [by apply invmod_cong|].
  rewrite cong_mod_l.
  transitivity ((x * Z.invmod x ORDER) * (x * Z.invmod x ORDER));
    [apply cong_eq; ring|].
  rewrite (invmod_cong x Hx). apply cong_eq. ring.
Qed.

(** *** Powers and products of points *)

Lemma exp_unit (k : Z) : pt_Infinity ^^ k = pt_Infinity.
Proof.
  pose proof (law_exp_dist _ HE pt_Infinity pt_Infinity k) as H.
  rewrite (law_unit_l _ HL) in H.
  assert (pt_Neg (pt_Infinity ^^ k) ∙ pt_Infinity ^^ k
          = pt_Neg (pt_Infinity ^^ k) ∙ (pt_Infinity ^^ k ∙ pt_Infinity ^^ k))
    as H' by (by rewrite <- H).
  rewrite (law_assoc _ HL), (law_neg_l _ HL), (law_unit_l _ HL) in H'.
  by symmetry.
Qed.

Lemma exp_0 (a : point) : a ^^ 0 = pt_Infinity.
Proof.
  pose proof (law_exp_add _ HE a 0 0) as H. simpl in H.
  assert (pt_Neg (a ^^ 0) ∙ a ^^ 0 = pt_Neg (a ^^ 0) ∙ (a ^^ 0 ∙ a ^^ 0))
    as H' by (by rewrite <- H).
  rewrite (law_assoc _ HL), (law_neg_l _ HL), (law_unit_l _ HL) in H'.
  by symmetry.
Qed.

Lemma fold_prod_exp_acc (l : list (point * Z)) (acc : point) :
  fold_left prod_exp_step l acc
  = acc ∙ fold_left prod_exp_step l pt_Infinity.
Proof.
  revert acc. induction l as [|vk l IH]; intros acc; simpl.
  - by rewrite (law_unit_r _ HL).
  - rewrite IH, (IH (prod_exp_step _ _)). unfold prod_exp_step.
    rewrite (law_unit_l _ HL). by rewrite (law_assoc _ HL).
Qed.

Lemma prod_exp_cons (v : point) (vs : list point) (k : Z) (ks : list Z) :
  prod_exp (v :: vs) (k :: ks) = v ^^ k ∙ prod_exp vs ks.
Proof.
  unfold prod_exp. simpl. rewrite fold_prod_exp_acc.
  unfold prod_exp_step. simpl. by rewrite (law_unit_l _ HL).
Qed.

Lemma prod_exp_nil_l (ks : list Z) : prod_exp [] ks = pt_Infinity.
Proof. done. Qed.

Lemma prod_exp_nil_r (vs : list point) : prod_exp vs [] = pt_Infinity.
Proof. by destruct vs. Qed.

Lemma prod_exp_app (us vs : list point) (ks ls : list Z) :
  length us = length ks ->
  prod_exp (us ++ vs) (ks ++ ls) = prod_exp us ks ∙ prod_exp vs ls.
Proof.
  revert ks. induction us as [|u us IH]; intros [|k ks] Hlen; try done.
  - simpl. by rewrite prod_exp_nil_l, (law_unit_l _ HL).
  - simpl. rewrite !prod_exp_cons, IH by (simpl in Hlen; lia).
    by rewrite (law_assoc _ HL).
Qed.

Lemma prod_exp_split (k : nat) (vs : list point) (ks : list Z) :
  length vs = length ks ->
  prod_exp vs ks
  = prod_exp (take k vs) (take k ks) ∙ prod_exp (drop k vs) (drop k ks).
Proof.
  intros Hlen. rewrite <- prod_exp_app by (rewrite !length_take; lia).
  by rewrite !take_drop.
Qed.

Lemma inner_product_app (a a' b b' : list Z) :
  length a = length b ->
  inner_product (a ++ a') (b ++ b') = inner_product a b + inner_product a' b'.
Proof.
  revert b. induction a as [|x a IH]; intros [|y b] Hlen; try done.
  simpl. rewrite IH by (simpl in Hlen; lia). ring.
Qed.

Lemma inner_product_split (k : nat) (a b : list Z) :
  length a = length b ->
  inner_product a b
  = inner_product (take k a) (take k b) + inner_product (drop k a) (drop k b).
Proof.
  intros Hlen. rewrite <- inner_product_app by (rewrite !length_take; lia).
  by rewrite !take_drop.
Qed.

(** *** One round *)

(** The product of the folded generators to the folded exponents, in terms
    of the four products of the halves. *)
Lemma prod_exp_folded (glo ghi : list point) (alo ahi : list Z)
    (e1 e2 f1 f2 : Z) :
  length glo = length ghi -> length alo = length glo ->
  length ahi = length glo ->
  prod_exp
    (zip_with pt_Multiply (map (fun v => v ^^ e1) glo)
                          (map (fun v => v ^^ e2) ghi))
    (zip_with (fun u v => (u + v) mod ORDER)
              (map (fun u => (u * f1) mod ORDER) alo)
              (map (fun u => (u * f2) mod ORDER) ahi))
  = (prod_exp glo alo ^^ (f1 * e1) ∙ prod_exp glo ahi ^^ (f2 * e1))
    ∙ (prod_exp ghi alo ^^ (f1 * e2) ∙ prod_exp ghi ahi ^^ (f2 * e2)).
Proof.
  revert ghi alo ahi.
  induction glo as [|g1 glo IH]; intros [|g2 ghi] [|u alo] [|v ahi] H1 H2 H3;
    try done.
  - simpl. rewrite !prod_exp_nil_l, !exp_unit. aac_reflexivity.
  - simpl in *. rewrite !prod_exp_cons, IH by lia.
    rewrite !(law_exp_dist _ HE), !(law_exp_mul _ HE).
    rewrite (exp_cong g1 (e1 * _) (u * (f1 * e1) + v * (f2 * e1))).
    2:{ rewrite cong_mod_l, !cong_mod_l. apply cong_eq. ring. }
    rewrite (exp_cong g2 (e2 * _) (u * (f1 * e2) + v * (f2 * e2))).
    2:{ rewrite cong_mod_l, !cong_mod_l. apply cong_eq. ring. }
    rewrite !(law_exp_add _ HE). aac_reflexivity.
Qed.

Lemma inner_product_folded (alo ahi blo bhi : list Z) (f1 f2 e1 e2 : Z) :
  length alo = length ahi -> length blo = length alo ->
  length bhi = length alo ->
  cong (inner_product
          (zip_with (fun u v => (u + v) mod ORDER)
                    (map (fun u => (u * f1) mod ORDER) alo)
                    (map (fun u => (u * f2) mod ORDER) ahi))
          (zip_with (fun u v => (u + v) mod ORDER)
                    (map (fun u => (u * e1) mod ORDER) blo)
                    (map (fun u => (u * e2) mod ORDER) bhi)))
       (f1 * e1 * inner_product alo blo + f1 * e2 * inner_product alo bhi
        + f2 * e1 * inner_product ahi blo + f2 * e2 * inner_product ahi bhi).
Proof.
  revert ahi blo bhi.
  induction alo as [|u alo IH]; intros [|v ahi] [|w blo] [|z bhi] H1 H2 H3;
    try done.
  - simpl. apply cong_eq. ring.
  - simpl in *. rewrite IH by lia.
    rewrite !cong_mod_l. apply cong_eq. ring.
Qed.

(** A round keeps the shape of the commitment: if P = g^a · h^b · u^⟨a,b⟩,
    then P · L^(x²) · R^(x⁻²) is g'^a' · h'^b' · u^⟨a',b'⟩ for the folded
    generators and exponents. *)
Lemma round_invariant (k : nat) (a b : list Z) (gv hv : list point)
    (uv : point) :
  let Lv := round_L a b gv hv uv k in
  let Rv := round_R a b gv hv uv k in
  let x := hash_scalar Lv Rv in
  let xinv := Z.invmod x ORDER in
  let x2 := (x * x) mod ORDER in
  let x2inv := Z.invmod x2 ORDER in
  Z.gcd x ORDER = 1 ->
  length a = (2 * k)%nat -> length b = (2 * k)%nat ->
  length gv = (2 * k)%nat -> length hv = (2 * k)%nat ->
  ((prod_exp gv a ∙ prod_exp hv b) ∙ uv ^^ inner_product a b) ∙ Lv ^^ x2
  ∙ Rv ^^ x2inv
  = (prod_exp (fold_points gv k xinv x) (fold_scalars a k x xinv)
     ∙ prod_exp (fold_points hv k x xinv) (fold_scalars b k xinv x))
    ∙ uv ^^ inner_product (fold_scalars a k x xinv) (fold_scalars b k xinv x).
Proof.
  intros Lv Rv x xinv x2 x2inv Hx Hla Hlb Hlg Hlh.
  assert (cong (x * xinv) 1) as Hxx by (by apply invmod_cong).
  assert (cong (xinv * x) 1) as Hxx' by (by rewrite Z.mul_comm).
  assert (cong x2 (x * x)) as Hx2 by apply cong_mod_l.
  assert (cong x2inv (xinv * xinv)) as Hx2i by (by apply invmod_square).
  unfold fold_points, fold_scalars.
  rewrite !prod_exp_folded by (rewrite ?length_take, ?length_drop; lia).
  rewrite (exp_cong uv _ _
             (inner_product_folded (take k a) (drop k a) (take k b)
                (drop k b) x xinv xinv x
                ltac:(rewrite ?length_take, ?length_drop; lia)
                ltac:(rewrite ?length_take, ?length_drop; lia)
                ltac:(rewrite ?length_take, ?length_drop; lia))).
  rewrite (prod_exp_split k gv a), (prod_exp_split k hv b) by lia.
  rewrite (exp_cong uv (inner_product a b)
             (inner_product (take k a) (take k b)
              + inner_product (drop k a) (drop k b)))
    by (apply cong_eq, inner_product_split; lia).
  subst Lv Rv. unfold round_L, round_R.
  set (A := prod_exp (take k gv) (take k a)).
  set (B := prod_exp (drop k gv) (drop k a)).
  set (Cx := prod_exp (drop k gv) (take k a)).
  set (D := prod_exp (take k gv) (drop k a)).
  set (A' := prod_exp (take k hv) (take k b)).
  set (B' := prod_exp (drop k hv) (drop k b)).
  set (C' := prod_exp (drop k hv) (take k b)).
  set (D' := prod_exp (take k hv) (drop k b)).
  set (ab := inner_product (take k a) (take k b)).
  set (ab' := inner_product (drop k a) (drop k b)).
  set (cL := inner_product (take k a) (drop k b)).
  set (cR := inner_product (drop k a) (take k b)).
  rewrite !(law_exp_dist _ HE), !(law_exp_mul _ HE).
  rewrite (exp_cong A (x * xinv) 1), (exp_cong B (xinv * x) 1) by done.
  rewrite (exp_cong A' (xinv * x) 1), (exp_cong B' (x * xinv) 1) by done.
  rewrite !(law_exp_1 _ HE).
  rewrite (exp_cong Cx x2 (x * x)), (exp_cong D' x2 (x * x)) by done.
  rewrite (exp_cong D x2inv (xinv * xinv)), (exp_cong C' x2inv (xinv * xinv))
    by done.
  rewrite (exp_cong uv (_ + _ + _ + _)
             ((ab + ab') + (cL mod ORDER * x2 + cR mod ORDER * x2inv))).
  2:{ rewrite Hxx, Hxx', !cong_mod_l, Hx2, Hx2i. apply cong_eq. ring. }
  rewrite !(law_exp_add _ HE). aac_reflexivity.
Qed.

(** *** The whole argument *)

(** The verifier's loop over the pairs (L, R) of a run of the argument that
    starts from P = g^a · h^b · u^⟨a,b⟩ ends with one generator on each
    side and with the commitment that the last check expects. *)
Lemma ver_fold_ipa_rounds (uv : point) (d : nat) :
  hash_invertible ->
  forall (a b : list Z) (gv hv : list point) (Pv : point),
  length a = (2 ^ d)%nat -> length b = (2 ^ d)%nat ->
  length gv = (2 ^ d)%nat -> length hv = (2 ^ d)%nat ->
  Pv = (prod_exp gv a ∙ prod_exp hv b) ∙ uv ^^ inner_product a b ->
  exists a0 b0 g0 h0,
    ipa_scalars d a b gv hv uv = ([a0], [b0]) /\
    fold_left ver_step (ipa_rounds d a b gv hv uv) (gv, hv, Pv)
    = ([g0], [h0], ver_rhs g0 h0 uv a0 b0).
Proof.
  intros Hinv. induction d as [|d IH]; intros a b gv hv Pv Hla Hlb Hlg Hlh HP.
  - destruct a as [|a0 [|]]; [done| |done]. destruct b as [|b0 [|]]; [done| |done].
    destruct gv as [|g0 [|]]; [done| |done].
    destruct hv as [|h0 [|]]; [done| |done].
    exists a0, b0, g0, h0. split; [done|]. simpl. do 2 f_equal.
    rewrite HP. unfold ver_rhs, prod_exp. simpl. unfold prod_exp_step. simpl.
    rewrite !(law_unit_l _ HL). f_equal. apply exp_cong.
    rewrite cong_mod_l. apply cong_eq. ring.
  - assert ((2 ^ S d)%nat = (2 * 2 ^ d)%nat) as Hpow by apply Nat.pow_succ_r'.
    cbn [ipa_scalars ipa_rounds fold_left].
    set (k := (2 ^ d)%nat) in *.
    set (Lv := round_L a b gv hv uv k).
    set (Rv := round_R a b gv hv uv k).
    set (x := hash_scalar Lv Rv).
    assert (Z.gcd x ORDER = 1) as Hx by apply Hinv.
    unfold ver_step at 2. cbv beta iota zeta. cbn [fst snd].
    replace (length gv / 2)%nat with k
      by (rewrite Hlg; symmetry; apply pow2_half).
    fold x. apply IH.
    + apply fold_scalars_length. lia.
    + apply fold_scalars_length. lia.
    + apply fold_points_length. lia.
    + apply fold_points_length. lia.
    + rewrite HP. apply (round_invariant k a b gv hv uv Hx); lia.
Qed.

Lemma IsZero_quotient_l (l r : point) :
  pt_IsZero (pt_Neg l ∙ r) = true <-> l = r.
Proof.
  rewrite (law_IsZero _ HL). split.
  - intros H.
    rewrite <- (law_unit_r _ HL l), <- H, (law_assoc _ HL).
    by rewrite (law_neg_r _ HL), (law_unit_l _ HL).
  - intros ->. apply (law_neg_l _ HL).
Qed.

(** The inner product [Verify] folds and compares.  On parameters with 2^d
    valid generators on each side and a proof with d pairs (L, R), it
    returns a boolean and a nil error; the boolean is true exactly when the
    stored commitment P, multiplied by L^(x²)·R^(x⁻²) for the challenge x
    of every pair in turn, equals g^a·h^b·u^(a·b) for the generators folded
    with the same challenges.  The stored point P is overwritten, and no
    other point is. *)
Theorem bip_Verify_folds (d : nat) (zkip : bip) (proof : proofBip)
    (s : state) (gv hv : list point) (Pv : point)
    (LRs : list (point * point)) (uv : point) (a0 b0 : Z) :
  0 < ORDER -> hash_invertible ->
  pip_n proof = Z.of_nat (2 ^ d) ->
  length (bip_g zkip) = (2 ^ d)%nat -> length (bip_h zkip) = (2 ^ d)%nat ->
  length LRs = d ->
  Forall2 (points_to s) (bip_g zkip) gv ->
  Forall2 (points_to s) (bip_h zkip) hv ->
  points_to s (bip_P zkip) Pv ->
  Forall2 (points_to s) (pip_Ls proof) (map fst LRs) ->
  Forall2 (points_to s) (pip_Rs proof) (map snd LRs) ->
  points_to s (pip_u proof) uv ->
  pip_a proof = Some a0 -> pip_b proof = Some b0 ->
  Forall (fun q => q <> bip_P zkip)
         (bip_g zkip ++ bip_h zkip ++ pip_Ls proof ++ pip_Rs proof
          ++ [pip_u proof]) ->
  exists g0 h0 Pf c s',
    fold_left ver_step LRs (gv, hv, Pv) = ([g0], [h0], Pf) /\
    bip_Verify zkip proof s = Ret (c, None) s' /\
    (c = true <-> Pf = ver_rhs g0 h0 uv a0 b0) /\
    frame (bip_P zkip) s s' /\
    points_to s' (bip_P zkip) (pt_Neg Pf ∙ ver_rhs g0 h0 uv a0 b0).
Proof.
  intros Hq Hinv Hpn Hlg Hlh HlLR Hg Hh HP HLs HRs Hu Ha Hb Hne.
  destruct (wp_run _ _ _ (wp_bip_Verify_values d zkip proof s gv hv Pv LRs uv
    a0 b0 (fun r s' =>
      exists g0 h0 Pf,
        fold_left ver_step LRs (gv, hv, Pv) = ([g0], [h0], Pf) /\
        r = (pt_IsZero (pt_Neg Pf ∙ ver_rhs g0 h0 uv a0 b0), None) /\
        frame (bip_P zkip) s s' /\
        points_to s' (bip_P zkip) (pt_Neg Pf ∙ ver_rhs g0 h0 uv a0 b0))
    Hq Hinv Hpn Hlg Hlh HlLR Hg Hh HP HLs HRs Hu Ha Hb Hne
    (fun g0 h0 Pf s' H1 H2 H3 =>
       ex_intro _ g0 (ex_intro _ h0 (ex_intro _ Pf
         (conj H1 (conj eq_refl (conj H2 H3))))))))
    as (r & s' & Hrun & g0 & h0 & Pf & Hfold & -> & Hfr & HP').
  exists g0, h0, Pf, (pt_IsZero (pt_Neg Pf ∙ ver_rhs g0 h0 uv a0 b0)), s'.
  split; [done|]. split; [done|].
  split; [apply IsZero_quotient_l|]. by split.
Qed.

(** [Prove] leaves a proof that [Verify] accepts, and changes no point
    but the caller's P. *)
Lemma wp_bip_Prove_accepted (d : nat) (zkip : bip) (a b : list Z)
    (P : ptr) (s : state) (gv hv : list point) (uv : point) :
  0 < ORDER -> hash_invertible ->
  length a = (2 ^ d)%nat -> length b = (2 ^ d)%nat ->
  length (bip_g zkip) = (2 ^ d)%nat -> length (bip_h zkip) = (2 ^ d)%nat ->
  Forall2 (points_to s) (bip_g zkip) gv ->
  Forall2 (points_to s) (bip_h zkip) hv ->
  points_to s (bip_u zkip) uv ->
  points_to s P (prod_exp gv a ∙ prod_exp hv b) ->
  cong (bip_c zkip) (inner_product a b) ->
  Forall (fun q => q <> P) (bip_g zkip ++ bip_h zkip) -> bip_u zkip <> P ->
  (Z.to_nat (bip_n zkip) <= 2 ^ d)%nat ->
  wp (bip_Prove zkip a b P) s (fun r s1 =>
    exists proof,
      r = (set_bip_P zkip P, (proof, None)) /\
      frame P s s1 /\
      forall s2, preserved s1 s2 ->
        exists s3,
          bip_Verify (set_bip_P zkip P) proof s2 = Ret (true, None) s3).
Proof.
  intros Hq Hinv Hla Hlb Hlg Hlh Hg Hh Hu HP Hc Hne Hune Hn.
  eapply wp_mono;
    [exact (wp_bip_Prove_trace d zkip a b P s gv hv uv _
              Hq Hinv Hla Hlb Hlg Hlh Hg Hh Hu HP Hne Hune Hn)|].
  intros r s1 (proof & x & -> & Hfr & HP1 & Hpu & Hpn & Hpa & Hpb
               & HLs & HRs & Hpne).
  exists proof. split; [done|]. split; [done|]. intros s2 Hs2.
  set (uxv := uv ^^ x) in *.
  destruct (ver_fold_ipa_rounds uxv d Hinv a b gv hv
              ((prod_exp gv a ∙ prod_exp hv b) ∙ uxv ^^ bip_c zkip)
              Hla Hlb (eq_trans (eq_sym (Forall2_length _ _ _ Hg)) Hlg)
              (eq_trans (eq_sym (Forall2_length _ _ _ Hh)) Hlh))
    as (a0 & b0 & g0 & h0 & Hsc & Hfold).
  { f_equal. by apply exp_cong. }
  rewrite Hsc in Hpa, Hpb. simpl in Hpa, Hpb.
  apply Forall_app in Hne as [Hgne Hhne].
  destruct (bip_Verify_values_run d (set_bip_P zkip P) proof s2 gv hv
              ((prod_exp gv a ∙ prod_exp hv b) ∙ uxv ^^ bip_c zkip)
              (ipa_rounds d a b gv hv uxv) uxv a0 b0 Hq Hinv Hpn Hlg Hlh
              (ipa_rounds_length _ _ _ _ _ _))
    as (g0' & h0' & Pf & s3 & Hfold' & Hrun').
  - eapply Forall2_points_to_preserved; [exact Hs2|].
    by eapply Forall2_points_to_frame.
  - eapply Forall2_points_to_preserved; [exact Hs2|].
    by eapply Forall2_points_to_frame.
  - eapply points_to_preserved; [exact Hs2|exact HP1].
  - by eapply Forall2_points_to_preserved.
  - by eapply Forall2_points_to_preserved.
  - by eapply points_to_preserved.
  - done.
  - done.
  - simpl. rewrite !Forall_app. rewrite !Forall_app in Hpne. tauto.
  - rewrite Hfold in Hfold'. injection Hfold' as <- <- <-.
    exists s3. rewrite Hrun'. do 2 f_equal.
    by apply IsZero_quotient_l.
Qed.

(** The inner product argument is complete.  For vectors a, b of length 2^d,
    as many valid generators on each side, a stored claim c = ⟨a, b⟩ mod q
    and a commitment P = g^a·h^b in a point of its own, [Prove] returns a
    proof with a nil error, and [Verify] of that proof on the parameters
    that [Prove] leaves returns true with a nil error, on the store that
    [Prove] leaves and on every store that extends it. *)
Theorem bip_Verify_accepts_Prove (d : nat) (zkip : bip) (a b : list Z)
    (P : ptr) (s : state) (gv hv : list point) (uv : point) :
  0 < ORDER -> hash_invertible ->
  length a = (2 ^ d)%nat -> length b = (2 ^ d)%nat ->
  length (bip_g zkip) = (2 ^ d)%nat -> length (bip_h zkip) = (2 ^ d)%nat ->
  Forall2 (points_to s) (bip_g zkip) gv ->
  Forall2 (points_to s) (bip_h zkip) hv ->
  points_to s (bip_u zkip) uv ->
  points_to s P (prod_exp gv a ∙ prod_exp hv b) ->
  cong (bip_c zkip) (inner_product a b) ->
  Forall (fun q => q <> P) (bip_g zkip ++ bip_h zkip) -> bip_u zkip <> P ->
  (Z.to_nat (bip_n zkip) <= 2 ^ d)%nat ->
  exists proof s1,
    bip_Prove zkip a b P s = Ret (set_bip_P zkip P, (proof, None)) s1 /\
    forall s2, preserved s1 s2 ->
      exists s3,
        bip_Verify (set_bip_P zkip P) proof s2 = Ret (true, None) s3.
Proof.
  intros Hq Hinv Hla Hlb Hlg Hlh Hg Hh Hu HP Hc Hne Hune Hn.
  destruct (wp_run _ _ _ (wp_bip_Prove_accepted d zkip a b P s gv hv uv
              Hq Hinv Hla Hlb Hlg Hlh Hg Hh Hu HP Hc Hne Hune Hn))
    as (r & s1 & Hrun & proof & -> & _ & Hacc).
  by exists proof, s1.
Qed.

(** *** The polynomial of the range proof *)

#[local] Instance cong_sub_proper : Proper (cong ==> cong ==> cong) Z.sub.
Proof. intros x x' Hx y y' Hy. by apply cong_sub. Qed.

(** The bits that [Decompose] returns for a secret in range weigh the
    secret on the powers of two. *)
Lemma Decompose_loop_value (k : nat) (x c : Z) :
  0 <= x < 2 ^ Z.of_nat k ->
  inner_product (Decompose_loop k x 2) (powers_from c 2 k) = c * x.
Proof.
  revert x c. induction k as [|k IH]; intros x c Hx.
  - assert (x = 0) as -> by (simpl in Hx; lia). simpl. ring.
  - rewrite Nat2Z.inj_succ, Z.pow_succ_r in Hx by lia.
    cbn [Decompose_loop powers_from inner_product].
    rewrite IH.
    + replace (c * x) with (c * (2 * (x / 2) + x mod 2))
        by (f_equal; symmetry; apply Z.div_mod; lia).
      ring.
    + split; [apply Z.div_pos; lia|].
      apply Z.div_lt_upper_bound; lia.
Qed.

(** The inner product of the two vectors that [Prove] hands to the inner
    product argument, as a polynomial in the challenge x: its constant part
    is z²·⟨aL, 2ⁿ⟩ + δ(y, z) and its other coefficients are the scalars that
    [Prove] commits to in T1 and T2. *)
Lemma range_polynomial (z x : Z) (aL sL sR vy p2 : list Z) :
  Forall (fun b => b = 0 \/ b = 1) aL ->
  length sL = length aL -> length sR = length aL ->
  length vy = length aL -> length p2 = length aL ->
  let n := length aL in
  let vz := replicate n z in
  let aR := map (fun v => v - 1) aL in
  let aLmvz := zip_with (fun x y => Mod (Sub x y) ORDER) aL vz in
  let ynsR := zip_with (fun x y => Mod (Multiply x y) ORDER) vy sR in
  let aRzn := zip_with (fun x y => Mod (Add x y) ORDER) aR vz in
  let z22n := map (fun x => Mod (Multiply x (Multiply z z)) ORDER) p2 in
  let ynaRzn :=
    zip_with (fun x y => Mod (Add x y) ORDER)
             (zip_with (fun x y => Mod (Multiply x y) ORDER) vy aRzn) z22n in
  let bl :=
    zip_with (fun x y => Mod (Add x y) ORDER) aLmvz
             (map (fun s => Mod (Multiply s x) ORDER) sL) in
  let br :=
    zip_with (fun x y => Mod (Add x y) ORDER)
      (zip_with (fun x y => Mod (Multiply x y) ORDER) vy
         (zip_with (fun x y => Mod (Add x y) ORDER) aRzn
                   (map (fun s => Mod (Multiply s x) ORDER) sR))) z22n in
  cong (inner_product bl br)
       (z * z * inner_product aL p2
        + ((z - z ^ 2) * inner_product (ones n) vy
           - z ^ 3 * inner_product (ones n) p2)
        + (inner_product aLmvz ynsR + inner_product sL ynaRzn) * x
        + inner_product sL ynsR * (x * x)).
Proof.
  intros Hbit. revert sL sR vy p2.
  induction Hbit as [|a aL Ha _ IH];
    intros [|s sL] [|r sR] [|y vy] [|p p2]; try done.
  - intros _ _ _ _. simpl. apply cong_eq. ring.
  - intros [= HsL] [= HsR] [= Hvy] [= Hp2].
    specialize (IH sL sR vy p2 HsL HsR Hvy Hp2).
    cbv zeta in IH |- *. unfold ones in *.
    cbn [length replicate map zip_with inner_product].
    rewrite IH. clear IH.
    repeat match goal with
           | |- context [inner_product ?u ?v] =>
               let t := fresh "t" in
               generalize (inner_product u v); intros t
           end.
    unfold Mod, Add, Sub, Multiply. repeat setoid_rewrite cong_mod_l.
    apply cong_eq. destruct Ha as [-> | ->]; ring.
Qed.

(** Identity (65) holds between commitments to scalars that satisfy the
    two equations of the polynomial, one for each base. *)
Lemma identity65_commitments (Hv : point)
    (v gamma t1 tau1 t2 tau2 delta z x tprime taux : Z) :
  cong tprime (z * z * v + delta + t1 * x + t2 * (x * x)) ->
  cong taux (tau2 * (x * x) + tau1 * x + z * z * gamma) ->
  identity65_lhs Hv tprime taux
  = identity65_rhs (pt_ScalarBaseMult v ∙ Hv ^^ gamma)
                   (pt_ScalarBaseMult t1 ∙ Hv ^^ tau1)
                   (pt_ScalarBaseMult t2 ∙ Hv ^^ tau2) delta z x.
Proof.
  intros Ht Htau. unfold identity65_lhs, identity65_rhs.
  rewrite (law_base _ HE tprime), (law_base _ HE v), (law_base _ HE t1),
    (law_base _ HE t2), (law_base _ HE delta).
  set (G1 := pt_ScalarBaseMult 1).
  rewrite !(law_exp_dist _ HE), !(law_exp_mul _ HE).
  rewrite (exp_cong G1 _ _ Ht), (exp_cong Hv _ _ Htau).
  rewrite (exp_cong G1 (v * ((z * z) mod ORDER)) (z * z * v)),
    (exp_cong Hv (gamma * ((z * z) mod ORDER)) (z * z * gamma)),
    (exp_cong G1 (t2 * ((x * x) mod ORDER)) (t2 * (x * x))),
    (exp_cong Hv (tau2 * ((x * x) mod ORDER)) (tau2 * (x * x)));
    try (rewrite cong_mod_l; apply cong_eq; ring).
  rewrite !(law_exp_add _ HE). aac_reflexivity.
Qed.

(** *** Commitments on values *)

Lemma wp_CommitG1 x r h Hv s (Q : ptr * error -> state -> Prop) :
  points_to s h Hv ->
  (forall p s', preserved s s' -> fresh s p ->
                points_to s' p (pt_ScalarBaseMult x ∙ Hv ^^ r) ->
                Q (p, None) s') ->
  wp (CommitG1 x r h) s Q.
Proof.
  intros Hh HQ. unfold CommitG1.
  apply wp_bind, wp_p256_ScalarBaseMult_new. intros Cm s1 Hs1 HCmf HCm _.
  apply wp_bind. eapply wp_p256_ScalarMult_new;
    [eapply points_to_preserved; [exact Hs1|exact Hh]|].
  intros Hr s2 Hs2 _ HHr _.
  pose proof (points_to_preserved _ _ _ _ Hs2 HCm) as HCm2.
  apply wp_bind. eapply wp_p256_Multiply; [exact HCm2|exact HCm2|exact HHr|].
  intros s3 HCm3 _ Hpres _. apply wp_ret.
  apply HQ; [|done|done]. apply Hpres; [preserved_chain|done].
Qed.

Lemma wp_CommitInnerProduct g h a b gv hv s
    (Q : ptr * error -> state -> Prop) :
  Forall2 (points_to s) g gv -> Forall2 (points_to s) h hv ->
  length g = length a -> length h = length b ->
  (forall p s', preserved s s' -> fresh s p ->
                points_to s' p (prod_exp gv a ∙ prod_exp hv b) ->
                Q (p, None) s') ->
  wp (CommitInnerProduct g h a b) s Q.
Proof.
  intros Hg Hh Hga Hhb HQ. unfold CommitInnerProduct.
  apply wp_bind. eapply wp_VectorExp; [exact Hg|done|].
  intros ga s1 Hs1 _ Hga1. cbv beta iota.
  apply wp_bind. eapply wp_VectorExp;
    [eapply Forall2_points_to_preserved; [exact Hs1|exact Hh]|done|].
  intros hb s2 Hs2 _ Hhb2. cbv beta iota.
  apply wp_bind. eapply wp_p256_Multiply_new;
    [eapply points_to_preserved; [exact Hs2|exact Hga1]|exact Hhb2|].
  intros r s3 Hs3 Hrf Hr _. apply wp_ret.
  apply HQ; [preserved_chain| |done].
  eapply fresh_preserved; [|exact Hrf]. preserved_chain.
Qed.

(** A store whose one changed point was not there before. *)
Lemma frame_fresh_preserved P s0 s s' :
  preserved s0 s -> fresh s0 P -> frame P s s' -> preserved s0 s'.
Proof.
  intros Hs (lP & -> & HlP) Hfr.
  assert (forall l, (l < length (heap s0))%nat ->
                    heap s' !! l = heap s0 !! l) as Hlook.
  { intros l Hl. destruct (lookup_lt_is_Some_2 _ _ Hl) as [v Hv].
    destruct (Hfr (Some l) v) as (l' & [= <-] & Hl').
    - eapply points_to_preserved; [exact Hs|]. by exists l.
    - intros [= ->]. lia.
    - by rewrite Hl', Hv. }
  split; [|done].
  destruct (decide (length (heap s0) = 0)%nat) as [->|Hne]; [lia|].
  pose proof (Hlook (length (heap s0) - 1)%nat ltac:(lia)) as Hlast.
  destruct (lookup_lt_is_Some_2 (heap s0) (length (heap s0) - 1)%nat
              ltac:(lia)) as [v Hv].
  rewrite Hv in Hlast. apply lookup_lt_Some in Hlast. lia.
Qed.

(** *** The scalars of the range proof *)

Lemma VectorAdd_eq (a b : list Z) :
  length a = length b ->
  VectorAdd a b = (zip_with (fun x y => Mod (Add x y) ORDER) a b, None).
Proof. intros H. unfold VectorAdd. by destruct (decide _). Qed.

Lemma VectorSub_eq (a b : list Z) :
  length a = length b ->
  VectorSub a b = (zip_with (fun x y => Mod (Sub x y) ORDER) a b, None).
Proof. intros H. unfold VectorSub. by destruct (decide _). Qed.

Lemma VectorMul_eq (a b : list Z) :
  length a = length b ->
  VectorMul a b = (zip_with (fun x y => Mod (Multiply x y) ORDER) a b, None).
Proof. intros H. unfold VectorMul. by destruct (decide _). Qed.

Lemma Decompose_run (v : Z) (n : nat) :
  0 <= v < 2 ^ Z.of_nat n ->
  Decompose v 2 (Z.of_nat n) = Some (Decompose_loop n v 2, None).
Proof.
  intros Hv. unfold Decompose.
  destruct (Z.of_nat n <? 0) eqn:?; [lia|].
  destruct (0 <=? v) eqn:?; [|lia].
  destruct (v <? 2 ^ Z.of_nat n) eqn:?; [|lia].
  simpl. by rewrite Nat2Z.id.
Qed.

(** [Delta] on the powers that the code computes. *)
Lemma bp_Delta_run (zkrp : bp) (n : nat) (y z : Z) :
  0 < ORDER -> bp_n zkrp = Z.of_nat n ->
  exists delta,
    bp_Delta zkrp y z = Some (delta, None) /\
    cong delta ((z - z ^ 2) * inner_product (ones n) (PowerOf_loop n 1 y)
                - z ^ 3 * inner_product (ones n) (PowerOf_loop n 1 2)).
Proof.
  intros Hq Hn. unfold bp_Delta, VectorCopy, PowerOf. rewrite Hn.
  destruct (Z.of_nat n <? 0) eqn:?; [lia|]. simpl. rewrite Nat2Z.id.
  rewrite !ScalarProduct_inner
    by (done || by rewrite length_replicate, PowerOf_loop_length).
  simpl. eexists. split; [reflexivity|].
  unfold Sub, Multiply, Mod, ones. repeat setoid_rewrite cong_mod_l.
  apply cong_eq. ring.
Qed.

(** *** An honest proof *)

(** On parameters whose bit-width is a power of two, for a secret in range,
    [Prove] returns commitments to the secret and to the two coefficients
    of the polynomial, scalars that satisfy both equations of Identity
    (65), and an inner product proof that [Verify] accepts; it changes no
    point that was in the store. *)
Lemma wp_bp_Prove_honest (d : nat) zkrp v s gv hv Hv uv :
  0 < ORDER -> hash_invertible ->
  bp_n zkrp = Z.of_nat (2 ^ d) ->
  length (bp_g zkrp) = (2 ^ d)%nat -> length (bp_h zkrp) = (2 ^ d)%nat ->
  Forall2 (points_to s) (bp_g zkrp) gv ->
  Forall2 (points_to s) (bp_h zkrp) hv ->
  points_to s (bp_H zkrp) Hv ->
  Forall2 (points_to s) (bip_g (bp_zkip zkrp)) gv ->
  points_to s (bip_u (bp_zkip zkrp)) uv ->
  (Z.to_nat (bip_n (bp_zkip zkrp)) <= 2 ^ d)%nat ->
  0 <= v < 2 ^ bp_n zkrp ->
  wp (bp_Prove zkrp v) s (fun r s' =>
    exists zkip' proof Av Sv gamma t1 tau1 t2 tau2,
      r = (set_bp_zkip zkrp zkip', (proof, None)) /\
      preserved s s' /\
      points_to s' (pbp_A proof) Av /\ points_to s' (pbp_S proof) Sv /\
      points_to s' (pbp_V proof) (pt_ScalarBaseMult v ∙ Hv ^^ gamma) /\
      points_to s' (pbp_T1 proof) (pt_ScalarBaseMult t1 ∙ Hv ^^ tau1) /\
      points_to s' (pbp_T2 proof) (pt_ScalarBaseMult t2 ∙ Hv ^^ tau2) /\
      (let y := hash_scalar Av Sv in
       let z := hash_scalar Sv Av in
       let x := hash_scalar (pt_ScalarBaseMult t1 ∙ Hv ^^ tau1)
                            (pt_ScalarBaseMult t2 ∙ Hv ^^ tau2) in
       cong (pbp_tprime proof)
            (z * z * v
             + ((z - z ^ 2)
                * inner_product (ones (2 ^ d)) (PowerOf_loop (2 ^ d) 1 y)
                - z ^ 3
                  * inner_product (ones (2 ^ d)) (PowerOf_loop (2 ^ d) 1 2))
             + t1 * x + t2 * (x * x)) /\
       cong (pbp_taux proof) (tau2 * (x * x) + tau1 * x + z * z * gamma)) /\
      (forall s2, preserved s' s2 ->
         exists s3,
           bip_Verify zkip' (pbp_proofip proof) s2 = Ret (true, None) s3)).
Proof.
  intros Hq Hinv Hn Hlg Hlh Hg Hh HH Hig Hu Hipn Hvr.
  set (N := (2 ^ d)%nat) in *.
  assert (1 <= N)%nat as HN by (subst N; clear; induction d; simpl; lia).
  unfold bp_Prove. cbv zeta. rewrite Hn in *.
  (* first phase *)
  apply wp_bind, wp_rand_Int; [done|].
  intros gamma s1 _ Hs1%preserved_heap_eq.
  apply wp_bind. eapply wp_CommitG1;
    [eapply points_to_preserved; [exact Hs1|exact HH]|].
  intros V s2 Hs2 _ HV.
  rewrite (Decompose_run v N Hvr). step_need.
  set (aL := Decompose_loop N v 2).
  assert (length aL = N) as HlaL by apply Decompose_loop_length.
  assert (Forall (fun b => b = 0 \/ b = 1) aL) as Hbin
    by apply Decompose_loop_binary.
  unfold ComputeAR. rewrite (ComputeAR_loop_binary aL Hbin). cbv beta iota.
  set (aR := map (fun v => v - 1) aL).
  assert (length aR = N) as HlaR by (subst aR; by rewrite length_map).
  assert (preserved s s2) as Hs02 by preserved_chain.
  apply wp_bind, wp_rand_Int; [done|].
  intros alpha s3 _ Hs3%preserved_heap_eq.
  assert (preserved s s3) as Hs03 by preserved_chain.
  apply wp_bind. eapply wp_CommitVector;
    [eapply points_to_preserved; [exact Hs03|exact HH]
    |eapply Forall2_points_to_preserved; [exact Hs03|exact Hg]
    |eapply Forall2_points_to_preserved; [exact Hs03|exact Hh]
    |lia..|].
  intros A s4 Hs4 _ HA.
  apply wp_bind, wp_rand_Int; [done|].
  intros rho s5 _ Hs5%preserved_heap_eq.
  apply wp_bind, wp_make; [lia|]. apply wp_bind, wp_make; [lia|].
  rewrite Nat2Z.id.
  apply wp_bind. eapply wp_mono.
  { apply (wp_for_loop (fun j (st : list Z * list Z) s' =>
      preserved s5 s' /\
      length (fst st) = j /\ length (snd st) = j));
      [split; [apply preserved_refl|done]|].
    intros j [sL sR] s6 Hj (Hs6 & HsL & HsR). cbv beta iota.
    apply wp_bind, wp_rand_Int; [done|].
    intros sLi s7 _ Hs7%preserved_heap_eq.
    apply wp_bind, wp_rand_Int; [done|].
    intros sRi s8 _ Hs8%preserved_heap_eq.
    apply wp_ret. simpl in *. rewrite !length_app. simpl.
    split; [preserved_chain|lia]. }
  intros [sL sR] s6 (Hs6 & HsL & HsR). simpl in HsL, HsR. cbv beta iota.
  assert (preserved s s6) as Hs06 by preserved_chain.
  apply wp_bind. eapply wp_CommitVectorBig;
    [eapply points_to_preserved; [exact Hs06|exact HH]
    |eapply Forall2_points_to_preserved; [exact Hs06|exact Hg]
    |eapply Forall2_points_to_preserved; [exact Hs06|exact Hh]
    |lia..|].
  intros S' s7 Hs7 _ HS'.
  assert (preserved s4 s7) as Hs47 by preserved_chain.
  pose proof (points_to_preserved _ _ _ _ Hs47 HA) as HA7.
  set (Av := commit_value Hv alpha gv hv aL aR N) in *.
  set (Sv := commit_value Hv rho gv hv sL sR N) in *.
  apply wp_bind. eapply wp_HashBP; [exact HA7|exact HS'|]. cbv beta iota.
  set (y := hash_scalar Av Sv). set (z := hash_scalar Sv Av).
  (* second phase *)
  apply wp_bind, wp_rand_Int; [done|].
  intros tau1 s8 _ Hs8%preserved_heap_eq.
  apply wp_bind, wp_rand_Int; [done|].
  intros tau2 s9 _ Hs9%preserved_heap_eq.
  assert (preserved s s9) as Hs09 by preserved_chain.
  step_need.
  unfold VectorCopy, PowerOf, VectorConvertToBig.
  destruct (Z.of_nat N <? 0) eqn:?; [lia|].
  rewrite HlaR, HlaL. destruct (Z.of_nat N <? Z.of_nat N) eqn:?; [lia|].
  rewrite Nat2Z.id.
  step_need. step_need. step_need. step_need.
  rewrite (take_ge aL), (take_ge aR) by lia.
  set (vz := replicate N z). set (vy := PowerOf_loop N 1 y).
  set (p2n := PowerOf_loop N 1 2).
  assert (length vz = N) as Hvz by apply length_replicate.
  assert (length vy = N) as Hvy by apply PowerOf_loop_length.
  assert (length p2n = N) as Hp2n by apply PowerOf_loop_length.
  rewrite (VectorSub_eq aL vz) by lia. cbv beta iota.
  set (aLmvz := zip_with (fun x y => Mod (Sub x y) ORDER) aL vz).
  assert (length aLmvz = N) as HaLmvz
    by (subst aLmvz; rewrite length_zip_with; lia).
  rewrite (VectorMul_eq vy sR) by lia. cbv beta iota.
  set (ynsR := zip_with (fun x y => Mod (Multiply x y) ORDER) vy sR).
  assert (length ynsR = N) as HynsR
    by (subst ynsR; rewrite length_zip_with; lia).
  rewrite (ScalarProduct_inner aLmvz ynsR) by (done || lia). cbv beta iota.
  step_need.
  rewrite (VectorAdd_eq aR vz) by lia. cbv beta iota.
  set (aRzn := zip_with (fun x y => Mod (Add x y) ORDER) aR vz).
  assert (length aRzn = N) as HaRzn
    by (subst aRzn; rewrite length_zip_with; lia).
  rewrite (VectorMul_eq vy aRzn) by lia. cbv beta iota.
  step_need. unfold VectorScalarMul. cbv beta iota.
  set (z22n := map (fun x => Mod (Multiply x (Multiply z z)) ORDER) p2n).
  assert (length z22n = N) as Hz22n by (subst z22n; by rewrite length_map).
  rewrite (VectorAdd_eq _ z22n) by (rewrite length_zip_with; lia).
  cbv beta iota.
  set (ynaRzn := zip_with (fun x y => Mod (Add x y) ORDER)
                   (zip_with (fun x y => Mod (Multiply x y) ORDER) vy aRzn)
                   z22n).
  assert (length ynaRzn = N) as HynaRzn
    by (subst ynaRzn; rewrite !length_zip_with; lia).
  rewrite (ScalarProduct_inner sL ynaRzn) by (done || lia). cbv beta iota.
  step_need. step_need.
  rewrite (ScalarProduct_inner sL ynsR) by (done || lia). cbv beta iota.
  step_need.
  set (t1 := Mod (Add (inner_product aLmvz ynsR mod ORDER)
                      (inner_product sL ynaRzn mod ORDER)) ORDER).
  set (t2 := Mod (inner_product sL ynsR mod ORDER) ORDER).
  apply wp_bind. eapply wp_CommitG1;
    [eapply points_to_preserved; [exact Hs09|exact HH]|].
  intros T1 s10 Hs10 _ HT1.
  assert (preserved s s10) as Hs010 by preserved_chain.
  apply wp_bind. eapply wp_CommitG1;
    [eapply points_to_preserved; [exact Hs010|exact HH]|].
  intros T2 s11 Hs11 _ HT2.
  pose proof (points_to_preserved _ _ _ _ Hs11 HT1) as HT1'.
  apply wp_bind. eapply wp_HashBP; [exact HT1'|exact HT2|]. cbv beta iota.
  set (x := hash_scalar (pt_ScalarBaseMult t1 ∙ Hv ^^ tau1)
                        (pt_ScalarBaseMult t2 ∙ Hv ^^ tau2)).
  (* third phase *)
  step_need.
  set (sLx := map (fun s => Mod (Multiply s x) ORDER) sL).
  set (sRx := map (fun s => Mod (Multiply s x) ORDER) sR).
  assert (length sLx = N) as HsLx by (subst sLx; by rewrite length_map).
  assert (length sRx = N) as HsRx by (subst sRx; by rewrite length_map).
  rewrite (VectorAdd_eq aLmvz sLx) by lia. cbv beta iota.
  set (bl := zip_with (fun x y => Mod (Add x y) ORDER) aLmvz sLx).
  assert (length bl = N) as Hbl
    by (subst bl; rewrite length_zip_with; lia).
  rewrite (VectorAdd_eq aRzn sRx) by lia. cbv beta iota.
  rewrite (VectorMul_eq vy) by (rewrite length_zip_with; lia).
  cbv beta iota.
  rewrite (VectorAdd_eq _ z22n) by (rewrite !length_zip_with; lia).
  cbv beta iota.
  set (br := zip_with (fun x y => Mod (Add x y) ORDER)
               (zip_with (fun x y => Mod (Multiply x y) ORDER) vy
                  (zip_with (fun x y => Mod (Add x y) ORDER) aRzn sRx))
               z22n).
  assert (length br = N) as Hbr
    by (subst br; rewrite !length_zip_with; lia).
  rewrite (ScalarProduct_inner bl br) by (done || lia). cbv beta iota.
  destruct (ModInverse_hash Av Sv Hinv) as [Hyinv _].
  fold y in Hyinv. rewrite Hyinv.
  assert (preserved s s11) as Hs011 by preserved_chain.
  apply wp_bind. eapply wp_switch_generators;
    [lia|eapply Forall2_points_to_preserved; [exact Hs011|exact Hh]|].
  intros hprime s12 Hs12 Hlhp _ _ Hhp.
  step_need.
  assert (preserved s s12) as Hs012 by preserved_chain.
  apply wp_bind. eapply wp_CommitInnerProduct;
    [eapply Forall2_points_to_preserved; [exact Hs012|exact Hg]
    |exact Hhp|lia|lia|].
  intros commit s13 Hs13 Hcf Hcommit.
  assert (preserved s s13) as Hs013 by preserved_chain.
  assert (length (bip_g (bp_zkip zkrp)) = N) as Hlig.
  { rewrite (Forall2_length _ _ _ Hig), <- (Forall2_length _ _ _ Hg). done. }
  apply wp_bind. eapply wp_mono.
  { apply (wp_bip_Prove_accepted d
             (set_bip_h_c (bp_zkip zkrp) hprime
                          (inner_product bl br mod ORDER))
             bl br commit s13 gv
             (switch_values (take N hv) (Z.invmod y ORDER)) uv);
      simpl; try done; try lia.
    - eapply Forall2_points_to_preserved; [exact Hs013|exact Hig].
    - eapply Forall2_points_to_preserved; [exact Hs13|exact Hhp].
    - eapply points_to_preserved; [exact Hs013|exact Hu].
    - apply cong_mod_l.
    - apply Forall_app. split.
      + apply Forall_forall. intros q Hq'.
        destruct (Forall_forall (valid s) (bip_g (bp_zkip zkrp))) as [Hval _].
        destruct (Hval (Forall2_points_to_valid _ _ _ Hig) q Hq') as [vq Hvq].
        eapply fresh_neq; [|exact Hcf].
        eapply points_to_preserved; [exact Hs012|exact Hvq].
      + apply Forall_forall. intros q Hq'.
        destruct (Forall_forall (valid s12) hprime) as [Hval _].
        destruct (Hval (Forall2_points_to_valid _ _ _ Hhp) q Hq') as [vq Hvq].
        eapply fresh_neq; [exact Hvq|exact Hcf].
    - eapply fresh_neq; [|exact Hcf].
      eapply points_to_preserved; [exact Hs012|exact Hu]. }
  intros [zkip' [proofip e]] s14 (proofip' & [= -> -> ->] & Hfr & Hacc).
  cbv beta iota. apply wp_ret.
  assert (preserved s12 s14) as Hs1214
    by (eapply frame_fresh_preserved; [exact Hs13|exact Hcf|exact Hfr]).
  assert (preserved s s14) as Hs014 by preserved_chain.
  eexists _, _, Av, Sv, gamma, t1, tau1, t2, tau2.
  split; [reflexivity|]. split; [done|]. simpl.
  assert (preserved s7 s14) as Hs714 by preserved_chain.
  assert (preserved s11 s14) as Hs1114 by preserved_chain.
  assert (preserved s2 s14) as Hs214 by preserved_chain.
  split; [eapply points_to_preserved; [exact Hs714|exact HA7]|].
  split; [eapply points_to_preserved; [exact Hs714|exact HS']|].
  split; [eapply points_to_preserved; [exact Hs214|exact HV]|].
  split; [eapply points_to_preserved; [exact Hs1114|exact HT1']|].
  split; [eapply points_to_preserved; [exact Hs1114|exact HT2]|].
  split; [|exact Hacc].
  fold y z x. split.
  - rewrite cong_mod_l.
    pose proof (range_polynomial z x aL sL sR vy p2n Hbin ltac:(lia)
                  ltac:(lia) ltac:(lia) ltac:(lia)) as Hpoly.
    cbv zeta in Hpoly. rewrite HlaL in Hpoly.
    etransitivity; [exact Hpoly|]. clear Hpoly.
    fold vz aR. fold aLmvz ynsR aRzn z22n. fold ynaRzn.
    assert (cong (inner_product aL p2n) v) as ->.
    { subst p2n. rewrite (inner_product_cong aL _ (powers_from 1 2 N))
        by (by apply PowerOf_loop_cong).
      subst aL. rewrite Decompose_loop_value by done. apply cong_eq. ring. }
    assert (cong t1 (inner_product aLmvz ynsR + inner_product sL ynaRzn))
      as ->.
    { subst t1. unfold Mod, Add. by repeat setoid_rewrite cong_mod_l. }
    assert (cong t2 (inner_product sL ynsR)) as ->.
    { subst t2. unfold Mod. by repeat setoid_rewrite cong_mod_l. }
    fold vy. apply cong_eq. ring.
  - unfold Mod, Add, Multiply. rewrite cong_mod_l. apply cong_eq. ring.
Qed.

(** *** Verification of an honest proof *)

(** [Verify] on a proof whose inner product proof is accepted: it returns
    the outcome of Identity (65) on the points of the proof, with the
    challenges derived again from them. *)
Lemma wp_bp_Verify_identity zkrp proof s (n : nat) Av Sv T1v T2v Vv Hv hv :
  0 < ORDER -> hash_invertible ->
  bp_n zkrp = Z.of_nat n -> (1 <= n <= length (bp_h zkrp))%nat ->
  points_to s (pbp_A proof) Av -> points_to s (pbp_S proof) Sv ->
  points_to s (pbp_T1 proof) T1v -> points_to s (pbp_T2 proof) T2v ->
  points_to s (pbp_V proof) Vv -> points_to s (bp_H zkrp) Hv ->
  Forall2 (points_to s) (bp_h zkrp) hv ->
  (forall s1, preserved s s1 ->
     exists s',
       bip_Verify (bp_zkip zkrp) (pbp_proofip proof) s1
       = Ret (true, None) s') ->
  wp (bp_Verify zkrp proof) s (fun r _ =>
    exists delta,
      bp_Delta zkrp (hash_scalar Av Sv) (hash_scalar Sv Av)
      = Some (delta, None) /\
      r = (pt_IsZero
             (identity65_rhs Vv T1v T2v delta (hash_scalar Sv Av)
                             (hash_scalar T1v T2v)
              ∙ pt_Neg (identity65_lhs Hv (pbp_tprime proof)
                                       (pbp_taux proof))), None)).
Proof.
  intros Hq Hinv Hn Hln HA HS HT1 HT2 HV HH Hh Hacc.
  unfold bp_Verify. cbv zeta.
  apply wp_bind. eapply wp_HashBP; [exact HA|exact HS|]. cbv beta iota.
  apply wp_bind. eapply wp_HashBP; [exact HT1|exact HT2|]. cbv beta iota.
  set (y := hash_scalar Av Sv). set (z := hash_scalar Sv Av).
  set (x := hash_scalar T1v T2v).
  step_need.
  destruct (ModInverse_hash Av Sv Hinv) as [Hyinv _].
  fold y in Hyinv. rewrite Hyinv, Hn.
  apply wp_bind. eapply wp_switch_generators; [exact Hln|exact Hh|].
  intros hprime s1 Hs1 _ _ _ _.
  (* the left-hand side *)
  apply wp_bind. eapply wp_CommitG1;
    [eapply points_to_preserved; [exact Hs1|exact HH]|].
  intros lhs s2 Hs2 Hlf Hlhs.
  step_need. step_need.
  (* the right-hand side *)
  assert (preserved s s2) as Hs02 by preserved_chain.
  apply wp_bind. eapply wp_p256_ScalarMult_new;
    [eapply points_to_preserved; [exact Hs02|exact HV]|].
  intros rhs s3 Hs3 Hrf Hrhs _.
  destruct (bp_Delta_run zkrp n y z Hq Hn) as (delta & Hd & _).
  rewrite Hd. step_need.
  apply wp_bind, wp_p256_ScalarBaseMult_new. intros gdelta s4 Hs4 _ Hgd _.
  pose proof (points_to_preserved _ _ _ _ Hs4 Hrhs) as Hrhs4.
  apply wp_bind. eapply wp_p256_Multiply; [exact Hrhs4|exact Hrhs4|exact Hgd|].
  intros s5 Hrhs5 _ Hpres5 _.
  assert (preserved s2 s5) as Hs25 by (apply Hpres5; [preserved_chain|done]).
  assert (preserved s s5) as Hs05 by preserved_chain.
  apply wp_bind. eapply wp_p256_ScalarMult_new;
    [eapply points_to_preserved; [exact Hs05|exact HT1]|].
  intros T1x s6 Hs6 _ HT1x _.
  assert (preserved s s6) as Hs06 by preserved_chain.
  apply wp_bind. eapply wp_p256_ScalarMult_new;
    [eapply points_to_preserved; [exact Hs06|exact HT2]|].
  intros T2x2 s7 Hs7 HT2f HT2x2 _.
  pose proof (points_to_preserved _ _ _ _ Hs7
                (points_to_preserved _ _ _ _ Hs6 Hrhs5)) as Hrhs7.
  assert (T2x2 <> rhs) as Hne2.
  { intros ->. eapply (fresh_neq s6); [|exact HT2f|done].
    eapply points_to_preserved; [exact Hs6|exact Hrhs5]. }
  apply wp_bind. eapply wp_p256_Multiply;
    [exact Hrhs7|exact Hrhs7
    |eapply points_to_preserved; [exact Hs7|exact HT1x]|].
  intros s8 Hrhs8 Hfr8 Hpres8 _.
  assert (preserved s2 s8) as Hs28 by (apply Hpres8; [preserved_chain|done]).
  apply wp_bind. eapply wp_p256_Multiply;
    [exact Hrhs8|exact Hrhs8|exact (Hfr8 _ _ HT2x2 Hne2)|].
  intros s9 Hrhs9 _ Hpres9 _.
  assert (preserved s2 s9) as Hs29 by (apply Hpres9; [preserved_chain|done]).
  (* the quotient *)
  pose proof (points_to_preserved _ _ _ _ Hs29 Hlhs) as Hlhs9.
  assert (rhs <> lhs) as Hne.
  { intros ->. by eapply (fresh_neq s2); [exact Hlhs|exact Hrf|]. }
  apply wp_bind. eapply wp_p256_Neg; [exact Hlhs9|exact Hlhs9|].
  intros s10 Hlhs10 Hfr10.
  assert (preserved s1 s10) as Hs110.
  { eapply (frame_fresh_preserved lhs s1 s9); [preserved_chain|done|].
    exact Hfr10. }
  pose proof (Hfr10 _ _ Hrhs9 Hne) as Hrhs10.
  apply wp_bind. eapply wp_p256_Multiply;
    [exact Hrhs10|exact Hrhs10|exact Hlhs10|].
  intros s11 Hrhs11 _ Hpres11 _.
  assert (preserved s1 s11) as Hs111.
  { apply Hpres11; [done|]. eapply fresh_preserved; [exact Hs2|exact Hrf]. }
  apply wp_bind. eapply wp_p256_IsZero; [exact Hrhs11|].
  (* the inner product proof *)
  destruct (Hacc s11 ltac:(preserved_chain)) as [s12 Hrun].
  apply wp_bind. eapply run_wp; [exact Hrun|]. cbv beta iota.
  apply wp_ret. exists delta. split; [done|].
  by rewrite andb_true_r.
Qed.

(** [Prove] of a secret in range leaves a proof that [Verify] accepts. *)
Lemma wp_bp_Prove_accepted (d : nat) zkrp v s gv hv Hv uv :
  0 < ORDER -> hash_invertible ->
  bp_n zkrp = Z.of_nat (2 ^ d) ->
  length (bp_g zkrp) = (2 ^ d)%nat -> length (bp_h zkrp) = (2 ^ d)%nat ->
  Forall2 (points_to s) (bp_g zkrp) gv ->
  Forall2 (points_to s) (bp_h zkrp) hv ->
  points_to s (bp_H zkrp) Hv ->
  Forall2 (points_to s) (bip_g (bp_zkip zkrp)) gv ->
  points_to s (bip_u (bp_zkip zkrp)) uv ->
  (Z.to_nat (bip_n (bp_zkip zkrp)) <= 2 ^ d)%nat ->
  0 <= v < 2 ^ bp_n zkrp ->
  wp (bp_Prove zkrp v) s (fun r s1 =>
    exists zkrp' proof s2,
      r = (zkrp', (proof, None)) /\ preserved s s1 /\
      bp_Verify zkrp' proof s1 = Ret (true, None) s2).
Proof.
  intros Hq Hinv Hn Hlg Hlh Hg Hh HH Hig Hu Hipn Hvr.
  assert (1 <= 2 ^ d)%nat as HN by (clear; induction d; simpl; lia).
  eapply wp_mono;
    [exact (wp_bp_Prove_honest d zkrp v s gv hv Hv uv
              Hq Hinv Hn Hlg Hlh Hg Hh HH Hig Hu Hipn Hvr)|].
  intros r s1 (zkip' & proof & Av & Sv & gamma & t1 & tau1 & t2 & tau2
               & -> & Hs1 & HA & HS & HV & HT1 & HT2 & [Ht Htau] & Hacc).
  destruct (wp_run _ _ _ (wp_bp_Verify_identity (set_bp_zkip zkrp zkip')
              proof s1 (2 ^ d) Av Sv _ _ _ Hv hv Hq Hinv Hn
              ltac:(simpl; lia) HA HS HT1 HT2 HV
              (points_to_preserved _ _ _ _ Hs1 HH)
              (Forall2_points_to_preserved _ _ _ _ Hs1 Hh) Hacc))
    as (r & s2 & Hver & delta & Hd & ->).
  exists (set_bp_zkip zkrp zkip'), proof, s2.
  split; [done|]. split; [done|].
  rewrite Hver. do 2 f_equal.
  apply (IsZero_quotient _ _ HL).
  destruct (bp_Delta_run (set_bp_zkip zkrp zkip') (2 ^ d) (hash_scalar Av Sv)
              (hash_scalar Sv Av) Hq Hn) as (delta' & Hd' & Hdc).
  rewrite Hd in Hd'. injection Hd' as <-.
  apply identity65_commitments; [|done].
  etransitivity; [exact Ht|]. by rewrite Hdc.
Qed.

(** The range proof is complete.  On parameters whose bit-width n is a
    power of two, with n valid generators on each side that the inner
    product parameters share, [Prove] of a secret in [0, 2ⁿ) returns a proof
    with a nil error and changes no point that was in the store, and
    [Verify] of that proof on the parameters that [Prove] leaves returns
    true with a nil error. *)
Theorem bp_Verify_accepts_Prove (d : nat) (zkrp : bp) (v : Z) (s : state)
    (gv hv : list point) (Hv uv : point) :
  0 < ORDER -> hash_invertible ->
  bp_n zkrp = Z.of_nat (2 ^ d) ->
  length (bp_g zkrp) = (2 ^ d)%nat -> length (bp_h zkrp) = (2 ^ d)%nat ->
  Forall2 (points_to s) (bp_g zkrp) gv ->
  Forall2 (points_to s) (bp_h zkrp) hv ->
  points_to s (bp_H zkrp) Hv ->
  Forall2 (points_to s) (bip_g (bp_zkip zkrp)) gv ->
  points_to s (bip_u (bp_zkip zkrp)) uv ->
  (Z.to_nat (bip_n (bp_zkip zkrp)) <= 2 ^ d)%nat ->
  0 <= v < 2 ^ bp_n zkrp ->
  exists zkrp' proof s1 s2,
    bp_Prove zkrp v s = Ret (zkrp', (proof, None)) s1 /\
    preserved s s1 /\
    bp_Verify zkrp' proof s1 = Ret (true, None) s2.
Proof.
  intros Hq Hinv Hn Hlg Hlh Hg Hh HH Hig Hu Hipn Hvr.
  destruct (wp_run _ _ _ (wp_bp_Prove_accepted d zkrp v s gv hv Hv uv
              Hq Hinv Hn Hlg Hlh Hg Hh HH Hig Hu Hipn Hvr))
    as (r & s1 & Hrun & zkrp' & proof & s2 & -> & Hs1 & Hver).
  by exists zkrp', proof, s1, s2.
Qed.

(** [Setup], [Prove] and [Verify] in a row.  For an upper bound b whose
    truncated binary logarithm n is a power of two, on a parameter struct
    whose inner product length is in [0, n], [Setup] returns parameters on
    which [Prove] of every secret in [0, 2ⁿ) returns a proof with a nil
    error, which [Verify] accepts.  The lower bound a plays no part, and
    the secrets covered are those below 2ⁿ, whatever b is above it.  The
    upper bound is taken in [1, 2^32], where the logarithm in floating
    point is the position of the highest bit. *)
Theorem Setup_Prove_Verify (d : nat) (zkrp : bp) (a b v : Z) (s : state) :
  0 < ORDER -> hash_invertible ->
  1 <= b <= 2 ^ 32 -> Z.log2 b = Z.of_nat (2 ^ d) ->
  0 <= bip_n (bp_zkip zkrp) <= Z.of_nat (2 ^ d) ->
  0 <= v < 2 ^ Z.of_nat (2 ^ d) ->
  exists zkrp1 s1 zkrp2 proof s2 s3,
    bp_Setup zkrp a b s = Ret zkrp1 s1 /\
    bp_Prove zkrp1 v s1 = Ret (zkrp2, (proof, None)) s2 /\
    bp_Verify zkrp2 proof s2 = Ret (true, None) s3.
Proof.
  intros Hq Hinv [Hb _] Hlog Hipn Hvr.
  destruct (wp_run _ _ _ (wp_bp_Setup_generators zkrp a b s Hq
              ltac:(lia) Hb))
    as (zkrp1 & s1 & Hsetup & egs & ehs & u & _ & Hn & Hle & Hlh & _ & _
        & _ & HH & Hg & Hh & Hu & _ & Hip).
  rewrite Hlog in Hn. rewrite Hlog, Nat2Z.id in Hle, Hlh.
  assert (length (bp_g zkrp1) = (2 ^ d)%nat) as Hlg1
    by (by rewrite (Forall2_length _ _ _ Hg), length_map).
  assert (length (bp_h zkrp1) = (2 ^ d)%nat) as Hlh1
    by (by rewrite (Forall2_length _ _ _ Hh), length_map).
  assert (Forall2 (points_to s1) (bip_g (bp_zkip zkrp1))
                  (map pt_ScalarBaseMult egs)) as Hig by (by rewrite Hip).
  assert (points_to s1 (bip_u (bp_zkip zkrp1)) (pt_MapToGroup SEEDU)) as Hiu
    by (by rewrite Hip).
  assert (Z.to_nat (bip_n (bp_zkip zkrp1)) <= 2 ^ d)%nat as Hin
    by (rewrite Hip; simpl; lia).
  assert (0 <= v < 2 ^ bp_n zkrp1) as Hvr1 by (by rewrite Hn).
  destruct (wp_run _ _ _ (wp_bp_Prove_accepted d zkrp1 v s1 _ _ _ _
              Hq Hinv Hn Hlg1 Hlh1 Hg Hh HH Hig Hiu Hin Hvr1))
    as (r & s2 & Hprove & zkrp2 & proof & s3 & -> & _ & Hver).
  by exists zkrp1, s1, zkrp2, proof, s2, s3.
Qed.

End Completeness.

End Framework.

(** * Concrete runs on the stand-in group *)

Lemma toy_ORDER_pos : 0 < @ORDER toy_curve.
Proof. reflexivity. Qed.

(** The parameters that [Setup] makes for the upper bound 4, and the store
    after it. *)
Lemma toy_Setup_run : bp_Setup bp_zero 0 4 toy_s0 = Ret toy_zkrp toy_s1.
Proof. reflexivity. Qed.

Lemma toy_mix_range (bs : list Byte.byte) (acc : Z) :
  0 <= acc < 100 -> 0 <= fold_left toy_mix bs acc < 100.
Proof.
  revert acc. induction bs as [|b bs IH]; intros acc Hacc; [done|].
  simpl. apply IH. unfold toy_mix. by apply Z.mod_pos_bound.
Qed.

Lemma toy_digest_value (bs : list Byte.byte) :
  be_to_Z (toy_sha256 bs) = 1 + fold_left toy_mix bs 0.
Proof.
  pose proof (toy_mix_range bs 0 ltac:(lia)) as Hr.
  unfold toy_sha256, be_to_Z. rewrite fold_left_app.
  change (fold_left be_fold (replicate 31 Byte.x00) 0) with 0.
  simpl. unfold be_fold, byte_of_Z. simpl.
  destruct (Byte.of_N (Z.to_N (1 + fold_left toy_mix bs 0))) as [y|] eqn:Hy.
  - apply Byte.to_of_N in Hy. rewrite Hy. lia.
  - apply Byte.of_N_None_iff in Hy. lia.
Qed.

Lemma toy_coprime (r : nat) : (r < 100)%nat -> Z.gcd (1 + Z.of_nat r) 101 = 1.
Proof.
  intros Hr. do 100 (destruct r as [|r]; [reflexivity|]). lia.
Qed.

Lemma toy_hash_invertible : @hash_invertible toy_curve toy_env.
Proof.
  intros bs. simpl. rewrite toy_digest_value.
  pose proof (toy_mix_range bs 0 ltac:(lia)) as Hr.
  change (@ORDER toy_curve) with 101. rewrite Z.gcd_mod_l.
  rewrite <- (Z2Nat.id (fold_left toy_mix bs 0)) by lia.
  apply toy_coprime. lia.
Qed.

Lemma toy_laws : CurveLaws toy_curve.
Proof.
  split; simpl.
  - intros a b c. apply Zmod.add_assoc.
  - intros a. apply Zmod.add_0_l.
  - intros a. rewrite Zmod.add_comm. apply Zmod.add_0_l.
  - intros a. rewrite Zmod.add_comm. apply Zmod.add_opp_same_r.
  - intros a. apply Zmod.add_opp_same_r.
  - intros a. apply Zmod.eqb_eq.
Qed.

Lemma toy_points_g :
  Forall2 (points_to toy_s1) (bp_g toy_zkrp)
          [Zmod.of_Z toy_N 28; Zmod.of_Z toy_N 1].
Proof. repeat constructor; eexists; split; reflexivity. Qed.

Lemma toy_points_h :
  Forall2 (points_to toy_s1) (bp_h toy_zkrp)
          [Zmod.of_Z toy_N 47; Zmod.of_Z toy_N 57].
Proof. repeat constructor; eexists; split; reflexivity. Qed.

Lemma toy_points_u : points_to toy_s1 (Some 6%nat) (Zmod.of_Z toy_N 65).
Proof. eexists; split; reflexivity. Qed.

Lemma toy_points_G : points_to toy_s1 (Some 0%nat) (Zmod.of_Z toy_N 1).
Proof. eexists; split; reflexivity. Qed.

Lemma toy_points_H : points_to toy_s1 (Some 1%nat) (Zmod.of_Z toy_N 52).
Proof. eexists; split; reflexivity. Qed.


Lemma toy_Verify_run :
  bp_Verify toy_zkrp2 toy_proof toy_s2 = Ret (true, None) toy_s3.
Proof. reflexivity. Qed.

(** ** Witnesses *)

Lemma bp_Delta_formula_witness :
  (0 < @ORDER toy_curve /\ 0 <= bp_n (mkBp 2 None None [] [] bip_zero))
  /\ (bp_Delta (mkBp 2 None None [] [] bip_zero) 3 5
       = Some (delta_spec (Z.to_nat 2) 3 5, None)
       /\ 0 <= delta_spec (Z.to_nat 2) 3 5 < @ORDER toy_curve).
Proof.
  split; [split; [reflexivity | simpl; lia]|].
  apply (@bp_Delta_formula toy_curve (mkBp 2 None None [] [] bip_zero) 3 5);
    [reflexivity | simpl; lia].
Defined.

Lemma HashBP_scalars_witness :
  (points_to toy_s1 (Some 0%nat) (Zmod.of_Z toy_N 1)
   /\ points_to toy_s1 (Some 1%nat) (Zmod.of_Z toy_N 52))
  /\ HashBP (Some 0%nat) (Some 1%nat) toy_s1
     = Ret (Some (be_to_Z (sha256_Sum (encode (Zmod.of_Z toy_N 1)
                                        ++ encode (Zmod.of_Z toy_N 52)))
                  mod ORDER),
            Some (be_to_Z (sha256_Sum (encode (Zmod.of_Z toy_N 52)
                                        ++ encode (Zmod.of_Z toy_N 1)))
                  mod ORDER),
            None) toy_s1.
Proof.
  split; [exact (conj toy_points_G toy_points_H)|].
  exact (@HashBP_scalars toy_curve toy_env _ _ _ _ _ toy_points_G toy_points_H).
Defined.

Lemma bp_Setup_bit_width_witness :
  (0 < @ORDER toy_curve /\ 0 <= bip_n (bp_zkip bp_zero) /\ 1 < 3 < 2 ^ 32)
  /\ exists zkrp' s',
       bp_Setup bp_zero 0 3 toy_s0 = Ret zkrp' s' /\
       bp_n zkrp' = Z.log2 3 /\
       (3 = 2 ^ Z.log2 3 -> bp_n zkrp' = Z.log2_up 3).
Proof.
  split; [split; [reflexivity | split; [simpl; lia | lia]]|].
  apply (@bp_Setup_bit_width toy_curve toy_env bp_zero 0 3 toy_s0);
    [reflexivity | simpl; lia | lia].
Defined.

Lemma BIP_follows_halving_witness :
  exists proof s',
    BIP_fuel 2 [3; 4] [5; 6] (bp_g toy_zkrp) (bp_h toy_zkrp) (Some 6%nat)
             (Some 0%nat) 2 [] [] toy_s1
    = Ret (proof, None) s' /\ pip_n proof = 2.
Proof.
  destruct (@BIP_follows_halving toy_curve toy_env 1 2 [3; 4] [5; 6]
              (bp_g toy_zkrp) (bp_h toy_zkrp) (Some 6%nat) (Some 0%nat) [] []
              toy_s1 _ _ _ _
              toy_ORDER_pos toy_hash_invertible ltac:(lia)
              eq_refl eq_refl eq_refl eq_refl
              toy_points_g toy_points_h toy_points_u toy_points_G)
    as [(proof & s' & Hrun & Hn & _) _].
  exists proof, s'. split; [exact Hrun|exact Hn].
Defined.

Lemma bip_Prove_mismatch_not_atomic_witness :
  (length [3; 4] <> length [5] /\
   HashIP (bip_g toy_zkip5) (bip_h toy_zkip5) (Some 0%nat) (bip_c toy_zkip5)
          (bip_n toy_zkip5) toy_s1 = Ret (18, None) toy_s1 /\
   points_to toy_s1 (Some 0%nat) (Zmod.of_Z toy_N 1) /\
   points_to toy_s1 (bip_u toy_zkip5) (Zmod.of_Z toy_N 65))
  /\ exists s',
       bip_Prove toy_zkip5 [3; 4] [5] (Some 0%nat) toy_s1
       = Ret (toy_zkip5, (proofBip_zero, Some err_ip_size)) s' /\
       points_to s' (Some 0%nat)
         (pt_Multiply (Zmod.of_Z toy_N 1)
            (pt_ScalarMult (pt_ScalarMult (Zmod.of_Z toy_N 65) 18) 5)).
Proof.
  assert (length [3; 4] <> length [5]) as H1 by (simpl; lia).
  assert (HashIP (bip_g toy_zkip5) (bip_h toy_zkip5) (Some 0%nat)
                 (bip_c toy_zkip5) (bip_n toy_zkip5) toy_s1
          = Ret (18, None) toy_s1) as H2 by reflexivity.
  split; [exact (conj H1 (conj H2 (conj toy_points_G toy_points_u)))|].
  destruct (@bip_Prove_mismatch_not_atomic toy_curve toy_env toy_zkip5
              [3; 4] [5] (Some 0%nat) toy_s1 toy_s1 18 None _ _
              H1 H2 toy_points_G toy_points_u) as (s' & Hrun & HP & _).
  exists s'. split; [exact Hrun|exact HP].
Defined.

Lemma bip_Prove_errors_witness :
  (exists s', bip_Prove (bp_zkip toy_zkrp) [3; 4] [5] (Some 0%nat) toy_s1
              = Ret (bp_zkip toy_zkrp, (proofBip_zero, Some err_ip_size)) s')
  /\ (exists proof s',
        bip_Prove (bp_zkip toy_zkrp) [3; 4] [5; 6] (Some 0%nat) toy_s1
        = Ret (set_bip_P (bp_zkip toy_zkrp) (Some 0%nat), (proof, None)) s').
Proof.
  destruct (@bip_Prove_errors toy_curve toy_env 1 (bp_zkip toy_zkrp)
              [3; 4] [5] (Some 0%nat) toy_s1
              toy_ORDER_pos toy_hash_invertible eq_refl eq_refl
              (Forall2_points_to_valid _ _ _ toy_points_g)
              (Forall2_points_to_valid _ _ _ toy_points_h)
              (ex_intro _ _ toy_points_u) (ex_intro _ _ toy_points_G)
              ltac:(simpl; lia)) as (Ha & _ & _).
  destruct (@bip_Prove_errors toy_curve toy_env 1 (bp_zkip toy_zkrp)
              [3; 4] [5; 6] (Some 0%nat) toy_s1
              toy_ORDER_pos toy_hash_invertible eq_refl eq_refl
              (Forall2_points_to_valid _ _ _ toy_points_g)
              (Forall2_points_to_valid _ _ _ toy_points_h)
              (ex_intro _ _ toy_points_u) (ex_intro _ _ toy_points_G)
              ltac:(simpl; lia)) as (_ & Hb & _).
  split.
  - apply Ha. simpl. lia.
  - destruct (Hb eq_refl eq_refl) as (proof & s' & Hrun & _). eauto.
Defined.



Lemma bp_Prove_range_witness :
  (exists zkrp' proof s',
      bp_Prove toy_zkrp 3 toy_s1 = Ret (zkrp', (proof, None)) s')
  /\ (forall v zkrp' proof e s',
        bp_Prove toy_zkrp v toy_s1 = Ret (zkrp', (proof, e)) s' -> e = None).
Proof.
  destruct (@bp_Prove_range toy_curve toy_env 1 toy_zkrp toy_s1
              toy_ORDER_pos toy_hash_invertible eq_refl eq_refl eq_refl
              (Forall2_points_to_valid _ _ _ toy_points_g)
              (Forall2_points_to_valid _ _ _ toy_points_h)
              (ex_intro _ _ toy_points_H) eq_refl
              (Forall2_points_to_valid _ _ _ toy_points_g)
              (ex_intro _ _ toy_points_u) ltac:(simpl; lia))
    as (Hin & Hmax & Herr).
  split; [exact Hmax|exact Herr].
Defined.

Lemma VectorSub_undoes_VectorAdd_witness :
  exists c, VectorAdd [3; 100] [5; 7] = (c, None) /\
            VectorSub c [5; 7] = ([3; 100], None).
Proof.
  destruct (@VectorSub_undoes_VectorAdd toy_curve [3; 100] [5; 7]
              toy_ORDER_pos eq_refl) as (c & Hadd & _ & _ & Hsub).
  exists c. split; [exact Hadd|exact Hsub].
Defined.

Lemma ScalarProduct_inner_product_witness :
  ScalarProduct [1; 2; 3] [40; 50; 60]
  = (Some (inner_product [1; 2; 3] [40; 50; 60] mod @ORDER toy_curve), None)
  /\ ScalarProduct [40; 50; 60] [1; 2; 3] = ScalarProduct [1; 2; 3] [40; 50; 60]
  /\ 0 <= inner_product [1; 2; 3] [40; 50; 60] mod @ORDER toy_curve
     < @ORDER toy_curve.
Proof.
  exact (@ScalarProduct_inner_product toy_curve [1; 2; 3] [40; 50; 60]
           toy_ORDER_pos eq_refl).
Defined.

Lemma ScalarProduct_linear_witness :
  ScalarProduct (fst (VectorScalarMul [1; 2] 7)) [30; 40]
  = (Some ((7 * inner_product [1; 2] [30; 40]) mod @ORDER toy_curve), None)
  /\ ScalarProduct (fst (VectorAdd [1; 2] [50; 60])) [30; 40]
     = (Some ((inner_product [1; 2] [30; 40]
               + inner_product [50; 60] [30; 40]) mod @ORDER toy_curve), None).
Proof.
  exact (@ScalarProduct_linear toy_curve [1; 2] [50; 60] [30; 40] 7
           toy_ORDER_pos eq_refl eq_refl).
Defined.

Lemma VectorMul_distributes_witness :
  VectorMul [2; 3] (fst (VectorAdd [50; 60] [70; 80]))
  = VectorAdd (fst (VectorMul [2; 3] [50; 60])) (fst (VectorMul [2; 3] [70; 80]))
  /\ @VectorMul toy_curve [2; 3] [50; 60] = VectorMul [50; 60] [2; 3].
Proof.
  exact (@VectorMul_distributes toy_curve [2; 3] [50; 60] [70; 80]
           eq_refl eq_refl).
Defined.

Lemma PowerOf_powers_witness :
  exists v, PowerOf 7 3 = Some (v, None) /\ length v = 3%nat /\
            v !! 2%nat = Some (7 ^ 2 mod @ORDER toy_curve).
Proof.
  destruct (@PowerOf_powers toy_curve 7 3 eq_refl) as [Hpos _].
  destruct (Hpos ltac:(lia)) as (v & Hv & Hlen & Hi).
  exists v. split; [exact Hv|]. split; [exact Hlen|].
  apply (Hi 2%nat). simpl. lia.
Defined.

Lemma VectorExp_product_witness :
  exists p s',
    VectorExp (bp_g toy_zkrp) [3; 4] toy_s1 = Ret (p, None) s' /\
    points_to s' p (prod_exp [Zmod.of_Z toy_N 28; Zmod.of_Z toy_N 1] [3; 4]).
Proof.
  destruct (@VectorExp_product toy_curve (bp_g toy_zkrp) [3; 4] _
              toy_s1 toy_points_g) as [Hok _].
  destruct (Hok eq_refl) as (p & s' & Hrun & _ & Hp & _).
  exists p, s'. split; [exact Hrun|exact Hp].
Defined.

Lemma VectorScalarExp_powers_witness :
  exists r s',
    VectorScalarExp (bp_g toy_zkrp) 5 toy_s1 = Ret (r, None) s' /\
    Forall2 (points_to s') r
      (map (fun v => pt_ScalarMult v 5)
           [Zmod.of_Z toy_N 28; Zmod.of_Z toy_N 1]).
Proof.
  destruct (@VectorScalarExp_powers toy_curve (bp_g toy_zkrp) 5 _
              toy_s1 toy_points_g) as (r & s' & Hrun & _ & Hr & _).
  exists r, s'. split; [exact Hrun|exact Hr].
Defined.

Lemma VectorECAdd_products_witness :
  exists r s',
    VectorECAdd (bp_g toy_zkrp) (bp_h toy_zkrp) toy_s1 = Ret (r, None) s' /\
    Forall2 (points_to s') r
      (zip_with pt_Multiply [Zmod.of_Z toy_N 28; Zmod.of_Z toy_N 1]
                            [Zmod.of_Z toy_N 47; Zmod.of_Z toy_N 57]).
Proof.
  destruct (@VectorECAdd_products toy_curve (bp_g toy_zkrp)
              (bp_h toy_zkrp) _ _ toy_s1 toy_points_g toy_points_h)
    as [Hok _].
  destruct (Hok eq_refl) as (r & s' & Hrun & _ & Hr & _).
  exists r, s'. split; [exact Hrun|exact Hr].
Defined.

Lemma CommitVector_commitment_witness :
  exists R s',
    CommitVector [1; 0] [0; -1] 9 (bp_G toy_zkrp) (bp_H toy_zkrp)
                 (bp_g toy_zkrp) (bp_h toy_zkrp) 2 toy_s1 = Ret (R, None) s' /\
    points_to s' R
      (commit_value (Zmod.of_Z toy_N 52) 9
         [Zmod.of_Z toy_N 28; Zmod.of_Z toy_N 1]
         [Zmod.of_Z toy_N 47; Zmod.of_Z toy_N 57] [1; 0] [0; -1] 2).
Proof.
  destruct (@CommitVector_commitment toy_curve [1; 0] [0; -1] 9
              (bp_G toy_zkrp) None (bp_H toy_zkrp) (bp_g toy_zkrp)
              (bp_h toy_zkrp) 2 _ _ _ toy_s1 toy_points_H toy_points_g
              toy_points_h ltac:(simpl; lia) ltac:(simpl; lia)
              ltac:(simpl; lia) ltac:(simpl; lia))
    as [(R & s' & Hrun & _ & _ & HR) _].
  exists R, s'. split; [exact Hrun|exact HR].
Defined.

Lemma CommitInnerProduct_product_witness :
  (exists p s',
     CommitInnerProduct (bp_g toy_zkrp) (bp_h toy_zkrp) [3; 4] [5; 6] toy_s1
     = Ret (p, None) s')
  /\ CommitInnerProduct (bp_g toy_zkrp) (bp_h toy_zkrp) [3; 4] [5] toy_s1
     = Panic.
Proof.
  split.
  - destruct (@CommitInnerProduct_product toy_curve (bp_g toy_zkrp)
                (bp_h toy_zkrp) [3; 4] [5; 6] _ _ toy_s1 toy_points_g
                toy_points_h) as [Hok _].
    destruct (Hok eq_refl eq_refl) as (p & s' & Hrun & _). eauto.
  - destruct (@CommitInnerProduct_product toy_curve (bp_g toy_zkrp)
                (bp_h toy_zkrp) [3; 4] [5] _ _ toy_s1 toy_points_g
                toy_points_h) as [_ Hbad].
    apply Hbad. right. simpl. lia.
Defined.

Lemma bp_Setup_one_unusable_witness :
  exists zkrp' s',
    bp_Setup bp_zero 0 1 toy_s0 = Ret zkrp' s' /\ bp_n zkrp' = 0 /\
    (forall v s1 r s2, bp_Prove zkrp' v s1 <> Ret r s2).
Proof.
  destruct (@bp_Setup_one_unusable toy_curve toy_env bp_zero 0 toy_s0
              toy_ORDER_pos ltac:(simpl; lia))
    as (zkrp' & s' & Hrun & Hn & Hp & _).
  exists zkrp', s'. split; [exact Hrun|]. split; [exact Hn|exact Hp].
Defined.

Lemma toy_ip_Verify_run :
  bip_Verify (bp_zkip toy_zkrp2) (pbp_proofip toy_proof) toy_s2
  = Ret (true, None) toy_s6.
Proof. reflexivity. Qed.

Lemma bip_Verify_returns_wellformed_witness :
  (length (pip_Ls (pbp_proofip toy_proof))
   <= length (pip_Rs (pbp_proofip toy_proof)))%nat /\
  is_Some (pip_a (pbp_proofip toy_proof)) /\
  bip_P (bp_zkip toy_zkrp2) <> None.
Proof.
  destruct (@bip_Verify_returns_wellformed toy_curve toy_env
              (bp_zkip toy_zkrp2) (pbp_proofip toy_proof) toy_s2 toy_s6
              true None toy_ip_Verify_run)
    as (_ & Hlen & _ & Ha & _ & _ & HP).
  split; [exact Hlen|]. split; [exact Ha|exact HP].
Defined.

Lemma bp_Setup_generators_witness :
  exists zkrp' s',
    bp_Setup bp_zero 0 4 toy_s0 = Ret zkrp' s' /\ bp_n zkrp' = Z.log2 4 /\
    bip_n (bp_zkip zkrp') = 0 /\ bip_P (bp_zkip zkrp') = None /\
    bip_g (bp_zkip zkrp') = bp_g zkrp'.
Proof.
  destruct (@bp_Setup_generators toy_curve toy_env bp_zero 0 4 toy_s0
              toy_ORDER_pos ltac:(simpl; lia) ltac:(lia))
    as (zkrp' & s' & egs & ehs & u & Hrun & _ & Hn & _ & _ & _ & _ & _ & _
        & _ & _ & _ & _ & Hip).
  exists zkrp', s'. split; [exact Hrun|]. split; [exact Hn|].
  rewrite Hip. simpl. split; [reflexivity|]. split; reflexivity.
Defined.

Lemma switch_generators_values_witness :
  exists hp s',
    switch_generators (bp_h toy_zkrp) 2 (Some 7) toy_s1 = Ret hp s' /\
    hp !! 0%nat = Some (Some 3%nat) /\
    Forall2 (points_to s') hp
      (switch_values [Zmod.of_Z toy_N 47; Zmod.of_Z toy_N 57] 7).
Proof.
  destruct (@switch_generators_values toy_curve (bp_h toy_zkrp) 2 7 _ toy_s1
              ltac:(simpl; lia) toy_points_h)
    as (hp & s' & Hrun & _ & _ & H0 & _ & Hv).
  exists hp, s'. split; [exact Hrun|]. split; [exact H0|exact Hv].
Defined.

Lemma bp_Verify_needs_Prove_witness :
  match bp_Verify toy_zkrp toy_proof toy_s2 with
  | Ret _ _ => False
  | _ => True
  end.
Proof.
  destruct (@bp_Verify_needs_Prove toy_curve toy_env bp_zero toy_zkrp 0 4
              toy_s0 toy_s1 toy_s2 toy_proof 0) as [Hno _].
  specialize (Hno toy_Setup_run eq_refl).
  destruct (bp_Verify toy_zkrp toy_proof toy_s2) as [r s'| |];
    [exact (Hno r s' eq_refl)|exact I|exact I].
Defined.

Lemma toy_exp_laws : ExponentLaws toy_curve.
Proof.
  split; simpl.
  - intros a b. apply Zmod.add_comm.
  - intros a k l. rewrite Zmod.of_Z_add. apply Zmod.mul_add_r.
  - intros a k l. rewrite Zmod.of_Z_mul. symmetry. apply Zmod.mul_assoc.
  - intros a b k. apply Zmod.mul_add_l.
  - intros a k. by rewrite Zmod.of_Z_mod.
  - intros a. apply Zmod.mul_1_r.
  - intros k. symmetry. apply Zmod.mul_1_l.
Qed.

Lemma toy_CommitInnerProduct_run :
  CommitInnerProduct (bp_g toy_zkrp) (bp_h toy_zkrp) [3; 4] [5; 6] toy_s1
  = Ret (Some 13%nat, None) toy_s7.
Proof. reflexivity. Qed.

Lemma toy_ip_Prove_run :
  bip_Prove toy_zkip39 [3; 4] [5; 6] (Some 13%nat) toy_s7
  = Ret (set_bip_P toy_zkip39 (Some 13%nat), (toy_ipproof, None)) toy_s8.
Proof. reflexivity. Qed.

Lemma bip_Verify_folds_witness :
  exists g0 h0 Pf c s',
    fold_left ver_step [(Zmod.of_Z toy_N 50, Zmod.of_Z toy_N 91)]
      ([Zmod.of_Z toy_N 28; Zmod.of_Z toy_N 1],
       [Zmod.of_Z toy_N 47; Zmod.of_Z toy_N 57], Zmod.of_Z toy_N 38)
    = ([g0], [h0], Pf) /\
    bip_Verify (set_bip_P toy_zkip39 (Some 13%nat)) toy_ipproof toy_s8
    = Ret (c, None) s' /\
    (c = true <-> Pf = ver_rhs g0 h0 (Zmod.of_Z toy_N 15) 75 36).
Proof.
  destruct (@bip_Verify_folds toy_curve toy_env toy_laws 1
              (set_bip_P toy_zkip39 (Some 13%nat)) toy_ipproof toy_s8
              [Zmod.of_Z toy_N 28; Zmod.of_Z toy_N 1]
              [Zmod.of_Z toy_N 47; Zmod.of_Z toy_N 57] (Zmod.of_Z toy_N 38)
              [(Zmod.of_Z toy_N 50, Zmod.of_Z toy_N 91)]
              (Zmod.of_Z toy_N 15) 75 36
              toy_ORDER_pos toy_hash_invertible eq_refl eq_refl eq_refl
              eq_refl
              ltac:(repeat constructor; eexists; split; reflexivity)
              ltac:(repeat constructor; eexists; split; reflexivity)
              ltac:(eexists; split; reflexivity)
              ltac:(repeat constructor; eexists; split; reflexivity)
              ltac:(repeat constructor; eexists; split; reflexivity)
              ltac:(eexists; split; reflexivity)
              eq_refl eq_refl
              ltac:(repeat constructor; discriminate))
    as (g0 & h0 & Pf & c & s' & Hf & Hrun & Hc & _).
  exists g0, h0, Pf, c, s'. split; [exact Hf|]. split; [exact Hrun|exact Hc].
Defined.

Lemma bip_Verify_accepts_Prove_witness :
  exists proof s1 s3,
    bip_Prove toy_zkip39 [3; 4] [5; 6] (Some 13%nat) toy_s7
    = Ret (set_bip_P toy_zkip39 (Some 13%nat), (proof, None)) s1 /\
    bip_Verify (set_bip_P toy_zkip39 (Some 13%nat)) proof s1
    = Ret (true, None) s3.
Proof.
  destruct (@bip_Verify_accepts_Prove toy_curve toy_env toy_laws toy_exp_laws
              1 toy_zkip39 [3; 4] [5; 6] (Some 13%nat) toy_s7
              [Zmod.of_Z toy_N 28; Zmod.of_Z toy_N 1]
              [Zmod.of_Z toy_N 47; Zmod.of_Z toy_N 57] (Zmod.of_Z toy_N 65)
              toy_ORDER_pos toy_hash_invertible eq_refl eq_refl eq_refl
              eq_refl
              ltac:(repeat constructor; eexists; split; reflexivity)
              ltac:(repeat constructor; eexists; split; reflexivity)
              ltac:(eexists; split; reflexivity)
              ltac:(eexists; split; reflexivity)
              ltac:(reflexivity)
              ltac:(repeat constructor; discriminate)
              ltac:(discriminate)
              ltac:(simpl; lia))
    as (proof & s1 & Hrun & Hv).
  destruct (Hv s1 (preserved_refl s1)) as (s3 & Hs3).
  exists proof, s1, s3. split; [exact Hrun|exact Hs3].
Defined.

Lemma bp_Verify_accepts_Prove_witness :
  exists zkrp' proof s1 s2,
    bp_Prove toy_zkrp 3 toy_s1 = Ret (zkrp', (proof, None)) s1 /\
    preserved toy_s1 s1 /\
    bp_Verify zkrp' proof s1 = Ret (true, None) s2.
Proof.
  exact (@bp_Verify_accepts_Prove toy_curve toy_env toy_laws toy_exp_laws 1
           toy_zkrp 3 toy_s1
           [Zmod.of_Z toy_N 28; Zmod.of_Z toy_N 1]
           [Zmod.of_Z toy_N 47; Zmod.of_Z toy_N 57]
           (Zmod.of_Z toy_N 52) (Zmod.of_Z toy_N 65)
           toy_ORDER_pos toy_hash_invertible eq_refl eq_refl eq_refl
           toy_points_g toy_points_h toy_points_H toy_points_g toy_points_u
           ltac:(simpl; lia) ltac:(simpl; lia)).
Defined.

Lemma Setup_Prove_Verify_witness :
  exists zkrp1 s1 zkrp2 proof s2 s3,
    bp_Setup bp_zero 0 4 toy_s0 = Ret zkrp1 s1 /\
    bp_Prove zkrp1 3 s1 = Ret (zkrp2, (proof, None)) s2 /\
    bp_Verify zkrp2 proof s2 = Ret (true, None) s3.
Proof.
  exact (@Setup_Prove_Verify toy_curve toy_env toy_laws toy_exp_laws 1
           bp_zero 0 4 3 toy_s0 toy_ORDER_pos toy_hash_invertible
           ltac:(lia) eq_refl ltac:(simpl; lia) ltac:(simpl; lia)).
Defined.

Lemma three_not_power_of_two (d : nat) : 3%nat <> (2 ^ d)%nat.
Proof.
  destruct d as [|[|d]]; simpl; lia.
Qed.

Lemma Prove_needs_power_of_two_witness :
  match bip_Prove (bp_zkip (fst (fst toy_setup8))) [3; 4; 5] [5; 6; 7]
                  (snd (fst toy_setup8)) (snd toy_setup8) with
  | Ret _ _ => False
  | _ => True
  end /\
  match bp_Prove (fst (fst toy_setup8)) 3 (snd toy_setup8) with
  | Ret _ _ => False
  | _ => True
  end.
Proof.
  destruct (@Prove_needs_power_of_two toy_curve toy_env
              (bp_zkip (fst (fst toy_setup8))) [3; 4; 5] [5; 6; 7]
              (snd (fst toy_setup8)) (fst (fst toy_setup8)) 3
              (snd toy_setup8)) as (_ & Hip & Hbp).
  split.
  - destruct (bip_Prove _ _ _ _ _) as [r s'| |]; [|exact I|exact I].
    exact (Hip eq_refl three_not_power_of_two r s' eq_refl).
  - destruct (bp_Prove _ _ _) as [r s'| |]; [|exact I|exact I].
    refine (Hbp _ r s' eq_refl). intros d Hd.
    apply (three_not_power_of_two d). apply Nat2Z.inj. exact Hd.
Defined.

Lemma Verify_consumes_commitment_witness :
  points_to toy_s6 (bip_P (bp_zkip toy_zkrp2)) pt_Infinity /\
  points_to toy_s3 (bip_P (bp_zkip toy_zkrp2)) pt_Infinity.
Proof.
  destruct (@Verify_consumes_commitment toy_curve toy_env toy_zkrp2 toy_proof
              (bp_zkip toy_zkrp2) (pbp_proofip toy_proof) None None
              toy_s2 toy_s6 toy_s2 toy_s3 toy_laws) as [Hip Hbp].
  split; [exact (Hip toy_ip_Verify_run)|exact (Hbp toy_Verify_run)].
Defined.

(** ** Counterexamples *)


(** C2, as stated, fails for v = 2ⁿ and v = −1 (n = 2): with a
    bit-decomposition that reports OutOfRange and returns no digits, [Prove]
    drops the error, indexes the empty digit vector and panics; it returns
    no OutOfRange error. *)
Lemma bp_Prove_out_of_range_no_error :
  Decompose 4 2 (bp_n toy_zkrp) = Some ([], Some "OutOfRange"%string) /\
  Decompose (-1) 2 (bp_n toy_zkrp) = Some ([], Some "OutOfRange"%string) /\
  bp_Prove toy_zkrp 4 toy_s1 = Panic /\
  bp_Prove toy_zkrp (-1) toy_s1 = Panic.
Proof. repeat split. Qed.

(** C9, as stated, fails for b = 3: the bit-width stored is 1, and
    ⌈log₂ 3⌉ = 2. *)
Lemma bp_Setup_not_ceiling :
  bp_Setup bp_zero 0 3 toy_s0 = Ret (fst toy_setup3) (snd toy_setup3) /\
  bp_n (fst toy_setup3) = 1 /\ Z.log2_up 3 = 2.
Proof. repeat split. Qed.

(** C10, as stated, fails when the stored point is another pointer than
    the caller's: the call returns the length error, the caller's point
    (location 0) has changed, and the field [P] and the point behind it
    (location 1) are as before. *)
Lemma bip_Prove_mismatch_keeps_stored_P :
  bip_Prove toy_zkip5 [3; 4] [5] (Some 0%nat) toy_s1
  = Ret (toy_zkip5, (proofBip_zero, Some err_ip_size)) toy_s5 /\
  bip_P toy_zkip5 = Some 1%nat /\
  heap toy_s5 !! 1%nat = heap toy_s1 !! 1%nat /\
  heap toy_s5 !! 0%nat <> heap toy_s1 !! 0%nat.
Proof.
  split; [reflexivity|]. split; [reflexivity|]. split; [reflexivity|].
  intros Heq. apply (f_equal (fun o => Zmod.unsigned <$> o)) in Heq.
  discriminate Heq.
Qed.

(** C6, as stated, fails on vectors of length 3: the call panics (a vector
    operation of the first round returns nil, which is then dereferenced)
    and returns no error at all. *)
Lemma bip_Prove_length_3_panics :
  (zkrp <- bp_Setup bp_zero 0 8 ;;
   '(commit, _) <- CommitInnerProduct (bp_g zkrp) (bp_h zkrp)
                     [3; 4; 5] [5; 6; 7] ;;
   ret (zkrp, commit)) toy_s0 = Ret (fst toy_setup8) (snd toy_setup8) /\
  length (bip_g (bp_zkip (fst (fst toy_setup8)))) = 3%nat /\
  length (bip_h (bp_zkip (fst (fst toy_setup8)))) = 3%nat /\
  bip_Prove (bp_zkip (fst (fst toy_setup8))) [3; 4; 5] [5; 6; 7]
            (snd (fst toy_setup8)) (snd toy_setup8) = Panic.
Proof. repeat split. Qed.

(** C3 on a proof that verifies: a first [Verify] returns true and leaves
    the identity behind [zkip.P], where the commitment was; a second
    [Verify], with the same parameters and the same proof, returns false. *)
Lemma bp_Verify_twice_differs :
  bp_Prove toy_zkrp 3 toy_s1 = Ret (toy_zkrp2, (toy_proof, None)) toy_s2 /\
  bp_Verify toy_zkrp2 toy_proof toy_s2 = Ret (true, None) toy_s3 /\
  bp_Verify toy_zkrp2 toy_proof toy_s3 = Ret (false, None) toy_s4 /\
  bip_P (bp_zkip toy_zkrp2) = Some 30%nat /\
  heap toy_s2 !! 30%nat = Some (Zmod.of_Z toy_N 38) /\
  heap toy_s3 !! 30%nat = Some pt_Infinity.
Proof. repeat split. Qed.

